(** * git-identify: identifier engine, change detection and batch orchestrator

    A shallow embedding of the JavaScript sources
      - utils/hash.mjs            ([isValidGitHash], [validateGitHash])
      - utils/path.mjs            ([normalizeFilePath])
      - utils/url.mjs             ([parseGitHubUrl], [buildGitHubUrl])
      - metadata/normalizer.mjs   ([normalizeMetadata], [sortObjectKeys],
                                   [canonicalizeMetadata])
      - identifier.mjs            ([generateIdentifier], [generateIdentifiers])
      - change-detection.mjs      ([hasFileChanged], [compareIdentifier],
                                   [generateChangeReport], [createManifest],
                                   [saveManifest], [loadManifest])
      - batch.mjs                 ([generateBatchIdentifiers])
    followed by the properties established about them.

    Modelling conventions.
      - A JavaScript string is a [string] (a sequence of 8-bit code units).
      - A JavaScript number is an integer [Z]; NaN, infinities and fractions
        are outside the modelled fragment.
      - An ordinary object is the list of its own enumerable properties in
        enumeration order, and inherits from [Object.prototype]; property
        names that are array indices are outside the modelled fragment.
      - A function that may throw returns [result], [Err] carrying the
        exception. *)

From Stdlib Require Import ZArith Ascii String.
From stdpp Require Import base decidable option list sorting gmap strings pretty.
From Stdlib Require Import Lia.

Local Open Scope string_scope.
Local Open Scope Z_scope.

Set Warnings "-register-all,-clear-no-such-hyp".

(** ** JavaScript values *)

Inductive value : Type :=
| VUndefined
| VNull
| VBool (b : bool)
| VNum (n : Z)
| VStr (s : string)
| VArr (elems : list value)
| VObj (props : list (string * value)).

(** An exception: the constructor name and the [message] property. *)
Record exn : Type := Exn { exn_name : string; exn_message : string }.

Inductive result (A : Type) : Type :=
| Ok (a : A)
| Err (e : exn).
Arguments Ok {A} a.
Arguments Err {A} e.

#[global] Instance result_ret : MRet result := fun _ a => Ok a.
#[global] Instance result_bind : MBind result := fun _ _ k r =>
  match r with
  | Ok a => k a
  | Err e => Err e
  end.

Definition TypeError (msg : string) : exn := Exn "TypeError" msg.
Definition Error (msg : string) : exn := Exn "Error" msg.
Definition InvalidHashError (msg : string) : exn := Exn "InvalidHashError" msg.

(** ToBoolean: [!v] is [negb (truthy v)]. *)
Definition truthy (v : value) : bool :=
  match v with
  | VUndefined | VNull => false
  | VBool b => b
  | VNum n => negb (n =? 0)
  | VStr s => negb (String.eqb s "")
  | VArr _ | VObj _ => true
  end.

Definition typeof (v : value) : string :=
  match v with
  | VUndefined => "undefined"
  | VNull | VArr _ | VObj _ => "object"
  | VBool _ => "boolean"
  | VNum _ => "number"
  | VStr _ => "string"
  end.

(** ** Objects as property lists *)

Definition props := list (string * value).

(** [obj[key]] for an own property; [undefined] when the key is absent. It
    is used with the property names of the metadata and option records,
    none of which is inherited from [Object.prototype]. *)
Fixpoint obj_get (key : string) (o : props) : value :=
  match o with
  | [] => VUndefined
  | (k, v) :: o' => if String.eqb k key then v else obj_get key o'
  end.

(** Defining the own property [key] with value [v]: overwrite in place, or
    append a new property. *)
Fixpoint obj_set (key : string) (v : value) (o : props) : props :=
  match o with
  | [] => [(key, v)]
  | (k, w) :: o' =>
      if String.eqb k key then (k, v) :: o' else (k, w) :: obj_set key v o'
  end.

(** The assignment [obj[key] = v] on an ordinary object. The key
    ["__proto__"] reaches the accessor inherited from [Object.prototype],
    which defines no own property. *)
Definition obj_assign (key : string) (v : value) (o : props) : props :=
  if String.eqb key "__proto__" then o else obj_set key v o.

(** [delete obj[key]]. *)
Definition obj_delete (key : string) (o : props) : props :=
  List.filter (fun kv => negb (String.eqb (fst kv) key)) o.

(** [Object.keys(obj)]. *)
Definition obj_keys (o : props) : list string := map fst o.

(** Property access [v[key]] on an arbitrary non-nullish value, for keys
    that are neither array indices nor ["length"]. *)
Definition get_prop (key : string) (v : value) : value :=
  match v with
  | VObj o => obj_get key o
  | _ => VUndefined
  end.

(** ** Strings *)

Definition char_code (c : ascii) : nat := nat_of_ascii c.

Definition in_range (lo hi : nat) (c : ascii) : bool :=
  (lo <=? char_code c)%nat && (char_code c <=? hi)%nat.

Definition slash : ascii := "/"%char.
Definition backslash : ascii := "092"%char.
Definition dquote : ascii := "034"%char.

(** [String.prototype.toLowerCase] on 8-bit code units. *)
Definition lower_char (c : ascii) : ascii :=
  if in_range 65 90 c
     || (in_range 192 222 c && negb (char_code c =? 215)%nat)
  then ascii_of_nat (char_code c + 32)
  else c.

Fixpoint toLowerCase (s : string) : string :=
  match s with
  | EmptyString => EmptyString
  | String c r => String (lower_char c) (toLowerCase r)
  end.

(** [s.substring(start, end)]: both indices are clamped to [0, length] and
    swapped when [start > end]. *)
Definition clamp_index (len : nat) (i : Z) : nat :=
  Z.to_nat (Z.min (Z.max i 0) (Z.of_nat len)).

Definition substring (s : string) (start end_ : Z) : string :=
  let len := String.length s in
  let a := clamp_index len start in
  let b := clamp_index len end_ in
  String.substring (Nat.min a b) (Nat.max a b - Nat.min a b) s.

(** [Array.prototype.join]: the elements with [sep] between them. *)
Fixpoint array_join (sep : string) (l : list string) : string :=
  match l with
  | [] => ""
  | [x] => x
  | x :: l' => x ++ sep ++ array_join sep l'
  end.

(** ToString, as used by template literals. *)
Fixpoint ToString (v : value) : string :=
  match v with
  | VUndefined => "undefined"
  | VNull => "null"
  | VBool true => "true"
  | VBool false => "false"
  | VNum n => pretty n
  | VStr s => s
  | VArr l =>
      array_join ","
        ((fix elems (l : list value) : list string :=
            match l with
            | [] => []
            | VUndefined :: l' => "" :: elems l'
            | VNull :: l' => "" :: elems l'
            | x :: l' => ToString x :: elems l'
            end) l)
  | VObj _ => "[object Object]"
  end.

(** ** utils/hash.mjs *)

(** One character of the class [[0-9a-f]] under the [i] flag. *)
Definition is_hex_digit (c : ascii) : bool :=
  in_range 48 57 c || in_range 97 102 c || in_range 65 70 c.

Fixpoint all_chars (p : ascii -> bool) (s : string) : bool :=
  match s with
  | EmptyString => true
  | String c r => p c && all_chars p r
  end.

Definition isValidGitHash (hash : value) : bool :=
  match hash with
  | VStr s => (String.length s =? 40)%nat && all_chars is_hex_digit s
  | _ => false
  end.

Definition validateGitHash (hash : value) (fieldName : string) : result unit :=
  if isValidGitHash hash then Ok tt
  else Err (InvalidHashError
         ("Invalid Git hash format for " ++ fieldName
          ++ ": expected 40-character hex string, got "
          ++ String dquote (ToString hash ++ String dquote ""))).

(** ** utils/path.mjs *)

(** [s.replace(/\\/g, '/')] *)
Fixpoint backslashes_to_slashes (s : string) : string :=
  match s with
  | EmptyString => EmptyString
  | String c r =>
      String (if Ascii.eqb c backslash then slash else c)
             (backslashes_to_slashes r)
  end.

(** [s.replace(/^\.\//, '')] *)
Definition strip_leading_dot_slash (s : string) : string :=
  match s with
  | String c (String d r) =>
      if Ascii.eqb c "."%char && Ascii.eqb d slash then r else s
  | _ => s
  end.

(** [s.replace(/\/+$/, '')] *)
Fixpoint strip_trailing_slashes (s : string) : string :=
  match s with
  | EmptyString => EmptyString
  | String c r =>
      match strip_trailing_slashes r with
      | EmptyString => if Ascii.eqb c slash then EmptyString else String c EmptyString
      | r' => String c r'
      end
  end.

(** [s.replace(/\/+/g, '/')] *)
Fixpoint collapse_slashes (s : string) : string :=
  match s with
  | EmptyString => EmptyString
  | String c r =>
      match r with
      | String d _ =>
          if Ascii.eqb c slash && Ascii.eqb d slash
          then collapse_slashes r
          else String c (collapse_slashes r)
      | EmptyString => String c EmptyString
      end
  end.

Definition normalizeFilePath (filePath : value) : result string :=
  match filePath with
  | VStr s =>
      let normalized := backslashes_to_slashes s in
      let normalized := strip_leading_dot_slash normalized in
      let normalized := strip_trailing_slashes normalized in
      let normalized := collapse_slashes normalized in
      Ok normalized
  | _ => Err (TypeError ("Expected string, got " ++ typeof filePath))
  end.

(** ** JSON.stringify *)

Definition newline : ascii := "010"%char.

Definition hex_digit (n : nat) : ascii :=
  if (n <? 10)%nat then ascii_of_nat (48 + n) else ascii_of_nat (87 + n).

(** One code unit of QuoteJSONString. *)
Definition quote_char (c : ascii) : string :=
  let n := char_code c in
  if (n =? 8)%nat then String backslash "b"
  else if (n =? 9)%nat then String backslash "t"
  else if (n =? 10)%nat then String backslash "n"
  else if (n =? 12)%nat then String backslash "f"
  else if (n =? 13)%nat then String backslash "r"
  else if (n =? 34)%nat then String backslash (String dquote "")
  else if (n =? 92)%nat then String backslash (String backslash "")
  else if (n <? 32)%nat then
    String backslash
      (String "u" (String "0" (String "0"
         (String (hex_digit (n / 16)) (String (hex_digit (n mod 16)) "")))))
  else String c "".

Fixpoint quote_chars (s : string) : string :=
  match s with
  | EmptyString => EmptyString
  | String c r => quote_char c ++ quote_chars r
  end.

Definition QuoteJSONString (s : string) : string :=
  String dquote (quote_chars s ++ String dquote "").

Definition is_empty (s : string) : bool := String.eqb s "".

(** Wrap the serialized members of an object or array. *)
Definition wrap_partial (open_ close_ : string) (gap stepback indent : string)
    (partial : list string) : string :=
  match partial with
  | [] => open_ ++ close_
  | _ =>
      if is_empty gap then open_ ++ array_join "," partial ++ close_
      else
        let separator := "," ++ String newline indent in
        open_ ++ String newline indent ++ array_join separator partial
          ++ String newline stepback ++ close_
  end.

(** SerializeJSONProperty; [None] is the result [undefined]. *)
Fixpoint SerializeJSONProperty (gap indent : string) (v : value) : option string :=
  match v with
  | VUndefined => None
  | VNull => Some "null"
  | VBool true => Some "true"
  | VBool false => Some "false"
  | VNum n => Some (pretty n)
  | VStr s => Some (QuoteJSONString s)
  | VArr l =>
      let stepback := indent in
      let indent := indent ++ gap in
      let partial :=
        (fix elems (l : list value) : list string :=
           match l with
           | [] => []
           | x :: l' =>
               match SerializeJSONProperty gap indent x with
               | Some str => str
               | None => "null"
               end :: elems l'
           end) l in
      Some (wrap_partial "[" "]" gap stepback indent partial)
  | VObj o =>
      let stepback := indent in
      let indent := indent ++ gap in
      let partial :=
        (fix members (o : props) : list string :=
           match o with
           | [] => []
           | (k, x) :: o' =>
               match SerializeJSONProperty gap indent x with
               | Some str =>
                   (QuoteJSONString k ++ ":"
                      ++ (if is_empty gap then "" else " ") ++ str)
                     :: members o'
               | None => members o'
               end
           end) o in
      Some (wrap_partial "{" "}" gap stepback indent partial)
  end.

(** [JSON.stringify(v)] and [JSON.stringify(v, null, 2)]. *)
Definition JSON_stringify (v : value) : option string :=
  SerializeJSONProperty "" "" v.

Definition JSON_stringify_pretty (v : value) : option string :=
  SerializeJSONProperty "  " "" v.

(** ** metadata/normalizer.mjs *)

(** The default comparison of [Array.prototype.sort]: code-unit order. *)
Definition key_le (s t : string) : Prop := String.leb s t = true.

#[global] Instance key_le_dec s t : Decision (key_le s t).
Proof. unfold key_le. apply _. Defined.

Definition sort_keys (keys : list string) : list string :=
  merge_sort key_le keys.

Definition is_plain_object (v : value) : bool :=
  match v with
  | VObj _ => true
  | _ => false
  end.

(** [sortObjectKeys]: the recursive call on [obj[key]] is made on every
    property value beforehand ([children]), so that the recursion is
    structural; the loop then reads the already sorted value of each key. *)
Fixpoint sortObjectKeys (obj : value) : value :=
  match obj with
  | VObj o =>
      let children :=
        (fix go (o : props) : props :=
           match o with
           | [] => []
           | (k, v) :: o' =>
               (k, if is_plain_object v then sortObjectKeys v else v) :: go o'
           end) o in
      let keys := sort_keys (obj_keys o) in
      VObj (fold_left (fun sorted key => obj_assign key (obj_get key children) sorted)
                      keys [])
  | _ => obj
  end.

Definition canonicalizeMetadata (metadata : value) : option string :=
  let sorted := sortObjectKeys metadata in
  JSON_stringify sorted.

Definition requiredFields : list string :=
  ["source"; "owner"; "repo"; "branch"; "commitHash"; "filePath"; "fileHash"].

(** The loop over [requiredFields]: the first falsy field is reported. *)
Fixpoint check_required (rawMeta : value) (fields : list string) : result unit :=
  match fields with
  | [] => Ok tt
  | field :: rest =>
      if negb (truthy (get_prop field rawMeta))
      then Err (Error ("Missing required field: " ++ field))
      else check_required rawMeta rest
  end.

Definition is_nullish (v : value) : bool :=
  match v with
  | VUndefined | VNull => true
  | _ => false
  end.

(** [Object.keys(normalized).forEach(key => ... delete normalized[key])] *)
Definition remove_nullish (normalized : props) : props :=
  fold_left
    (fun o key => if is_nullish (obj_get key o) then obj_delete key o else o)
    (obj_keys normalized) normalized.

(** [v.toLowerCase()]; only strings have the method. *)
Definition call_toLowerCase (v : value) : result value :=
  match v with
  | VStr s => Ok (VStr (toLowerCase s))
  | _ => Err (TypeError "toLowerCase is not a function")
  end.

(** The result record of identifier.mjs. *)
Record IdentifierResult : Type := {
  identifier : string;
  short : string;
  algorithm : string;
  metadata : option value
}.

Section Engine.

(** [new Date(v).toISOString()], [None] when [isNaN(date.getTime())]. *)
Variable toISOString : value -> option string.

(** [crypto.createHash(algorithm).update(data, 'utf8').digest(encoding)] *)
Variable digest : string -> string -> string -> string.

Definition normalize_timestamp (lastModified : value) : result value :=
  if truthy lastModified then
    match toISOString lastModified with
    | None => Err (Error ("Invalid timestamp: " ++ ToString lastModified))
    | Some iso => Ok (VStr iso)
    end
  else Ok lastModified.

Definition normalizeMetadata (rawMeta : value) : result value :=
  if negb (truthy rawMeta) || negb (String.eqb (typeof rawMeta) "object")
  then Err (TypeError "Metadata must be an object")
  else
    _ ← check_required rawMeta requiredFields;
    _ ← validateGitHash (get_prop "commitHash" rawMeta) "commitHash";
    _ ← validateGitHash (get_prop "fileHash" rawMeta) "fileHash";
    normalizedPath ← normalizeFilePath (get_prop "filePath" rawMeta);
    lastModified ← normalize_timestamp (get_prop "lastModified" rawMeta);
    commitHash ← call_toLowerCase (get_prop "commitHash" rawMeta);
    fileHash ← call_toLowerCase (get_prop "fileHash" rawMeta);
    let normalized :=
      [ ("branch", get_prop "branch" rawMeta);
        ("commitHash", commitHash);
        ("fileHash", fileHash);
        ("filePath", VStr normalizedPath);
        ("lastModified", lastModified);
        ("owner", get_prop "owner" rawMeta);
        ("repo", get_prop "repo" rawMeta);
        ("source", get_prop "source" rawMeta) ] in
    let normalized :=
      if truthy (get_prop "htmlUrl" rawMeta)
      then obj_assign "htmlUrl" (get_prop "htmlUrl" rawMeta) normalized
      else normalized in
    let normalized :=
      if truthy (get_prop "repoPath" rawMeta)
      then obj_assign "repoPath" (get_prop "repoPath" rawMeta) normalized
      else normalized in
    Ok (VObj (remove_nullish normalized)).

(** ** identifier.mjs *)

(** Destructuring default: used when the property is [undefined]. *)
Definition with_default (v dflt : value) : value :=
  match v with
  | VUndefined => dflt
  | _ => v
  end.

(** [candidates.includes(v)] for an array of string literals; returns the
    matching string. *)
Definition includes (candidates : list string) (v : value) : option string :=
  match v with
  | VStr s => if existsb (String.eqb s) candidates then Some s else None
  | _ => None
  end.

Definition number_of (v : value) : Z :=
  match v with
  | VNum n => n
  | _ => 0
  end.

Definition generateIdentifier (meta : value) (options : props)
    : result IdentifierResult :=
  let algorithm := with_default (obj_get "algorithm" options) (VStr "sha256") in
  let encoding := with_default (obj_get "encoding" options) (VStr "hex") in
  let truncate := with_default (obj_get "truncate" options) (VBool false) in
  let includeMetadata :=
    with_default (obj_get "includeMetadata" options) (VBool false) in
  match includes ["sha256"; "sha1"] algorithm with
  | None =>
      Err (TypeError ("Invalid algorithm: " ++ ToString algorithm
                      ++ ". Must be 'sha256' or 'sha1'"))
  | Some algorithm =>
  match includes ["hex"; "base64"] encoding with
  | None =>
      Err (TypeError ("Invalid encoding: " ++ ToString encoding
                      ++ ". Must be 'hex' or 'base64'"))
  | Some encoding =>
      normalized ← normalizeMetadata meta;
      match canonicalizeMetadata normalized with
      | None => Err (TypeError "The data argument must be of type string")
      | Some canonical =>
          let hash := digest algorithm encoding canonical in
          let fullIdentifier := algorithm ++ ":" ++ hash in
          let short := substring hash 0 8 in
          let identifier :=
            if truthy truncate && String.eqb (typeof truncate) "number"
            then algorithm ++ ":" ++ substring hash 0 (number_of truncate)
            else fullIdentifier in
          Ok {| identifier := identifier;
                short := short;
                algorithm := algorithm;
                metadata := if truthy includeMetadata
                            then Some normalized else None |}
      end
  end
  end.

(** [generateIdentifiers]: [metadataArray.map(...)], stopping at the first
    exception. *)
Fixpoint generateIdentifiers (metadataArray : list value) (options : props)
    : result (list IdentifierResult) :=
  match metadataArray with
  | [] => Ok []
  | meta :: rest =>
      r ← generateIdentifier meta options;
      rs ← generateIdentifiers rest options;
      Ok (r :: rs)
  end.

End Engine.

(** ** JSON.parse

    A recursive-descent reader of the JSON grammar: whitespace, the three
    literals, integers, strings with their escapes, arrays and objects.
    [None] is a SyntaxError. Fractions, exponents and [\u] escapes above
    [0xFF] are outside the modelled fragment and are rejected. *)

Definition is_ws (c : ascii) : bool :=
  let n := char_code c in
  (n =? 32)%nat || (n =? 9)%nat || (n =? 10)%nat || (n =? 13)%nat.

Fixpoint skip_ws (s : string) : string :=
  match s with
  | String c r => if is_ws c then skip_ws r else s
  | EmptyString => s
  end.

Definition hex_value (c : ascii) : option nat :=
  if in_range 48 57 c then Some (char_code c - 48)%nat
  else if in_range 97 102 c then Some (char_code c - 87)%nat
  else if in_range 65 70 c then Some (char_code c - 55)%nat
  else None.

(** The code unit denoted by the four hex digits of a [\u] escape. *)
Definition unicode_escape (h1 h2 h3 h4 : ascii) : option ascii :=
  match hex_value h1, hex_value h2, hex_value h3, hex_value h4 with
  | Some a, Some b, Some c, Some d =>
      let n := (((a * 16 + b) * 16 + c) * 16 + d)%nat in
      if (n <? 256)%nat then Some (ascii_of_nat n) else None
  | _, _, _, _ => None
  end.

(** The single-character escapes. *)
Definition simple_escape (e : ascii) : option ascii :=
  let n := char_code e in
  if (n =? 34)%nat then Some dquote
  else if (n =? 92)%nat then Some backslash
  else if (n =? 47)%nat then Some slash
  else if (n =? 98)%nat then Some (ascii_of_nat 8)
  else if (n =? 102)%nat then Some (ascii_of_nat 12)
  else if (n =? 110)%nat then Some (ascii_of_nat 10)
  else if (n =? 114)%nat then Some (ascii_of_nat 13)
  else if (n =? 116)%nat then Some (ascii_of_nat 9)
  else None.

(** The characters of a string literal after its opening quote, up to and
    including the closing quote; returns the decoded string and the rest. *)
Fixpoint parse_string_chars (s : string) : option (string * string) :=
  match s with
  | EmptyString => None
  | String c r =>
      if Ascii.eqb c dquote then Some (EmptyString, r)
      else if Ascii.eqb c backslash then
        match r with
        | String e r' =>
            if Ascii.eqb e "u"%char then
              match r' with
              | String h1 (String h2 (String h3 (String h4 r''))) =>
                  match unicode_escape h1 h2 h3 h4 with
                  | Some d =>
                      match parse_string_chars r'' with
                      | Some (str, rest) => Some (String d str, rest)
                      | None => None
                      end
                  | None => None
                  end
              | _ => None
              end
            else
              match simple_escape e with
              | Some d =>
                  match parse_string_chars r' with
                  | Some (str, rest) => Some (String d str, rest)
                  | None => None
                  end
              | None => None
              end
        | EmptyString => None
        end
      else if (char_code c <? 32)%nat then None
      else
        match parse_string_chars r with
        | Some (str, rest) => Some (String c str, rest)
        | None => None
        end
  end.

Definition is_digit (c : ascii) : bool := in_range 48 57 c.

(** A maximal run of digits, accumulated in base ten. *)
Fixpoint parse_digits (acc : Z) (s : string) : Z * string :=
  match s with
  | String c r =>
      if is_digit c
      then parse_digits (acc * 10 + Z.of_nat (char_code c - 48)) r
      else (acc, s)
  | EmptyString => (acc, s)
  end.

Definition starts_fraction (s : string) : bool :=
  match s with
  | String c _ =>
      Ascii.eqb c "."%char || Ascii.eqb c "e"%char || Ascii.eqb c "E"%char
  | EmptyString => false
  end.

(** An integer without sign: [0], or a digit [1-9] followed by digits. *)
Definition parse_natural (s : string) : option (Z * string) :=
  match s with
  | String c r =>
      if Ascii.eqb c "0"%char then
        match r with
        | String d _ => if is_digit d || starts_fraction r then None else Some (0, r)
        | EmptyString => Some (0, r)
        end
      else if is_digit c then
        let '(n, rest) := parse_digits 0 s in
        if starts_fraction rest then None else Some (n, rest)
      else None
  | EmptyString => None
  end.

Definition parse_number (s : string) : option (value * string) :=
  match s with
  | String c r =>
      if Ascii.eqb c "-"%char then
        match parse_natural r with
        | Some (n, rest) => Some (VNum (- n), rest)
        | None => None
        end
      else
        match parse_natural s with
        | Some (n, rest) => Some (VNum n, rest)
        | None => None
        end
  | EmptyString => None
  end.

(** [s] starts with the literal [lit]; returns what follows it. *)
Fixpoint strip_prefix (lit s : string) : option string :=
  match lit, s with
  | EmptyString, _ => Some s
  | String a lit', String b s' =>
      if Ascii.eqb a b then strip_prefix lit' s' else None
  | String _ _, EmptyString => None
  end.

Section JSONParse.

(** The reader of one value, one nesting level down. *)
Variable parse_value : string -> option (value * string).

(** The elements of an array after the first one: [k] bounds the number
    of iterations. *)
Fixpoint parse_elements (k : nat) (acc : list value) (s : string)
    : option (value * string) :=
  match k with
  | O => None
  | S k =>
      match skip_ws s with
      | String c r =>
          if Ascii.eqb c "]"%char then Some (VArr (rev acc), r)
          else if Ascii.eqb c ","%char then
            match parse_value r with
            | Some (v, rest) => parse_elements k (v :: acc) rest
            | None => None
            end
          else None
      | EmptyString => None
      end
  end.

(** One member [ "key" : value ]. *)
Definition parse_member (s : string) : option (string * value * string) :=
  match skip_ws s with
  | String c r =>
      if Ascii.eqb c dquote then
        match parse_string_chars r with
        | Some (key, rest) =>
            match skip_ws rest with
            | String d rest' =>
                if Ascii.eqb d ":"%char then
                  match parse_value rest' with
                  | Some (v, rest'') => Some (key, v, rest'')
                  | None => None
                  end
                else None
            | EmptyString => None
            end
        | None => None
        end
      else None
  | EmptyString => None
  end.

(** The members of an object after the first one; each member is defined
    on the object under construction, so a repeated key keeps the last
    value. *)
Fixpoint parse_members (k : nat) (acc : props) (s : string)
    : option (value * string) :=
  match k with
  | O => None
  | S k =>
      match skip_ws s with
      | String c r =>
          if Ascii.eqb c "}"%char then Some (VObj acc, r)
          else if Ascii.eqb c ","%char then
            match parse_member r with
            | Some (key, v, rest) => parse_members k (obj_set key v acc) rest
            | None => None
            end
          else None
      | EmptyString => None
      end
  end.

End JSONParse.

Fixpoint parse_value (fuel : nat) (s : string) : option (value * string) :=
  match fuel with
  | O => None
  | S fuel =>
      match skip_ws s with
      | String c r =>
          if Ascii.eqb c "{"%char then
            match skip_ws r with
            | String d r' =>
                if Ascii.eqb d "}"%char then Some (VObj [], r')
                else
                  match parse_member (parse_value fuel) r with
                  | Some (key, v, rest) =>
                      parse_members (parse_value fuel) (String.length rest)
                        [(key, v)] rest
                  | None => None
                  end
            | EmptyString => None
            end
          else if Ascii.eqb c "["%char then
            match skip_ws r with
            | String d r' =>
                if Ascii.eqb d "]"%char then Some (VArr [], r')
                else
                  match parse_value fuel r with
                  | Some (v, rest) =>
                      parse_elements (parse_value fuel) (String.length rest)
                        [v] rest
                  | None => None
                  end
            | EmptyString => None
            end
          else if Ascii.eqb c dquote then
            match parse_string_chars r with
            | Some (str, rest) => Some (VStr str, rest)
            | None => None
            end
          else if Ascii.eqb c "t"%char then
            match strip_prefix "rue" r with
            | Some rest => Some (VBool true, rest)
            | None => None
            end
          else if Ascii.eqb c "f"%char then
            match strip_prefix "alse" r with
            | Some rest => Some (VBool false, rest)
            | None => None
            end
          else if Ascii.eqb c "n"%char then
            match strip_prefix "ull" r with
            | Some rest => Some (VNull, rest)
            | None => None
            end
          else parse_number (String c r)
      | EmptyString => None
      end
  end.

(** [JSON.parse(text)]: one value, then only whitespace. *)
Definition JSON_parse (text : string) : option value :=
  match parse_value (S (String.length text)) text with
  | Some (v, rest) =>
      match skip_ws rest with
      | EmptyString => Some v
      | _ => None
      end
  | None => None
  end.

(** ** change-detection.mjs *)

(** The functions of this module are embedded at the types their
    documentation gives: [current] is an array of batch results, [previous]
    an object from file paths to identifier strings. *)

(** One element of a batch result. [None] stands for [null] or a missing
    property. *)
Record BatchItemResult : Type := {
  filePath : option string;
  item_identifier : option string;
  status : string;
  error : option string;
  item_metadata : option value;
  item_short : option string
}.

(** A stored manifest: file path to identifier. *)
Definition Manifest := list (string * string).

Record ChangeReport : Type := {
  added : list string;
  modified : list string;
  unchanged : list string;
  removed : list string;
  errors : list (string * option string)
}.

(** ToBoolean of a string-or-nullish value. *)
Definition truthy_str (o : option string) : bool :=
  match o with
  | Some s => negb (String.eqb s "")
  | None => false
  end.

(** The own property [path] of the manifest. *)
Fixpoint manifest_get (path : string) (previous : Manifest) : option string :=
  match previous with
  | [] => None
  | (k, v) :: rest => if String.eqb k path then Some v else manifest_get path rest
  end.

Definition manifest_keys (previous : Manifest) : list string := map fst previous.

(** The names every ordinary object inherits from [Object.prototype]. *)
Definition object_prototype_names : list string :=
  ["constructor"; "__defineGetter__"; "__defineSetter__"; "hasOwnProperty";
   "__lookupGetter__"; "__lookupSetter__"; "isPrototypeOf";
   "propertyIsEnumerable"; "toString"; "valueOf"; "__proto__";
   "toLocaleString"].

(** What [previous[path]] evaluates to: an identifier of the manifest, a
    member inherited from [Object.prototype] (a function or an object), or
    [undefined]. *)
Inductive looked_up : Type :=
| Own (id : string)
| Inherited
| Missing.

(** [previous[path]] *)
Definition manifest_lookup (path : string) (previous : Manifest) : looked_up :=
  match manifest_get path previous with
  | Some id => Own id
  | None =>
      if existsb (String.eqb path) object_prototype_names then Inherited
      else Missing
  end.

(** ToBoolean of what was looked up. *)
Definition truthy_looked_up (l : looked_up) : bool :=
  match l with
  | Own id => negb (String.eqb id "")
  | Inherited => true
  | Missing => false
  end.

(** [identifier !== previousId]: a string or [null] against what was looked
    up. *)
Definition strict_neq (identifier : option string) (previousId : looked_up) : bool :=
  match identifier, previousId with
  | Some x, Own y => negb (String.eqb x y)
  | _, _ => true
  end.

(** The body of the loop over [current]. *)
Definition report_step (previous : Manifest)
    (acc : ChangeReport * gset string) (result : BatchItemResult)
    : ChangeReport * gset string :=
  let '(report, seenFiles) := acc in
  if negb (truthy_str (filePath result)) then acc
  else
    let path := default "" (filePath result) in
    let seenFiles := {[ path ]} ∪ seenFiles in
    if String.eqb (status result) "error" then
      ({| added := added report; modified := modified report;
          unchanged := unchanged report; removed := removed report;
          errors := errors report ++ [(path, error result)] |}, seenFiles)
    else
      let previousId := manifest_lookup path previous in
      if negb (truthy_looked_up previousId) then
        ({| added := added report ++ [path]; modified := modified report;
            unchanged := unchanged report; removed := removed report;
            errors := errors report |}, seenFiles)
      else if strict_neq (item_identifier result) previousId then
        ({| added := added report; modified := modified report ++ [path];
            unchanged := unchanged report; removed := removed report;
            errors := errors report |}, seenFiles)
      else
        ({| added := added report; modified := modified report;
            unchanged := unchanged report ++ [path]; removed := removed report;
            errors := errors report |}, seenFiles).

Definition empty_report : ChangeReport :=
  {| added := []; modified := []; unchanged := []; removed := []; errors := [] |}.

Definition generateChangeReport (current : list BatchItemResult)
    (previous : Manifest) : ChangeReport :=
  let '(report, seenFiles) :=
    fold_left (report_step previous) current (empty_report, ∅) in
  {| added := added report; modified := modified report;
     unchanged := unchanged report;
     removed := removed report
       ++ List.filter (fun filePath => negb (bool_decide (filePath ∈ seenFiles)))
                      (manifest_keys previous);
     errors := errors report |}.

Fixpoint manifest_set (path id : string) (manifest : Manifest) : Manifest :=
  match manifest with
  | [] => [(path, id)]
  | (k, w) :: rest =>
      if String.eqb k path then (k, id) :: rest
      else (k, w) :: manifest_set path id rest
  end.

(** [manifest[path] = id] *)
Definition manifest_assign (path id : string) (manifest : Manifest) : Manifest :=
  if String.eqb path "__proto__" then manifest else manifest_set path id manifest.

(** [createManifest] *)
Definition createManifest (results : list BatchItemResult) : Manifest :=
  fold_left
    (fun manifest result =>
       if String.eqb (status result) "success"
          && truthy_str (filePath result)
          && truthy_str (item_identifier result)
       then manifest_assign (default "" (filePath result))
              (default "" (item_identifier result)) manifest
       else manifest)
    results [].

(** The manifest as the JavaScript object it is. *)
Definition manifest_value (m : Manifest) : value :=
  VObj (map (fun kv => (fst kv, VStr (snd kv))) m).

(** [loadManifest]; the message of the SyntaxError, which depends on the
    engine, is left out of the message of the error thrown. *)
Definition loadManifest (json : string) : result value :=
  match JSON_parse json with
  | Some v => Ok v
  | None => Err (Error "Failed to parse manifest JSON")
  end.

Definition is_null (v : value) : bool :=
  match v with
  | VNull => true
  | _ => false
  end.

(** [saveManifest]; [JSON.stringify] of an object is never [undefined]. *)
Definition saveManifest (manifest : value) (pretty : bool) : result string :=
  if negb (String.eqb (typeof manifest) "object") || is_null manifest
  then Err (TypeError "manifest must be an object")
  else
    Ok (default ""
          (if pretty then JSON_stringify_pretty manifest
           else JSON_stringify manifest)).

(** ** batch.mjs *)

(** One element of [inputs]. *)
Record BatchInput : Type := {
  in_type : option string;
  in_owner : option string;
  in_repo : option string;
  in_filePath : option string;
  in_branch : option string;
  in_repoPath : option string
}.

Record BatchOptions : Type := {
  concurrency : Z;
  continueOnError : bool;
  progressCallback : bool;       (* whether a callback function was given *)
  identifierOptions : props
}.

Definition default_options : BatchOptions :=
  {| concurrency := 10; continueOnError := true; progressCallback := false;
     identifierOptions := [] |}.

(** The call into a metadata adapter that [processOne] awaits. *)
Inductive adapter_call : Type :=
| CallGitHub (owner repo filePath branch : string)
| CallLocal (repoPath filePath : string).

(** How a promise returned by [processOne] stands. *)
Inductive promise_state : Type :=
| Pending
| Fulfilled (r : BatchItemResult)
| Rejected (e : exn).

(** References held in the arrays of the orchestrator: the promise
    returned by the [id]-th call of [processOne], and the result object that
    call allocated. Strict equality of references is equality of these. *)
Inductive ref : Type :=
| RPromise (id : nat)
| RResult (id : nat).

Definition ref_eqb (a b : ref) : bool :=
  match a, b with
  | RPromise i, RPromise j => Nat.eqb i j
  | RResult i, RResult j => Nat.eqb i j
  | _, _ => false
  end.

(** [array.indexOf(x)], [None] for [-1]. *)
Fixpoint indexOf (x : ref) (array : list ref) : option nat :=
  match array with
  | [] => None
  | y :: rest =>
      if ref_eqb y x then Some O
      else match indexOf x rest with
           | Some n => Some (S n)
           | None => None
           end
  end.

(** [array.splice(index, 1)] *)
Definition splice1 (index : nat) (array : list ref) : list ref :=
  take index array ++ drop (S index) array.

(** Where the body of [generateBatchIdentifiers] stands. *)
Inductive pc : Type :=
| Loop (i : nat)                          (* at the loop test, with counter [i] *)
| AwaitRace (i : nat) (winner : option nat)
                                          (* in [await Promise.race(processing)] *)
| AwaitAll                                (* in [await Promise.allSettled(processing)] *)
| Done                                    (* returned [results] *)
| Failed (e : exn).                       (* rejected with [e] *)

Record state : Type := {
  st_pc : pc;
  processing : list ref;
  results : list BatchItemResult;
  promises : list promise_state;
  completed : nat;
  progress : list (nat * nat)
}.

(** The two things that happen on the event loop: the body of
    [generateBatchIdentifiers] resumes, or the adapter call of item [j]
    completes and the rest of [processOne] runs. *)
Inductive event : Type :=
| Tick
| Settle (j : nat).

Definition display (o : option string) : string :=
  match o with
  | Some s => s
  | None => "undefined"
  end.

Section Batch.

Variable toISOString : value -> option string.
Variable digest : string -> string -> string -> string.

(** The metadata adapters, as what they eventually return or throw. *)
Variable getGitHubMetadata : string -> string -> string -> string -> result value.
Variable getLocalMetadata : string -> string -> result value.

Variable inputs : list BatchInput.
Variable options : BatchOptions.

Definition total : nat := length inputs.

(** [processOne] up to its [await]: the checks of the input. *)
Definition validate_input (input : BatchInput) : result adapter_call :=
  if negb (truthy_str (in_type input))
     || negb (existsb (String.eqb (display (in_type input))) ["github"; "local"])
  then Err (TypeError ("Invalid input type: " ++ display (in_type input)
                       ++ ". Must be 'github' or 'local'"))
  else if String.eqb (display (in_type input)) "github" then
    let branch := default "main" (in_branch input) in
    if negb (truthy_str (in_owner input)) || negb (truthy_str (in_repo input))
       || negb (truthy_str (in_filePath input))
    then Err (TypeError "GitHub input requires: owner, repo, filePath")
    else Ok (CallGitHub (display (in_owner input)) (display (in_repo input))
                        (display (in_filePath input)) branch)
  else
    if negb (truthy_str (in_repoPath input)) || negb (truthy_str (in_filePath input))
    then Err (TypeError "Local input requires: repoPath, filePath")
    else Ok (CallLocal (display (in_repoPath input)) (display (in_filePath input))).

Definition run_adapter (call : adapter_call) : result value :=
  match call with
  | CallGitHub owner repo filePath branch =>
      getGitHubMetadata owner repo filePath branch
  | CallLocal repoPath filePath => getLocalMetadata repoPath filePath
  end.

(** The [catch] block: the result keeps [status: 'error']. *)
Definition on_error (input : BatchInput) (e : exn) : promise_state :=
  if negb (continueOnError options) then Rejected e
  else Fulfilled {| filePath := in_filePath input; item_identifier := None;
                    status := "error"; error := Some (exn_message e);
                    item_metadata := None; item_short := None |}.

(** [processOne] after its [await]. *)
Definition after_adapter (input : BatchInput) (fetched : result value)
    : promise_state :=
  match fetched with
  | Ok metadata =>
      match generateIdentifier toISOString digest metadata
              (identifierOptions options) with
      | Ok idResult =>
          Fulfilled {| filePath := in_filePath input;
                       item_identifier := Some (identifier idResult);
                       status := "success"; error := None;
                       item_metadata := Some metadata;
                       item_short := Some (short idResult) |}
      | Err e => on_error input e
      end
  | Err e => on_error input e
  end.

(** The pipeline of one item, start to end. *)
Definition pipeline (input : BatchInput) : result IdentifierResult :=
  call ← validate_input input;
  metadata ← run_adapter call;
  generateIdentifier toISOString digest metadata (identifierOptions options).

(** The [finally] block. *)
Definition finally_ (st : state) : state :=
  let completed := S (completed st) in
  {| st_pc := st_pc st; processing := processing st; results := results st;
     promises := promises st; completed := completed;
     progress := if progressCallback options
                 then progress st ++ [(completed, total)] else progress st |}.

Definition is_settled (p : promise_state) : bool :=
  match p with
  | Pending => false
  | _ => true
  end.

Definition promise_settled (st_promises : list promise_state) (r : ref) : bool :=
  match r with
  | RPromise id =>
      match st_promises !! id with
      | Some p => is_settled p
      | None => false
      end
  | RResult _ => false
  end.

(** The promise whose reaction runs first when [Promise.race] is called:
    the first already settled element, if there is one. *)
Definition first_settled (array : list ref) (st_promises : list promise_state)
    : option nat :=
  match List.find (promise_settled st_promises) array with
  | Some (RPromise id) => Some id
  | _ => None
  end.

(** [r.value || { status: 'error', error: r.reason?.message }] *)
Definition settled_value (st_promises : list promise_state) (r : ref)
    : BatchItemResult :=
  match r with
  | RPromise id =>
      match st_promises !! id with
      | Some (Fulfilled v) => v
      | Some (Rejected e) =>
          {| filePath := None; item_identifier := None; status := "error";
             error := Some (exn_message e); item_metadata := None;
             item_short := None |}
      | _ =>
          {| filePath := None; item_identifier := None; status := "error";
             error := None; item_metadata := None; item_short := None |}
      end
  | RResult _ =>
      {| filePath := None; item_identifier := None; status := "error";
         error := None; item_metadata := None; item_short := None |}
  end.

Definition set_pc (p : pc) (st : state) : state :=
  {| st_pc := p; processing := processing st; results := results st;
     promises := promises st; completed := completed st;
     progress := progress st |}.

(** The body of [generateBatchIdentifiers] runs until its next [await]. *)
Definition tick (st : state) : option state :=
  match st_pc st with
  | Loop i =>
      match inputs !! i with
      | None => Some (set_pc AwaitAll st)
      | Some input =>
          (* const promise = processOne(inputs[i]); processing.push(promise) *)
          let st :=
            match validate_input input with
            | Ok _ =>
                {| st_pc := st_pc st; processing := processing st ++ [RPromise i];
                   results := results st; promises := promises st ++ [Pending];
                   completed := completed st; progress := progress st |}
            | Err e =>
                finally_
                  {| st_pc := st_pc st; processing := processing st ++ [RPromise i];
                     results := results st;
                     promises := promises st ++ [on_error input e];
                     completed := completed st; progress := progress st |}
            end in
          if Z.of_nat (length (processing st)) >=? concurrency options
          then Some (set_pc (AwaitRace i (first_settled (processing st) (promises st))) st)
          else Some (set_pc (Loop (S i)) st)
      end
  | AwaitRace i (Some w) =>
      match promises st !! w with
      | Some (Fulfilled settled) =>
          (* results.push(settled); index = processing.indexOf(settled) *)
          let index := indexOf (RResult w) (processing st) in
          Some {| st_pc := Loop (S i);
                  processing := match index with
                                | Some n => splice1 n (processing st)
                                | None => processing st
                                end;
                  results := results st ++ [settled];
                  promises := promises st; completed := completed st;
                  progress := progress st |}
      | Some (Rejected e) => Some (set_pc (Failed e) st)
      | _ => None
      end
  | AwaitRace _ None => None
  | AwaitAll =>
      if forallb (promise_settled (promises st)) (processing st) then
        Some {| st_pc := Done; processing := processing st;
                results := results st
                  ++ map (settled_value (promises st)) (processing st);
                promises := promises st; completed := completed st;
                progress := progress st |}
      else None
  | Done | Failed _ => None
  end.

(** The adapter call of item [j] completes. *)
Definition settle (j : nat) (st : state) : option state :=
  match promises st !! j, inputs !! j with
  | Some Pending, Some input =>
      match validate_input input with
      | Ok call =>
          let outcome := after_adapter input (run_adapter call) in
          let st :=
            finally_
              {| st_pc := st_pc st; processing := processing st;
                 results := results st;
                 promises := <[ j := outcome ]> (promises st);
                 completed := completed st; progress := progress st |} in
          match st_pc st with
          | AwaitRace i None =>
              if existsb (ref_eqb (RPromise j)) (processing st)
              then Some (set_pc (AwaitRace i (Some j)) st)
              else Some st
          | _ => Some st
          end
      | Err _ => None
      end
  | _, _ => None
  end.

Definition step (st : state) (ev : event) : option state :=
  match ev with
  | Tick => tick st
  | Settle j => settle j st
  end.

(** A run: the events in the order they happen. *)
Fixpoint exec (evs : list event) (st : state) : option state :=
  match evs with
  | [] => Some st
  | ev :: rest =>
      match step st ev with
      | Some st' => exec rest st'
      | None => None
      end
  end.

(** The state on entry; an empty [inputs] returns at once. *)
Definition init : state :=
  {| st_pc := match inputs with [] => Done | _ => Loop 0 end;
     processing := []; results := []; promises := [];
     completed := 0; progress := [] |}.

(** The number of item computations in flight. *)
Definition active (st : state) : nat :=
  length (List.filter (fun p => negb (is_settled p)) (promises st)).

(** What the promise of [processOne(input)] settles to. *)
Definition outcome (input : BatchInput) : promise_state :=
  match validate_input input with
  | Ok call =>
      after_adapter input (run_adapter call)
  | Err e => on_error input e
  end.

(** The result object of an item when errors are caught. *)
Definition item_result (input : BatchInput) : BatchItemResult :=
  match pipeline input with
  | Ok idResult =>
      {| filePath := in_filePath input;
         item_identifier := Some (identifier idResult);
         status := "success"; error := None;
         item_metadata :=
           match validate_input input with
           | Ok call =>
               match run_adapter call with
               | Ok metadata => Some metadata
               | Err _ => None
               end
           | Err _ => None
           end;
         item_short := Some (short idResult) |}
  | Err e =>
      {| filePath := in_filePath input; item_identifier := None;
         status := "error"; error := Some (exn_message e);
         item_metadata := None; item_short := None |}
  end.

(** The result object of the item at position [j]. *)
Definition result_at (j : nat) : BatchItemResult :=
  match inputs !! j with
  | Some input => item_result input
  | None =>
      {| filePath := None; item_identifier := None; status := "error";
         error := None; item_metadata := None; item_short := None |}
  end.

(** The number of loop iterations among the first [i] that wait on
    [Promise.race]: those that find [processing.length >= concurrency]. *)
Definition races (i : nat) : nat :=
  length (List.filter (fun j => Z.of_nat (S j) >=? concurrency options) (seq 0 i)).

(** What holds of every state a run goes through when errors are caught:
    [processing] still holds the promise of every item started, every
    settled promise carries the result of its item, and [results] holds one
    result per completed race, then one per input. *)
Definition batch_inv (st : state) : Prop :=
  processing st = map RPromise (seq 0 (length (promises st)))
  /\ (forall j p, promises st !! j = Some p ->
        p = Pending \/ p = Fulfilled (result_at j))
  /\ (length (promises st) <= length inputs)%nat
  /\ exists winners : list nat,
       match st_pc st with
       | Loop i =>
           length (promises st) = i
           /\ results st = map result_at winners
           /\ length winners = races i
       | AwaitRace i w =>
           length (promises st) = S i
           /\ Z.of_nat (S i) >= concurrency options
           /\ results st = map result_at winners
           /\ length winners = races i
           /\ match w with
              | Some j => promises st !! j = Some (Fulfilled (result_at j))
              | None => True
              end
       | AwaitAll =>
           length (promises st) = length inputs
           /\ results st = map result_at winners
           /\ length winners = races (length inputs)
       | Done =>
           results st = map result_at (winners ++ seq 0 (length inputs))
           /\ length winners = races (length inputs)
       | Failed _ => False
       end.

End Batch.

(** ** Auxiliary definitions: sample data and the notions the properties
    are stated with *)

Definition ok_item (path id : string) : BatchItemResult :=
  {| filePath := Some path; item_identifier := Some id; status := "success";
     error := None; item_metadata := None; item_short := None |}.

Definition error_item (path msg : string) : BatchItemResult :=
  {| filePath := Some path; item_identifier := None; status := "error";
     error := Some msg; item_metadata := None; item_short := None |}.

(** The length of the digest string per algorithm and encoding. *)
Definition digest_size (algorithm encoding : string) : nat :=
  if String.eqb algorithm "sha256"
  then (if String.eqb encoding "hex" then 64 else 44)
  else (if String.eqb encoding "hex" then 40 else 28).

(** The options of [generateIdentifier] after defaults and validation. *)
Definition option_algorithm (options : props) : option string :=
  includes ["sha256"; "sha1"]
    (with_default (obj_get "algorithm" options) (VStr "sha256")).

Definition option_encoding (options : props) : option string :=
  includes ["hex"; "base64"]
    (with_default (obj_get "encoding" options) (VStr "hex")).

(** A stand-in for the digest in examples: the data cut or padded to the
    digest length. *)
Fixpoint fill (n : nat) (data : string) : string :=
  match n with
  | O => EmptyString
  | S n =>
      match data with
      | String c r => String c (fill n r)
      | EmptyString => String "0" (fill n EmptyString)
      end
  end.

Definition sample_digest (algorithm encoding data : string) : string :=
  fill (digest_size algorithm encoding) data.

(** A stand-in for the date conversion in examples: strings are taken to be
    in ISO form already. *)
Definition sample_toISOString (v : value) : option string :=
  match v with
  | VStr s => Some s
  | _ => None
  end.

Definition get_props (v : value) : props :=
  match v with
  | VObj o => o
  | _ => []
  end.

Definition sample_hash : string := "0123456789abcdef0123456789ABCDEF01234567".

Definition sample_meta (path : string) : value :=
  VObj [ ("source", VStr "local-git"); ("owner", VStr "octo"); ("repo", VStr "demo");
         ("branch", VStr "main"); ("commitHash", VStr sample_hash);
         ("filePath", VStr path); ("fileHash", VStr sample_hash);
         ("lastModified", VStr "2025-10-10T00:00:00.000Z") ].

Definition falsy_field (o : props) (field : string) : bool :=
  negb (truthy (obj_get field o)).

(** The record built by [normalizeMetadata] before nullish values are
    removed. *)
Definition built_record (rawMeta : value) (commitHash fileHash : value)
    (normalizedPath : string) (lastModified : value) : props :=
  let normalized :=
    [ ("branch", get_prop "branch" rawMeta);
      ("commitHash", commitHash);
      ("fileHash", fileHash);
      ("filePath", VStr normalizedPath);
      ("lastModified", lastModified);
      ("owner", get_prop "owner" rawMeta);
      ("repo", get_prop "repo" rawMeta);
      ("source", get_prop "source" rawMeta) ] in
  let normalized :=
    if truthy (get_prop "htmlUrl" rawMeta)
    then obj_assign "htmlUrl" (get_prop "htmlUrl" rawMeta) normalized
    else normalized in
  if truthy (get_prop "repoPath" rawMeta)
  then obj_assign "repoPath" (get_prop "repoPath" rawMeta) normalized
  else normalized.

Definition sample_normalized (path : string) : value :=
  VObj [ ("branch", VStr "main");
         ("commitHash", VStr "0123456789abcdef0123456789abcdef01234567");
         ("fileHash", VStr "0123456789abcdef0123456789abcdef01234567");
         ("filePath", VStr path);
         ("lastModified", VStr "2025-10-10T00:00:00.000Z");
         ("owner", VStr "octo"); ("repo", VStr "demo");
         ("source", VStr "local-git") ].

(** The properties of a normalized record, in the order they are created. *)
Definition field_order : list string :=
  ["branch"; "commitHash"; "fileHash"; "filePath"; "lastModified"; "owner";
   "repo"; "source"; "htmlUrl"; "repoPath"].

Definition is_undefined (v : value) : bool :=
  match v with
  | VUndefined => true
  | _ => false
  end.

(** The property list with the given lookups, in creation order. *)
Definition shape (lookup : string -> value) : props :=
  List.filter (fun kv => negb (is_undefined (snd kv)))
    (map (fun k => (k, lookup k)) field_order).

(** The same record as [sample_meta "src/a.js"], as a Windows checkout
    would report it: other key order, backslash separator, upper-case
    hashes, and one extra property. *)
Definition sample_meta_windows : value :=
  VObj [ ("lastModified", VStr "2025-10-10T00:00:00.000Z");
         ("fileHash", VStr "0123456789ABCDEF0123456789ABCDEF01234567");
         ("filePath", VStr (String "s" (String "r" (String "c" (String backslash "a.js")))));
         ("commitHash", VStr "0123456789ABCDEF0123456789ABCDEF01234567");
         ("extra", VNum 1);
         ("branch", VStr "main"); ("repo", VStr "demo"); ("owner", VStr "octo");
         ("source", VStr "local-git") ].

(** A raw record without the optional properties. *)
Definition sample_meta_plain (path : string) : value :=
  VObj [ ("source", VStr "local-git"); ("owner", VStr "octo"); ("repo", VStr "demo");
         ("branch", VStr "main"); ("commitHash", VStr sample_hash);
         ("filePath", VStr path); ("fileHash", VStr sample_hash) ].

Definition sample_normalized_plain (path : string) : value :=
  VObj [ ("branch", VStr "main");
         ("commitHash", VStr "0123456789abcdef0123456789abcdef01234567");
         ("fileHash", VStr "0123456789abcdef0123456789abcdef01234567");
         ("filePath", VStr path);
         ("owner", VStr "octo"); ("repo", VStr "demo");
         ("source", VStr "local-git") ].

(** ** Equality up to key order *)

(** Two values are equal up to the insertion order of object keys. With
    [through_arrays] the relation also looks inside arrays, element by
    element; without it two arrays are related only when they are equal. *)
Inductive key_equiv (through_arrays : bool) : value -> value -> Prop :=
| key_equiv_refl (v : value) : key_equiv through_arrays v v
| key_equiv_arr (l1 l2 : list value) :
    through_arrays = true ->
    Forall2 (key_equiv through_arrays) l1 l2 ->
    key_equiv through_arrays (VArr l1) (VArr l2)
| key_equiv_obj (o1 o2 : props) :
    List.NoDup (obj_keys o1) ->
    List.NoDup (obj_keys o2) ->
    (forall k, In k (obj_keys o1) <-> In k (obj_keys o2)) ->
    (forall k, key_equiv through_arrays (obj_get k o1) (obj_get k o2)) ->
    key_equiv through_arrays (VObj o1) (VObj o2).

(** What [sortObjectKeys] stores for a property value. *)
Definition sort_child (v : value) : value :=
  if is_plain_object v then sortObjectKeys v else v.

(** The same record written with its keys in two orders, once with the
    nested object directly under a key and once inside an array. *)
Definition nested_xy : value := VObj [("x", VNum 2); ("y", VNum 1)].
Definition nested_yx : value := VObj [("y", VNum 1); ("x", VNum 2)].

Definition record_ab : value := VObj [("a", nested_xy); ("b", VArr [VNum 1; VNum 2])].
Definition record_ba : value := VObj [("b", VArr [VNum 1; VNum 2]); ("a", nested_yx)].

Definition record_in_array_xy : value := VObj [("a", VArr [nested_xy])].
Definition record_in_array_yx : value := VObj [("a", VArr [nested_yx])].

(** ** The four categories of a change report *)

Inductive category : Type := Added | Modified | Unchanged | Errored.

Definition category_eqb (a b : category) : bool :=
  match a, b with
  | Added, Added | Modified, Modified | Unchanged, Unchanged
  | Errored, Errored => true
  | _, _ => false
  end.

Definition valid_path (r : BatchItemResult) : bool := truthy_str (filePath r).

Definition path_of (r : BatchItemResult) : string := default "" (filePath r).

(** The branch of the loop body a result takes. *)
Definition code_category (previous : Manifest) (r : BatchItemResult) : category :=
  if String.eqb (status r) "error" then Errored
  else if negb (truthy_looked_up (manifest_lookup (path_of r) previous)) then Added
  else if strict_neq (item_identifier r) (manifest_lookup (path_of r) previous)
       then Modified
       else Unchanged.

(** The category of a result as the specification words it: error items are
    errors; a path absent from the manifest is added; a path present with
    another identifier is modified, with the same identifier unchanged. *)
Definition spec_category (previous : Manifest) (r : BatchItemResult) : category :=
  if String.eqb (status r) "error" then Errored
  else
    match manifest_get (path_of r) previous with
    | None => Added
    | Some previousId =>
        match item_identifier r with
        | Some id => if String.eqb id previousId then Unchanged else Modified
        | None => Modified
        end
    end.

(** The results of [current] that the loop puts in category [c]. *)
Definition select (previous : Manifest) (c : category)
    (current : list BatchItemResult) : list BatchItemResult :=
  List.filter
    (fun r => valid_path r && category_eqb (code_category previous r) c) current.

(** The paths listed by a report under a category. *)
Definition listed (report : ChangeReport) (c : category) : list string :=
  match c with
  | Added => added report
  | Modified => modified report
  | Unchanged => unchanged report
  | Errored => map fst (errors report)
  end.

(** A manifest as it is stored: every identifier is a non-empty string. *)
Definition valid_manifest (previous : Manifest) : Prop :=
  forall k v, In (k, v) previous -> v <> "".

(** No current path absent from the manifest is the name of a member that
    the manifest inherits. *)
Definition no_inherited_path (current : list BatchItemResult)
    (previous : Manifest) : Prop :=
  forall r, In r current -> manifest_get (path_of r) previous = None ->
            ~ In (path_of r) object_prototype_names.

(** One path reported twice, once failing and once succeeding. *)
Definition twice_current : list BatchItemResult :=
  [error_item "a" "boom"; ok_item "a" "sha256:1"].

(** ** The text of a stored manifest *)

(** One member of the serialized manifest, [w] being what follows the
    colon. *)
Definition member_text (w : string) (kv : string * string) : string :=
  QuoteJSONString (fst kv) ++ ":" ++ w ++ QuoteJSONString (snd kv).

(** The members after the first one, each with its separating comma, then
    the closing brace and [rest]. *)
Definition members_tail (w1 w2 w3 : string) (ms : Manifest) (rest : string)
    : string :=
  fold_right (fun kv acc => "," ++ w1 ++ member_text w2 kv ++ acc)
             (w3 ++ "}" ++ rest) ms.

(** The properties that reading the members defines, one after the other. *)
Definition define_members (ms : Manifest) (acc : props) : props :=
  fold_left (fun o kv => obj_set (fst kv) (VStr (snd kv)) o) ms acc.


(** Local inputs and an adapter that answers all of them. *)
Definition local_input (path : string) : BatchInput :=
  {| in_type := Some "local"; in_owner := None; in_repo := None;
     in_filePath := Some path; in_branch := None; in_repoPath := Some "/repo" |}.

Definition sample_getLocalMetadata (repoPath filePath : string) : result value :=
  Ok (sample_meta filePath).

Definition sample_getGitHubMetadata (owner repo filePath branch : string)
    : result value :=
  Err (Error "GitHub API request failed").

Definition options_with_concurrency (c : Z) : BatchOptions :=
  {| concurrency := c; continueOnError := true; progressCallback := false;
     identifierOptions := [] |}.

(** A run of the sample batch. *)
Definition sample_run (c : Z) (paths : list string) (evs : list event)
    : option state :=
  exec sample_toISOString sample_digest sample_getGitHubMetadata
    sample_getLocalMetadata (map local_input paths) (options_with_concurrency c)
    evs (init (map local_input paths)).

(** The state in which the sample batch of one item returns, under
    [concurrency: 1]. *)
Definition sample_final_state : state :=
  default (init []) (sample_run 1 ["a.js"] [Tick; Settle 0; Tick; Tick; Tick]).

(** ** Notions for the properties of paths and hashes *)

Fixpoint contains_char (c : ascii) (s : string) : bool :=
  match s with
  | EmptyString => false
  | String d r => Ascii.eqb d c || contains_char c r
  end.

(** Two slashes in a row somewhere in [s]. *)
Fixpoint has_double_slash (s : string) : bool :=
  match s with
  | EmptyString => false
  | String c r =>
      match r with
      | String d _ => (Ascii.eqb c slash && Ascii.eqb d slash) || has_double_slash r
      | EmptyString => false
      end
  end.

Fixpoint last_char (s : string) : option ascii :=
  match s with
  | EmptyString => None
  | String c r =>
      match last_char r with
      | Some d => Some d
      | None => Some c
      end
  end.

Definition ends_with_slash (s : string) : bool :=
  match last_char s with
  | Some c => Ascii.eqb c slash
  | None => false
  end.

Definition starts_with_dot_slash (s : string) : bool :=
  match s with
  | String c (String d _) => Ascii.eqb c "."%char && Ascii.eqb d slash
  | _ => false
  end.

(** A path in POSIX form: no backslash, no run of slashes, no trailing
    slash. *)
Definition clean_path (p : string) : bool :=
  negb (contains_char backslash p) && negb (has_double_slash p)
  && negb (ends_with_slash p).

(** ** Notions for the properties of the normalizer *)

Definition drop_nullish (v : value) : value :=
  if is_nullish v then VUndefined else v.

(** The value of the property [k] of a normalized record in terms of the
    raw record, [VUndefined] standing for no such property. *)
Definition expected_field (toISOString : value -> option string)
    (rawMeta : value) (k : string) : value :=
  if String.eqb k "commitHash" || String.eqb k "fileHash" then
    match get_prop k rawMeta with
    | VStr s => VStr (toLowerCase s)
    | _ => VUndefined
    end
  else if String.eqb k "filePath" then
    match normalizeFilePath (get_prop k rawMeta) with
    | Ok p => VStr p
    | Err _ => VUndefined
    end
  else if String.eqb k "lastModified" then
    match normalize_timestamp toISOString (get_prop k rawMeta) with
    | Ok v => drop_nullish v
    | Err _ => VUndefined
    end
  else if String.eqb k "htmlUrl" || String.eqb k "repoPath" then
    if truthy (get_prop k rawMeta) then get_prop k rawMeta else VUndefined
  else if existsb (String.eqb k) ["branch"; "owner"; "repo"; "source"] then
    get_prop k rawMeta
  else VUndefined.

(** Two hashes that differ at most in the case of their letters. *)
Definition same_hash (x y : value) : Prop :=
  exists s t, x = VStr s /\ y = VStr t /\ toLowerCase s = toLowerCase t.

(** Two paths that differ at most in the separator used. *)
Definition same_path (x y : value) : Prop :=
  exists s t, x = VStr s /\ y = VStr t
    /\ backslashes_to_slashes s = backslashes_to_slashes t.

(** Two raw records that agree on the ten properties [normalizeMetadata]
    reads, up to the case of the hashes and the separator of the path. *)
Definition same_record (a b : value) : Prop :=
  same_hash (get_prop "commitHash" a) (get_prop "commitHash" b)
  /\ same_hash (get_prop "fileHash" a) (get_prop "fileHash" b)
  /\ same_path (get_prop "filePath" a) (get_prop "filePath" b)
  /\ forall k,
       In k ["branch"; "lastModified"; "owner"; "repo"; "source"; "htmlUrl";
             "repoPath"] ->
       get_prop k a = get_prop k b.

(** The date conversion leaves its own results alone. *)
Definition stable_timestamp (toISOString : value -> option string)
    (v : value) : Prop :=
  forall s, v = VStr s -> s <> "" -> toISOString (VStr s) = Some s.

Definition all_lower (s : string) : bool := String.eqb (toLowerCase s) s.

(** Strictly before, in the order [Array.prototype.sort] uses. *)
Definition key_lt (s t : string) : Prop := key_le s t /\ s <> t.

(** A record whose property values are all strings. *)
Definition string_record (fields : list (string * string)) : value :=
  VObj (map (fun kv => (fst kv, VStr (snd kv))) fields).

Definition string_of (v : value) : string :=
  match v with
  | VStr s => s
  | _ => ""
  end.

(** ** change-detection.mjs: comparing two records or two identifiers *)

(** [a === b]. Two objects or arrays are equal when they are the same
    object, which a [value] does not tell: [None] then. *)
Definition strict_equal (a b : value) : option bool :=
  match a, b with
  | VUndefined, VUndefined => Some true
  | VNull, VNull => Some true
  | VBool x, VBool y => Some (Bool.eqb x y)
  | VNum x, VNum y => Some (x =? y)
  | VStr x, VStr y => Some (String.eqb x y)
  | VArr _, VArr _ | VArr _, VObj _ | VObj _, VArr _ | VObj _, VObj _ => None
  | _, _ => Some false
  end.

(** [a !== b] *)
Definition strict_not_equal (a b : value) : option bool :=
  option_map negb (strict_equal a b).

Definition hasFileChanged (meta1 meta2 : value) : option bool :=
  if negb (truthy meta1) || negb (truthy meta2) then Some true
  else if truthy (get_prop "fileHash" meta1) && truthy (get_prop "fileHash" meta2)
  then strict_not_equal (get_prop "fileHash" meta1) (get_prop "fileHash" meta2)
  else if truthy (get_prop "commitHash" meta1)
          && truthy (get_prop "commitHash" meta2)
  then strict_not_equal (get_prop "commitHash" meta1) (get_prop "commitHash" meta2)
  else Some true.

Definition compareIdentifier (current stored : value) : option bool :=
  if negb (truthy current) || negb (truthy stored) then Some false
  else strict_equal current stored.

(** A string or [null] as a value. *)
Definition nullable (o : option string) : value :=
  match o with
  | Some s => VStr s
  | None => VNull
  end.

(** ** Notions for the properties of manifests and reports *)

(** The results [createManifest] stores. *)
Definition is_stored (r : BatchItemResult) : bool :=
  String.eqb (status r) "success" && truthy_str (filePath r)
  && truthy_str (item_identifier r).

(** The identifier of the last stored result with the path [p]. *)
Definition last_stored (p : string) (results : list BatchItemResult)
    : option string :=
  match List.find (fun r => is_stored r && String.eqb (path_of r) p)
                  (rev results) with
  | Some r => item_identifier r
  | None => None
  end.

Definition is_error (r : BatchItemResult) : bool := String.eqb (status r) "error".

(** ** utils/url.mjs *)

(** What [parseGitHubUrl] returns; [url_host] is the property [host], which
    the results for GitHub remotes do not have. *)
Record ParsedUrl : Type := {
  url_owner : string;
  url_repo : string;
  url_host : option string
}.

(** [([^/]+)\/] at the start of [s]: the class takes every character up to
    the first slash. Returns what it took and what follows the slash. *)
Fixpoint split_at_slash (s : string) : option (string * string) :=
  match s with
  | EmptyString => None
  | String c r =>
      if Ascii.eqb c slash then Some (EmptyString, r)
      else match split_at_slash r with
           | Some (owner, rest) => Some (String c owner, rest)
           | None => None
           end
  end.

(** The characters [.] does not match. *)
Definition is_line_terminator (c : ascii) : bool :=
  (char_code c =? 10)%nat || (char_code c =? 13)%nat.

Definition no_line_terminator (s : string) : bool :=
  all_chars (fun c => negb (is_line_terminator c)) s.

(** [(.+?)(\.git)?$] on a non-empty [s] without line terminators: the
    lazy group stops at the first position that leaves ".git" or nothing. *)
Fixpoint lazy_repo (s : string) : string :=
  match s with
  | EmptyString => EmptyString
  | String c r =>
      if String.eqb r ".git" then String c EmptyString
      else String c (lazy_repo r)
  end.

(** [([^/]+)\/(.+?)(\.git)?$]: the two groups. *)
Definition match_groups (s : string) : option (string * string) :=
  match split_at_slash s with
  | Some (owner, rest) =>
      if is_empty owner || is_empty rest || negb (no_line_terminator rest)
      then None
      else Some (owner, lazy_repo rest)
  | None => None
  end.

(** [url.match(/^<prefix>([^/]+)\/(.+?)(\.git)?$/)] *)
Definition match_remote (prefix url : string) : option (string * string) :=
  match strip_prefix prefix url with
  | Some rest => match_groups rest
  | None => None
  end.

Definition parsed (host : option string) (groups : string * string) : ParsedUrl :=
  {| url_owner := fst groups; url_repo := snd groups; url_host := host |}.

(** [parseGitHubUrl]; [None] is [null]. *)
Definition parseGitHubUrl (remoteUrl : value) : option ParsedUrl :=
  match remoteUrl with
  | VStr url =>
      if is_empty url then None
      else
        match match_remote "git@github.com:" url with
        | Some sshMatch => Some (parsed None sshMatch)
        | None =>
        match match_remote "https://github.com/" url with
        | Some httpsMatch => Some (parsed None httpsMatch)
        | None =>
        match match_remote "git@gitlab.com:" url with
        | Some gitlabSshMatch => Some (parsed (Some "gitlab") gitlabSshMatch)
        | None =>
        match match_remote "https://gitlab.com/" url with
        | Some gitlabHttpsMatch => Some (parsed (Some "gitlab") gitlabHttpsMatch)
        | None =>
        match match_remote "git@bitbucket.org:" url with
        | Some bitbucketSshMatch => Some (parsed (Some "bitbucket") bitbucketSshMatch)
        | None =>
        match match_remote "https://bitbucket.org/" url with
        | Some bitbucketHttpsMatch =>
            Some (parsed (Some "bitbucket") bitbucketHttpsMatch)
        | None => None
        end end end end end end
  | _ => None
  end.

(** [s.replace(/^\/+/, '')] *)
Fixpoint strip_leading_slashes (s : string) : string :=
  match s with
  | EmptyString => EmptyString
  | String c r => if Ascii.eqb c slash then strip_leading_slashes r else s
  end.

(** [buildGitHubUrl]; only strings have the method [replace]. *)
Definition buildGitHubUrl (owner repo commitHash filePath : value) : result string :=
  if negb (truthy owner) || negb (truthy repo) || negb (truthy commitHash)
     || negb (truthy filePath)
  then Err (TypeError
              "All parameters (owner, repo, commitHash, filePath) are required")
  else
    match filePath with
    | VStr path =>
        let normalizedPath := strip_leading_slashes path in
        Ok ("https://github.com/" ++ ToString owner ++ "/" ++ ToString repo
            ++ "/blob/" ++ ToString commitHash ++ "/" ++ normalizedPath)
    | _ => Err (TypeError "filePath.replace is not a function")
    end.

(** The remotes [parseGitHubUrl] knows: what the URL starts with, and the
    [host] property of the result. *)
Definition remote_prefixes : list (string * option string) :=
  [ ("git@github.com:", None); ("https://github.com/", None);
    ("git@gitlab.com:", Some "gitlab"); ("https://gitlab.com/", Some "gitlab");
    ("git@bitbucket.org:", Some "bitbucket");
    ("https://bitbucket.org/", Some "bitbucket") ].

(** ** Notions for the properties of the orchestrator *)

(** [r.value || { status: 'error', error: r.reason?.message }] for a
    promise in the state [p]. *)
Definition fallback (p : promise_state) : BatchItemResult :=
  match p with
  | Fulfilled v => v
  | Rejected e =>
      {| filePath := None; item_identifier := None; status := "error";
         error := Some (exn_message e); item_metadata := None;
         item_short := None |}
  | Pending =>
      {| filePath := None; item_identifier := None; status := "error";
         error := None; item_metadata := None; item_short := None |}
  end.

(** How far the body of [generateBatchIdentifiers] is from its end, for
    [n] inputs. *)
Definition pc_rank (n : nat) (p : pc) : nat :=
  match p with
  | Loop i => 3 * (n - i) + 2
  | AwaitRace i _ => 3 * (n - S i) + 3
  | AwaitAll => 1
  | Done | Failed _ => 0
  end.

(** The progress log after [done] calls of the callback for [n] inputs. *)
Definition progress_log (n done : nat) : list (nat * nat) :=
  map (fun k => (k, n)) (seq 1 done).

Section Scheduling.

Variable toISOString : value -> option string.
Variable digest : string -> string -> string -> string.
Variable getGitHubMetadata : string -> string -> string -> string -> result value.
Variable getLocalMetadata : string -> string -> result value.
Variable inputs : list BatchInput.
Variable options : BatchOptions.

(** What is left to happen in a run: the steps of the body and the item
    computations in flight. *)
Definition rank (st : state) : nat :=
  pc_rank (length inputs) (st_pc st) + active st.

(** What holds of every state a run goes through, whether errors are caught
    or not. *)
Definition sched_inv (st : state) : Prop :=
  processing st = map RPromise (seq 0 (length (promises st)))
  /\ (forall j p, promises st !! j = Some p ->
        exists input, inputs !! j = Some input
          /\ match p with
             | Pending => exists call, validate_input input = Ok call
             | _ => p = outcome toISOString digest getGitHubMetadata
                          getLocalMetadata options input
             end)
  /\ (completed st + active st = length (promises st))%nat
  /\ progress st
     = (if progressCallback options
        then progress_log (length inputs) (completed st) else [])
  /\ match st_pc st with
     | Loop i => length (promises st) = i
     | AwaitRace i w =>
         length (promises st) = S i
         /\ Z.of_nat (S i) >= concurrency options
         /\ match w with
            | Some j => exists p, promises st !! j = Some p /\ is_settled p = true
            | None => forall p, In p (promises st) -> p = Pending
            end
     | AwaitAll => length (promises st) = length inputs
     | Done => length (promises st) = length inputs /\ active st = O
     | Failed e =>
         exists input,
           In input inputs
           /\ outcome toISOString digest getGitHubMetadata getLocalMetadata
                options input = Rejected e
     end
  /\ (Z.of_nat (length inputs) < concurrency options ->
      match st_pc st with
      | Loop _ | AwaitAll => results st = []
      | Done =>
          results st
          = map (fun input =>
                   fallback (outcome toISOString digest getGitHubMetadata
                               getLocalMetadata options input)) inputs
      | AwaitRace _ _ | Failed _ => False
      end).

End Scheduling.

(** Whether a run has come to its end. *)
Definition is_final (p : pc) : bool :=
  match p with
  | Done | Failed _ => true
  | _ => false
  end.

(** Sample data for the orchestrator when errors are not caught: an input
    without [type], a GitHub input (the sample adapter fails on it), and
    options with [continueOnError: false] and a progress callback. *)
Definition untyped_input : BatchInput :=
  {| in_type := None; in_owner := None; in_repo := None;
     in_filePath := Some "a.js"; in_branch := None; in_repoPath := None |}.

Definition github_input (path : string) : BatchInput :=
  {| in_type := Some "github"; in_owner := Some "octo"; in_repo := Some "demo";
     in_filePath := Some path; in_branch := None; in_repoPath := None |}.

Definition strict_options (c : Z) : BatchOptions :=
  {| concurrency := c; continueOnError := false; progressCallback := true;
     identifierOptions := [] |}.

(** A run of a batch under [strict_options]. *)
Definition strict_run (c : Z) (inputs : list BatchInput) (evs : list event)
    : state :=
  default (init inputs)
    (exec sample_toISOString sample_digest sample_getGitHubMetadata
       sample_getLocalMetadata inputs (strict_options c) evs (init inputs)).

(** ** Notions for the canonical form *)

(** A key written with digits only. Every array index is such a key, and
    the engine enumerates the array indices of an object first, in numeric
    order, whatever the order they were created in: objects with such keys
    are outside what the property lists model. *)
Definition is_index_key (k : string) : bool :=
  negb (is_empty k) && all_chars is_digit k.

Fixpoint distinct (keys : list string) : bool :=
  match keys with
  | [] => true
  | k :: rest => negb (existsb (String.eqb k) rest) && distinct rest
  end.

Definition plain_key (k : string) : bool :=
  negb (is_index_key k) && negb (String.eqb k "__proto__").

(** The keys of the value, and of every object nested in it under a key,
    are pairwise distinct and are neither index keys nor ["__proto__"].
    Arrays are not looked into. *)
Fixpoint plain_keys (v : value) : bool :=
  match v with
  | VObj o =>
      distinct (obj_keys o) && forallb plain_key (obj_keys o)
      && (fix go (o : props) : bool :=
            match o with
            | [] => true
            | (_, w) :: o' => plain_keys w && go o'
            end) o
  | _ => true
  end.

(** The keys of the value, and of every object nested in it under a key,
    are in strictly increasing order: each key is strictly before every
    later one. Arrays are not looked into. *)
Inductive keys_sorted : value -> Prop :=
| keys_sorted_obj (o : props) :
    StronglySorted key_lt (obj_keys o) ->
    (forall k w, In (k, w) o -> keys_sorted w) ->
    keys_sorted (VObj o)
| keys_sorted_other (v : value) :
    is_plain_object v = false -> keys_sorted v.

Definition no_space (s : string) : bool := negb (contains_char " "%char s).

(** No key and no string of the value holds a space. *)
Fixpoint space_free (v : value) : bool :=
  match v with
  | VStr s => no_space s
  | VArr l =>
      (fix go (l : list value) : bool :=
         match l with
         | [] => true
         | x :: l' => space_free x && go l'
         end) l
  | VObj o =>
      (fix go (o : props) : bool :=
         match o with
         | [] => true
         | (k, w) :: o' => no_space k && space_free w && go o'
         end) o
  | _ => true
  end.

(** No space, tab, line feed or carriage return. *)
Definition no_whitespace (s : string) : bool :=
  all_chars (fun c => negb (is_ws c)) s.

(** ** batch.mjs: every way a call of [generateBatchIdentifiers] rejects

    The orchestrator above takes an array of objects and a progress
    callback that returns. Here the argument may be something else than an
    array, an element may be [null] or [undefined], and the callback may
    throw. The options are an object, and the record [result], whose literal
    reads [input.filePath], is the only thing [processOne] does before its
    [try]. *)

(** An element of [inputs] as [processOne] reads it. A primitive other than
    [null] and [undefined] has no property and stands as an object without
    properties. *)
Inductive element : Type :=
| ENull
| EUndefined
| EObject (input : BatchInput).

(** [input.filePath] in the literal of [result], before the [try]: the
    TypeError of the engine on [null] and [undefined] (in the words of
    V8). *)
Definition read_filePath (el : element) : result BatchInput :=
  match el with
  | ENull =>
      Err (TypeError "Cannot read properties of null (reading 'filePath')")
  | EUndefined =>
      Err (TypeError "Cannot read properties of undefined (reading 'filePath')")
  | EObject input => Ok input
  end.

Section BatchCall.

Variable toISOString : value -> option string.
Variable digest : string -> string -> string -> string.
Variable getGitHubMetadata : string -> string -> string -> string -> result value.
Variable getLocalMetadata : string -> string -> result value.

(** The first argument: [None] when it is not an array. *)
Variable argument : option (list element).
Variable options : BatchOptions.

(** What the call [progressCallback(done, total)] throws, when it throws. *)
Variable throws : nat -> nat -> option exn.

Definition elements : list element := default [] argument.

(** The state on entry, after the guard [Array.isArray(inputs)]. *)
Definition start : state :=
  {| st_pc := match argument with
              | None => Failed (TypeError "inputs must be an array")
              | Some [] => Done
              | Some (_ :: _) => Loop 0
              end;
     processing := []; results := []; promises := [];
     completed := 0; progress := [] |}.

(** The [finally] block, for the promise: an exception of the callback
    takes the place of what [processOne] was about to return or throw. *)
Definition finally_promise (done : nat) (p : promise_state) : promise_state :=
  if progressCallback options then
    match throws done (length elements) with
    | Some e => Rejected e
    | None => p
    end
  else p.

(** The [finally] block, for the counter and the calls made. *)
Definition finally_state (st : state) : state :=
  let completed := S (completed st) in
  {| st_pc := st_pc st; processing := processing st; results := results st;
     promises := promises st; completed := completed;
     progress := if progressCallback options
                 then progress st ++ [(completed, length elements)]
                 else progress st |}.

Definition push (i : nat) (p : promise_state) (st : state) : state :=
  {| st_pc := st_pc st; processing := processing st ++ [RPromise i];
     results := results st; promises := promises st ++ [p];
     completed := completed st; progress := progress st |}.

(** The body of [generateBatchIdentifiers] runs until its next [await].
    Past the call of [processOne] the steps are those of [tick], which do
    not read the inputs. *)
Definition tick_call (st : state) : option state :=
  match st_pc st with
  | Loop i =>
      match elements !! i with
      | None => Some (set_pc AwaitAll st)
      | Some el =>
          let st :=
            match read_filePath el with
            | Err e => push i (Rejected e) st
            | Ok input =>
                match validate_input input with
                | Ok _ => push i Pending st
                | Err e =>
                    finally_state
                      (push i (finally_promise (S (completed st))
                                 (on_error options input e)) st)
                end
            end in
          if Z.of_nat (length (processing st)) >=? concurrency options
          then Some (set_pc (AwaitRace i (first_settled (processing st) (promises st))) st)
          else Some (set_pc (Loop (S i)) st)
      end
  | _ => tick [] options st
  end.

(** The adapter call of item [j] completes. *)
Definition settle_call (j : nat) (st : state) : option state :=
  match promises st !! j, elements !! j with
  | Some Pending, Some (EObject input) =>
      match validate_input input with
      | Ok call =>
          let outcome :=
            finally_promise (S (completed st))
              (after_adapter toISOString digest options input
                 (run_adapter getGitHubMetadata getLocalMetadata call)) in
          let st :=
            finally_state
              {| st_pc := st_pc st; processing := processing st;
                 results := results st;
                 promises := <[ j := outcome ]> (promises st);
                 completed := completed st; progress := progress st |} in
          match st_pc st with
          | AwaitRace i None =>
              if existsb (ref_eqb (RPromise j)) (processing st)
              then Some (set_pc (AwaitRace i (Some j)) st)
              else Some st
          | _ => Some st
          end
      | Err _ => None
      end
  | _, _ => None
  end.

Definition step_call (st : state) (ev : event) : option state :=
  match ev with
  | Tick => tick_call st
  | Settle j => settle_call j st
  end.

Fixpoint exec_call (evs : list event) (st : state) : option state :=
  match evs with
  | [] => Some st
  | ev :: rest =>
      match step_call st ev with
      | Some st' => exec_call rest st'
      | None => None
      end
  end.

(** Why a call rejects with [e]: the argument is not an array; an element
    is [null] or [undefined]; the progress callback throws [e]; or errors
    are not caught and the pipeline of an element throws [e]. *)
Definition rejection_cause (e : exn) : Prop :=
  (argument = None /\ e = TypeError "inputs must be an array")
  \/ (exists el, In el elements /\ read_filePath el = Err e)
  \/ (progressCallback options = true
      /\ exists done, throws done (length elements) = Some e)
  \/ (continueOnError options = false
      /\ exists input,
           In (EObject input) elements
           /\ pipeline toISOString digest getGitHubMetadata getLocalMetadata
                options input = Err e).

(** Every rejected promise of [processOne], and the rejection of the call,
    has one of these causes. *)
Definition causes_inv (st : state) : Prop :=
  (forall j e, promises st !! j = Some (Rejected e) -> rejection_cause e)
  /\ (forall e, st_pc st = Failed e -> rejection_cause e).

End BatchCall.

(** Sample data: a callback that throws at its first call, and one that
    returns. *)
Definition throwing_callback (done total : nat) : option exn :=
  if (done =? 1)%nat then Some (Error "callback failed") else None.

Definition returning_callback (done total : nat) : option exn := None.

Definition options_with_callback : BatchOptions :=
  {| concurrency := 1; continueOnError := true; progressCallback := true;
     identifierOptions := [] |}.

Definition call_run (argument : option (list element))
    (throws : nat -> nat -> option exn) (evs : list event) : state :=
  default (start argument)
    (exec_call sample_toISOString sample_digest sample_getGitHubMetadata
       sample_getLocalMetadata argument options_with_callback throws evs
       (start argument)).

(** * Properties *)

(** ** Sanity checks of the embedding *)

Example normalizeFilePath_windows :
  normalizeFilePath (VStr ("src" ++ String backslash "lib//a.js/")) = Ok "src/lib/a.js".
Proof. reflexivity. Qed.

Example ToString_sample :
  ToString (VArr [VNum (-12); VNull; VStr "a"; VObj []]) = "-12,,a,[object Object]".
Proof. vm_compute. reflexivity. Qed.

Example stringify_compact :
  JSON_stringify (VObj [("b", VNum 1); ("a", VArr [VStr "x"; VUndefined]); ("u", VUndefined)])
  = Some ("{" ++ String dquote "b" ++ String dquote ":1,"
          ++ String dquote "a" ++ String dquote ":["
          ++ String dquote "x" ++ String dquote ",null]}").
Proof. vm_compute. reflexivity. Qed.

Example canonicalize_nested :
  canonicalizeMetadata
    (VObj [("b", VNum 1); ("a", VObj [("z", VNull); ("y", VBool true)])])
  = Some ("{" ++ String dquote "a" ++ String dquote ":{"
          ++ String dquote "y" ++ String dquote ":true,"
          ++ String dquote "z" ++ String dquote ":null},"
          ++ String dquote "b" ++ String dquote ":1}").
Proof. vm_compute. reflexivity. Qed.

Example JSON_parse_sample :
  JSON_parse ("  { " ++ String dquote "a" ++ String dquote ": [1, -20, true, null],"
              ++ String dquote "b\n" ++ String dquote " : {} } ")
  = Some (VObj [("a", VArr [VNum 1; VNum (-20); VBool true; VNull]);
                (String "b" (String newline ""), VObj [])]).
Proof. vm_compute. reflexivity. Qed.

(** The "diff partition" example of the specification. *)
Example generateChangeReport_sample :
  generateChangeReport
    [ok_item "a" "sha256:1"; ok_item "c" "sha256:3"]
    [("a", "sha256:1"); ("b", "sha256:2")]
  = {| added := ["c"]; modified := []; unchanged := ["a"]; removed := ["b"];
       errors := [] |}.
Proof. vm_compute. reflexivity. Qed.

Example manifest_round_trip_sample :
  (s ← saveManifest (manifest_value [("src/a.js", "sha256:1"); ("b", "sha1:2")]) true;
   loadManifest s)
  = Ok (manifest_value [("src/a.js", "sha256:1"); ("b", "sha1:2")]).
Proof. vm_compute. reflexivity. Qed.

Example normalizeMetadata_sample :
  normalizeMetadata sample_toISOString (sample_meta "./src//a.js")
  = Ok (VObj [ ("branch", VStr "main");
               ("commitHash", VStr "0123456789abcdef0123456789abcdef01234567");
               ("fileHash", VStr "0123456789abcdef0123456789abcdef01234567");
               ("filePath", VStr "src/a.js");
               ("lastModified", VStr "2025-10-10T00:00:00.000Z");
               ("owner", VStr "octo"); ("repo", VStr "demo");
               ("source", VStr "local-git") ]).
Proof. vm_compute. reflexivity. Qed.

(** ** Required fields (normalizer.mjs, lines 14-20) *)

(** The loop reports the first falsy field of its list, and passes when
    there is none. *)
Lemma check_required_find (o : props) (fields : list string) :
  check_required (VObj o) fields =
    match List.find (falsy_field o) fields with
    | Some named => Err (Error ("Missing required field: " ++ named))
    | None => Ok tt
    end.
Proof.
  induction fields as [|f fields IH]; simpl; [reflexivity|].
  unfold falsy_field at 1. destruct (truthy (obj_get f o)); simpl; auto.
Qed.

Lemma obj_get_delete_ne (key k : string) (o : props) :
  k <> key -> obj_get k (obj_delete key o) = obj_get k o.
Proof.
  intros Hne. induction o as [|[k' v] o IH]; simpl; [reflexivity|].
  destruct (String.eqb_spec k' key) as [->|Hk]; simpl.
  - destruct (String.eqb_spec key k) as [->|]; [congruence|assumption].
  - destruct (String.eqb k' k); [reflexivity|assumption].
Qed.

Lemma obj_get_delete_eq (key : string) (o : props) :
  obj_get key (obj_delete key o) = VUndefined.
Proof.
  induction o as [|[k' v] o IH]; simpl; [reflexivity|].
  destruct (String.eqb_spec k' key) as [->|Hk]; simpl; [assumption|].
  destruct (String.eqb_spec k' key); [congruence|assumption].
Qed.

Lemma obj_get_set_ne (key k : string) (v : value) (o : props) :
  k <> key -> obj_get k (obj_set key v o) = obj_get k o.
Proof.
  intros Hne. induction o as [|[k' w] o IH]; simpl.
  - destruct (String.eqb_spec key k); [congruence|reflexivity].
  - destruct (String.eqb_spec k' key) as [->|Hk]; simpl.
    + destruct (String.eqb_spec key k); [congruence|reflexivity].
    + destruct (String.eqb k' k); [reflexivity|assumption].
Qed.

Lemma obj_get_set_eq (key : string) (v : value) (o : props) :
  obj_get key (obj_set key v o) = v.
Proof.
  induction o as [|[k' w] o IH]; simpl.
  - rewrite String.eqb_refl. reflexivity.
  - destruct (String.eqb_spec k' key) as [->|Hk]; simpl.
    + rewrite String.eqb_refl. reflexivity.
    + destruct (String.eqb_spec k' key); [congruence|assumption].
Qed.

(** Deleting a falsy property changes the truthiness of no property. *)
Lemma falsy_field_delete (o : props) (field k : string) :
  truthy (obj_get field o) = false ->
  falsy_field (obj_delete field o) k = falsy_field o k.
Proof.
  intros Hf. unfold falsy_field.
  destruct (String.eqb_spec k field) as [->|Hne].
  - rewrite obj_get_delete_eq, Hf. reflexivity.
  - rewrite obj_get_delete_ne by assumption. reflexivity.
Qed.

Lemma find_ext_in {A} (f g : A -> bool) (l : list A) :
  (forall x, f x = g x) -> List.find f l = List.find g l.
Proof.
  intros H. induction l as [|x l IH]; simpl; [reflexivity|].
  rewrite H, IH. reflexivity.
Qed.

Section RequiredFields.

Variable toISOString : value -> option string.

(** C9. A required field whose value is falsy (the empty string, null, 0,
    false, or undefined because it is missing) makes [normalizeMetadata]
    throw "Missing required field: <name>" and return no record. The field
    named is the first falsy one in the order of [requiredFields]; it is
    the offending field itself when every other required field is truthy.
    The outcome is the one obtained when the property is deleted. *)
Theorem normalizeMetadata_falsy_required_field (o : props) (field : string) :
  In field requiredFields ->
  truthy (obj_get field o) = false ->
  exists named,
    List.find (falsy_field o) requiredFields = Some named
    /\ In named requiredFields
    /\ truthy (obj_get named o) = false
    /\ normalizeMetadata toISOString (VObj o)
       = Err (Error ("Missing required field: " ++ named))
    /\ normalizeMetadata toISOString (VObj (obj_delete field o))
       = normalizeMetadata toISOString (VObj o)
    /\ ((forall f, In f requiredFields -> f <> field ->
           truthy (obj_get f o) = true) -> named = field).
Proof.
  intros Hin Hfalsy.
  destruct (List.find (falsy_field o) requiredFields) as [named|] eqn:Hfind.
  - exists named.
    pose proof (find_some _ _ Hfind) as [Hnamed Hnf].
    unfold falsy_field in Hnf. apply negb_true_iff in Hnf.
    assert (Hnorm : normalizeMetadata toISOString (VObj o)
                    = Err (Error ("Missing required field: " ++ named))).
    { unfold normalizeMetadata. simpl truthy. simpl typeof. simpl orb.
      cbv iota. rewrite check_required_find, Hfind. reflexivity. }
    repeat split; auto.
    + rewrite Hnorm. unfold normalizeMetadata. simpl truthy. simpl typeof.
      simpl orb. cbv iota. rewrite check_required_find.
      rewrite (find_ext_in _ (falsy_field o)), Hfind; [reflexivity|].
      intros k. apply falsy_field_delete. assumption.
    + intros Hothers. destruct (String.eqb_spec named field) as [|Hne]; [assumption|].
      rewrite (Hothers named Hnamed Hne) in Hnf. discriminate.
  - exfalso. eapply find_none in Hfind; [|exact Hin].
    unfold falsy_field in Hfind. rewrite Hfalsy in Hfind. discriminate.
Qed.

End RequiredFields.

(** An empty [owner], every other field in place: the error names [owner]. *)
Lemma normalizeMetadata_falsy_required_field_witness :
  exists named,
    List.find
      (falsy_field (obj_set "owner" (VStr "") (get_props (sample_meta "a.js"))))
      requiredFields = Some named
    /\ In named requiredFields
    /\ truthy (obj_get named (obj_set "owner" (VStr "") (get_props (sample_meta "a.js")))) = false
    /\ normalizeMetadata sample_toISOString
         (VObj (obj_set "owner" (VStr "") (get_props (sample_meta "a.js"))))
       = Err (Error ("Missing required field: " ++ named))
    /\ normalizeMetadata sample_toISOString
         (VObj (obj_delete "owner"
                  (obj_set "owner" (VStr "") (get_props (sample_meta "a.js")))))
       = normalizeMetadata sample_toISOString
           (VObj (obj_set "owner" (VStr "") (get_props (sample_meta "a.js"))))
    /\ ((forall f, In f requiredFields -> f <> "owner" ->
           truthy (obj_get f (obj_set "owner" (VStr "") (get_props (sample_meta "a.js")))) = true)
        -> named = "owner").
Proof.
  apply (normalizeMetadata_falsy_required_field sample_toISOString
           (obj_set "owner" (VStr "") (get_props (sample_meta "a.js"))) "owner").
  - simpl. tauto.
  - reflexivity.
Defined.

(** ** Strings: [substring] *)

Lemma String_substring_0_length (n : nat) (s : string) :
  (n <= String.length s)%nat -> String.length (String.substring 0 n s) = n.
Proof.
  revert s. induction n as [|n IH]; intros s Hle.
  - destruct s; reflexivity.
  - destruct s as [|c s]; simpl in *; [lia|]. rewrite IH; [reflexivity|lia].
Qed.

Lemma String_substring_0_prefix (n : nat) (s : string) :
  String.prefix (String.substring 0 n s) s = true.
Proof.
  revert s. induction n as [|n IH]; intros s.
  - destruct s; reflexivity.
  - destruct s as [|c s]; simpl; [reflexivity|].
    destruct (ascii_dec c c); [apply IH|congruence].
Qed.

Lemma substring_from_0 (s : string) (e : Z) :
  substring s 0 e = String.substring 0 (clamp_index (String.length s) e) s.
Proof.
  unfold substring.
  assert (H0 : clamp_index (String.length s) 0 = O).
  { unfold clamp_index. rewrite Z.max_id.
    rewrite Z.min_l by lia. reflexivity. }
  rewrite H0. rewrite Nat.min_0_l, Nat.max_0_l, Nat.sub_0_r. reflexivity.
Qed.

Lemma substring_nonpos (s : string) (e : Z) :
  e <= 0 -> substring s 0 e = "".
Proof.
  intros He. rewrite substring_from_0.
  replace (clamp_index (String.length s) e) with O.
  - destruct s; reflexivity.
  - unfold clamp_index. rewrite Z.max_r by lia. rewrite Z.min_l by lia. reflexivity.
Qed.

Lemma substring_length (s : string) (e : Z) :
  0 <= e <= Z.of_nat (String.length s) ->
  String.length (substring s 0 e) = Z.to_nat e.
Proof.
  intros He. rewrite substring_from_0.
  replace (clamp_index (String.length s) e) with (Z.to_nat e).
  - apply String_substring_0_length. lia.
  - unfold clamp_index. rewrite Z.max_l by lia. rewrite Z.min_l by lia. reflexivity.
Qed.

Lemma substring_prefix (s : string) (e : Z) :
  String.prefix (substring s 0 e) s = true.
Proof. rewrite substring_from_0. apply String_substring_0_prefix. Qed.

(** ** Shape of a normalized record *)

Lemma bind_ok {A B} (r : result A) (k : A -> result B) (b : B) :
  (r ≫= k) = Ok b -> exists a, r = Ok a /\ k a = Ok b.
Proof. destruct r as [a|e]; simpl; [eauto|discriminate]. Qed.

Section NormalizedShape.

Variable toISOString : value -> option string.

Lemma normalizeMetadata_ok_inv (rawMeta normalized : value) :
  normalizeMetadata toISOString rawMeta = Ok normalized ->
  exists normalizedPath lastModified commitHash fileHash,
    check_required rawMeta requiredFields = Ok tt
    /\ isValidGitHash (get_prop "commitHash" rawMeta) = true
    /\ isValidGitHash (get_prop "fileHash" rawMeta) = true
    /\ normalizeFilePath (get_prop "filePath" rawMeta) = Ok normalizedPath
    /\ normalize_timestamp toISOString (get_prop "lastModified" rawMeta)
       = Ok lastModified
    /\ call_toLowerCase (get_prop "commitHash" rawMeta) = Ok commitHash
    /\ call_toLowerCase (get_prop "fileHash" rawMeta) = Ok fileHash
    /\ normalized
       = VObj (remove_nullish
                 (built_record rawMeta commitHash fileHash normalizedPath
                    lastModified)).
Proof.
  unfold normalizeMetadata. intros H.
  destruct (negb (truthy rawMeta) || negb (String.eqb (typeof rawMeta) "object"));
    [discriminate|].
  apply bind_ok in H as ([] & Hreq & H).
  apply bind_ok in H as ([] & Hc & H).
  apply bind_ok in H as ([] & Hf & H).
  apply bind_ok in H as (normalizedPath & Hp & H).
  apply bind_ok in H as (lastModified & Hl & H).
  apply bind_ok in H as (commitHash & Hcl & H).
  apply bind_ok in H as (fileHash & Hfl & H).
  exists normalizedPath, lastModified, commitHash, fileHash.
  unfold validateGitHash in Hc, Hf.
  destruct (isValidGitHash (get_prop "commitHash" rawMeta)); [|discriminate].
  destruct (isValidGitHash (get_prop "fileHash" rawMeta)); [|discriminate].
  repeat split; auto. inversion H. reflexivity.
Qed.

Lemma normalizeMetadata_object (rawMeta normalized : value) :
  normalizeMetadata toISOString rawMeta = Ok normalized ->
  exists o, normalized = VObj o.
Proof.
  intros H. apply normalizeMetadata_ok_inv in H
    as (p & l & c & f & _ & _ & _ & _ & _ & _ & _ & ->).
  eauto.
Qed.

End NormalizedShape.

Lemma canonicalizeMetadata_object (o : props) :
  exists canonical, canonicalizeMetadata (VObj o) = Some canonical.
Proof. unfold canonicalizeMetadata, JSON_stringify. simpl. eauto. Qed.

(** ** Identifier generation (identifier.mjs) *)

Lemma includes_In (candidates : list string) (v : value) (s : string) :
  includes candidates v = Some s -> v = VStr s /\ In s candidates.
Proof.
  destruct v; simpl; try discriminate.
  destruct (existsb (String.eqb s0) candidates) eqn:He; [|discriminate].
  intros [= ->]. split; [reflexivity|].
  apply existsb_exists in He as (x & Hx & Heq).
  apply String.eqb_eq in Heq. subst. assumption.
Qed.

Lemma digest_size_ge_8 (alg enc : string) :
  In alg ["sha256"; "sha1"] -> In enc ["hex"; "base64"] ->
  (8 <= digest_size alg enc)%nat.
Proof.
  simpl. intros [<-|[<-|[]]] [<-|[<-|[]]]; vm_compute; lia.
Qed.

Lemma fill_length (n : nat) (data : string) : String.length (fill n data) = n.
Proof.
  revert data. induction n as [|n IH]; intros data; [reflexivity|].
  destruct data; simpl; rewrite IH; reflexivity.
Qed.

Lemma sample_digest_length (alg enc data : string) :
  In alg ["sha256"; "sha1"] -> In enc ["hex"; "base64"] ->
  String.length (sample_digest alg enc data) = digest_size alg enc.
Proof. intros _ _. apply fill_length. Qed.

Section Identifier.

Variable toISOString : value -> option string.
Variable digest : string -> string -> string -> string.

(** The digest strings of the two algorithms in the two encodings have a
    fixed length: 64 and 44 characters for SHA-256, 40 and 28 for SHA-1. *)
Hypothesis digest_length : forall alg enc data,
  In alg ["sha256"; "sha1"] -> In enc ["hex"; "base64"] ->
  String.length (digest alg enc data) = digest_size alg enc.

(** With valid options and valid metadata, [generateIdentifier] returns the
    record computed from the digest of the canonical string. *)
Lemma generateIdentifier_ok (meta normalized : value) (options : props)
    (alg enc canonical : string) :
  option_algorithm options = Some alg ->
  option_encoding options = Some enc ->
  normalizeMetadata toISOString meta = Ok normalized ->
  canonicalizeMetadata normalized = Some canonical ->
  generateIdentifier toISOString digest meta options
  = let hash := digest alg enc canonical in
    let truncate := with_default (obj_get "truncate" options) (VBool false) in
    Ok {| identifier :=
            if truthy truncate && String.eqb (typeof truncate) "number"
            then alg ++ ":" ++ substring hash 0 (number_of truncate)
            else alg ++ ":" ++ hash;
          short := substring hash 0 8;
          algorithm := alg;
          metadata :=
            if truthy (with_default (obj_get "includeMetadata" options) (VBool false))
            then Some normalized else None |}.
Proof.
  unfold option_algorithm, option_encoding, generateIdentifier.
  intros -> -> Hn Hc. rewrite Hn. simpl. rewrite Hc. reflexivity.
Qed.

Lemma short_length (alg enc canonical : string) :
  In alg ["sha256"; "sha1"] -> In enc ["hex"; "base64"] ->
  String.length (substring (digest alg enc canonical) 0 8) = 8%nat.
Proof.
  intros Ha He. rewrite substring_length; [reflexivity|].
  rewrite (digest_length _ _ _ Ha He).
  pose proof (digest_size_ge_8 _ _ Ha He). lia.
Qed.

(** C10. With valid metadata and otherwise valid options, a negative
    [truncate] does not make [generateIdentifier] throw: the identifier is
    the algorithm name followed by a colon and nothing else, and [short] is
    the first 8 characters of the full digest. *)
Theorem generateIdentifier_negative_truncate (meta normalized : value)
    (options : props) (alg enc : string) (n : Z) :
  option_algorithm options = Some alg ->
  option_encoding options = Some enc ->
  normalizeMetadata toISOString meta = Ok normalized ->
  obj_get "truncate" options = VNum n ->
  n < 0 ->
  exists r canonical,
    generateIdentifier toISOString digest meta options = Ok r
    /\ canonicalizeMetadata normalized = Some canonical
    /\ identifier r = alg ++ ":"
    /\ short r = substring (digest alg enc canonical) 0 8
    /\ String.length (short r) = 8%nat.
Proof.
  intros Ha He Hn Ht Hneg.
  destruct (normalizeMetadata_object _ _ _ Hn) as [o ->].
  destruct (canonicalizeMetadata_object o) as [canonical Hc].
  rewrite (generateIdentifier_ok _ _ _ _ _ _ Ha He Hn Hc).
  apply includes_In in Ha as [_ Ha]. apply includes_In in He as [_ He].
  eexists _, canonical. split; [reflexivity|]. split; [assumption|].
  simpl. rewrite Ht. simpl.
  destruct (Z.eqb_spec n 0) as [|_]; [lia|]. simpl.
  rewrite substring_nonpos by lia.
  repeat split; auto using short_length.
Qed.

(** C5. With valid metadata and [truncate: 8], the digest part of the
    identifier has length 8; [short] has length 8 and is cut from the full
    digest, whatever [truncate] is; both are prefixes of the full digest. *)
Theorem generateIdentifier_truncate_8 (meta normalized : value)
    (options : props) (alg enc : string) :
  option_algorithm options = Some alg ->
  option_encoding options = Some enc ->
  normalizeMetadata toISOString meta = Ok normalized ->
  obj_get "truncate" options = VNum 8 ->
  exists r canonical part,
    generateIdentifier toISOString digest meta options = Ok r
    /\ canonicalizeMetadata normalized = Some canonical
    /\ identifier r = alg ++ ":" ++ part
    /\ String.length part = 8%nat
    /\ String.prefix part (digest alg enc canonical) = true
    /\ String.length (short r) = 8%nat
    /\ String.prefix (short r) (digest alg enc canonical) = true
    /\ (forall truncate r',
          generateIdentifier toISOString digest meta
            (obj_set "truncate" truncate options) = Ok r' ->
          short r' = substring (digest alg enc canonical) 0 8).
Proof.
  intros Ha He Hn Ht.
  destruct (normalizeMetadata_object _ _ _ Hn) as [o ->].
  destruct (canonicalizeMetadata_object o) as [canonical Hc].
  rewrite (generateIdentifier_ok _ _ _ _ _ _ Ha He Hn Hc).
  pose proof Ha as Ha'. pose proof He as He'.
  apply includes_In in Ha' as [_ Ha']. apply includes_In in He' as [_ He'].
  eexists _, canonical, (substring (digest alg enc canonical) 0 8).
  split; [reflexivity|]. split; [assumption|].
  simpl. rewrite Ht. simpl.
  repeat split; auto using short_length, substring_prefix.
  intros truncate r' Hr'.
  assert (Ha2 : option_algorithm (obj_set "truncate" truncate options) = Some alg).
  { unfold option_algorithm in *. rewrite obj_get_set_ne by discriminate. exact Ha. }
  assert (He2 : option_encoding (obj_set "truncate" truncate options) = Some enc).
  { unfold option_encoding in *. rewrite obj_get_set_ne by discriminate. exact He. }
  rewrite (generateIdentifier_ok _ _ _ _ _ _ Ha2 He2 Hn Hc) in Hr'.
  simpl in Hr'. injection Hr' as <-. reflexivity.
Qed.

End Identifier.

Lemma generateIdentifier_negative_truncate_witness :
  exists r canonical,
    generateIdentifier sample_toISOString sample_digest (sample_meta "a.js")
      [("truncate", VNum (-1))] = Ok r
    /\ canonicalizeMetadata (sample_normalized "a.js") = Some canonical
    /\ identifier r = "sha256" ++ ":"
    /\ short r = substring (sample_digest "sha256" "hex" canonical) 0 8
    /\ String.length (short r) = 8%nat.
Proof.
  apply (generateIdentifier_negative_truncate sample_toISOString sample_digest
           sample_digest_length (sample_meta "a.js") (sample_normalized "a.js")
           [("truncate", VNum (-1))] "sha256" "hex" (-1)).
  - reflexivity.
  - reflexivity.
  - vm_compute. reflexivity.
  - reflexivity.
  - lia.
Defined.

Lemma generateIdentifier_truncate_8_witness :
  exists r canonical part,
    generateIdentifier sample_toISOString sample_digest (sample_meta "a.js")
      [("encoding", VStr "base64"); ("truncate", VNum 8)] = Ok r
    /\ canonicalizeMetadata (sample_normalized "a.js") = Some canonical
    /\ identifier r = "sha256" ++ ":" ++ part
    /\ String.length part = 8%nat
    /\ String.prefix part (sample_digest "sha256" "base64" canonical) = true
    /\ String.length (short r) = 8%nat
    /\ String.prefix (short r) (sample_digest "sha256" "base64" canonical) = true
    /\ (forall truncate r',
          generateIdentifier sample_toISOString sample_digest (sample_meta "a.js")
            (obj_set "truncate" truncate
               [("encoding", VStr "base64"); ("truncate", VNum 8)]) = Ok r' ->
          short r' = substring (sample_digest "sha256" "base64" canonical) 0 8).
Proof.
  apply (generateIdentifier_truncate_8 sample_toISOString sample_digest
           sample_digest_length (sample_meta "a.js") (sample_normalized "a.js")
           [("encoding", VStr "base64"); ("truncate", VNum 8)] "sha256" "base64").
  - reflexivity.
  - reflexivity.
  - vm_compute. reflexivity.
  - reflexivity.
Defined.

(** ** Removal of nullish properties *)

Lemma filter_absent_key (k : string) (b : string * value -> bool) (o : props) :
  ~ In k (obj_keys o) ->
  List.filter (fun kv => negb (String.eqb (fst kv) k && b kv)) o = o.
Proof.
  induction o as [|[k' v] o IH]; simpl; intros Hnot; [reflexivity|].
  destruct (String.eqb_spec k' k) as [->|Hne]; [tauto|]. simpl.
  rewrite IH; [reflexivity|tauto].
Qed.

Lemma delete_absent_key (k : string) (o : props) :
  ~ In k (obj_keys o) -> obj_delete k o = o.
Proof.
  induction o as [|[k' v] o IH]; simpl; intros Hnot; [reflexivity|].
  unfold obj_delete. simpl.
  destruct (String.eqb_spec k' k) as [->|Hne]; [tauto|]. simpl.
  f_equal. apply IH. tauto.
Qed.

(** One round of the deletion loop is a filter. *)
Lemma delete_if_nullish_filter (k : string) (o : props) :
  List.NoDup (obj_keys o) ->
  (if is_nullish (obj_get k o) then obj_delete k o else o)
  = List.filter (fun kv => negb (String.eqb (fst kv) k && is_nullish (snd kv))) o.
Proof.
  induction o as [|[k' v] o IH]; intros Hnd.
  - simpl. destruct (is_nullish VUndefined); reflexivity.
  - inversion Hnd as [|? ? Hnot Hnd']; subst.
    specialize (IH Hnd'). unfold obj_delete in *. simpl.
    destruct (String.eqb_spec k' k) as [->|Hne]; simpl.
    + rewrite filter_absent_key by assumption.
      destruct (is_nullish v); simpl; [|reflexivity].
      apply (delete_absent_key k o). assumption.
    + rewrite <- IH.
      destruct (is_nullish (obj_get k o)); reflexivity.
Qed.

Lemma filter_keys_sublist (f : string * value -> bool) (o : props) (k : string) :
  In k (obj_keys (List.filter f o)) -> In k (obj_keys o).
Proof.
  induction o as [|kv o IH]; simpl; [tauto|].
  destruct (f kv); simpl; tauto.
Qed.

Lemma filter_keys_NoDup (f : string * value -> bool) (o : props) :
  List.NoDup (obj_keys o) -> List.NoDup (obj_keys (List.filter f o)).
Proof.
  induction o as [|kv o IH]; simpl; intros Hnd; [constructor|].
  inversion Hnd; subst. destruct (f kv); simpl; auto.
  constructor; auto. intros Hin. apply filter_keys_sublist in Hin. tauto.
Qed.

Lemma filter_filter {A} (f g : A -> bool) (l : list A) :
  List.filter f (List.filter g l) = List.filter (fun x => g x && f x) l.
Proof.
  induction l as [|x l IH]; simpl; [reflexivity|].
  destruct (g x); simpl; [destruct (f x)|]; rewrite IH; reflexivity.
Qed.

Lemma remove_nullish_keys (ks : list string) (o : props) :
  List.NoDup (obj_keys o) ->
  fold_left
    (fun o key => if is_nullish (obj_get key o) then obj_delete key o else o) ks o
  = List.filter
      (fun kv => negb (existsb (String.eqb (fst kv)) ks && is_nullish (snd kv))) o.
Proof.
  revert o. induction ks as [|k ks IH]; intros o Hnd; simpl.
  - induction o as [|kv o IHo]; simpl; [reflexivity|].
    inversion Hnd; subst. rewrite <- IHo by assumption. reflexivity.
  - rewrite delete_if_nullish_filter by assumption.
    rewrite IH by (apply filter_keys_NoDup; assumption).
    rewrite filter_filter. apply filter_ext. intros [k' v]. simpl.
    destruct (String.eqb k' k), (existsb (String.eqb k') ks), (is_nullish v);
      reflexivity.
Qed.

(** The deletion loop keeps exactly the properties that are neither
    [null] nor [undefined]. *)
Lemma remove_nullish_filter (o : props) :
  List.NoDup (obj_keys o) ->
  remove_nullish o = List.filter (fun kv => negb (is_nullish (snd kv))) o.
Proof.
  intros Hnd. unfold remove_nullish. rewrite remove_nullish_keys by assumption.
  apply filter_ext_in. intros [k v] Hin. simpl.
  replace (existsb (String.eqb k) (obj_keys o)) with true; [reflexivity|].
  symmetry. apply existsb_exists. exists k. split.
  - apply in_map_iff. exists (k, v). auto.
  - apply String.eqb_refl.
Qed.

(** ** Determinism of the canonical form *)

Lemma truthy_not_nullish v : truthy v = true -> is_nullish v = false.
Proof. destruct v; simpl; congruence. Qed.

Lemma check_required_ok (m : value) (fields : list string) :
  check_required m fields = Ok tt ->
  forall f, In f fields -> truthy (get_prop f m) = true.
Proof.
  induction fields as [|g fields IH]; simpl; [tauto|].
  destruct (truthy (get_prop g m)) eqn:Hg; simpl; [|discriminate].
  intros H f [<-|Hin]; auto.
Qed.


Lemma filter_nn_keep (k : string) (v : value) (l : props) :
  is_nullish v = false ->
  List.filter (fun kv => negb (is_nullish (snd kv))) ((k, v) :: l)
  = (k, v) :: List.filter (fun kv => negb (is_nullish (snd kv))) l.
Proof. intros H. simpl. rewrite H. reflexivity. Qed.

Lemma filter_nn_drop (k : string) (v : value) (l : props) :
  is_nullish v = true ->
  List.filter (fun kv => negb (is_nullish (snd kv))) ((k, v) :: l)
  = List.filter (fun kv => negb (is_nullish (snd kv))) l.
Proof. intros H. simpl. rewrite H. reflexivity. Qed.

Lemma filter_defined_keep (k : string) (v : value) (l : props) :
  is_nullish v = false ->
  List.filter (fun kv => negb (is_undefined (snd kv))) ((k, v) :: l)
  = (k, v) :: List.filter (fun kv => negb (is_undefined (snd kv))) l.
Proof. intros H. simpl. destruct v; try discriminate; reflexivity. Qed.

Lemma filter_defined_drop (k : string) (l : props) :
  List.filter (fun kv => negb (is_undefined (snd kv))) ((k, VUndefined) :: l)
  = List.filter (fun kv => negb (is_undefined (snd kv))) l.
Proof. reflexivity. Qed.

Ltac filter_steps :=
  repeat first
    [ rewrite filter_nn_keep by assumption
    | rewrite filter_nn_drop by assumption
    | rewrite filter_defined_keep by assumption
    | rewrite filter_defined_drop ].

Lemma shape_ext (f g : string -> value) :
  (forall k, f k = g k) -> shape f = shape g.
Proof.
  intros H. unfold shape. f_equal. apply map_ext. intros k. rewrite H. reflexivity.
Qed.

Section Determinism.

Variable toISOString : value -> option string.
Variable digest : string -> string -> string -> string.

(** A normalized record is determined by the values of its properties: they
    are always created in the same order. *)
Lemma normalized_is_shape (a na : value) :
  normalizeMetadata toISOString a = Ok na ->
  na = VObj (shape (fun k => get_prop k na)).
Proof.
  intros H. apply normalizeMetadata_ok_inv in H
      as (p & la & ca & fa & Hreq & _ & _ & _ & Hla & Hca & Hfa & ->).
  pose proof (check_required_ok _ _ Hreq) as Ht.
  assert (Hb := truthy_not_nullish _ (Ht "branch" ltac:(simpl; tauto))).
  assert (Ho := truthy_not_nullish _ (Ht "owner" ltac:(simpl; tauto))).
  assert (Hr := truthy_not_nullish _ (Ht "repo" ltac:(simpl; tauto))).
  assert (Hs := truthy_not_nullish _ (Ht "source" ltac:(simpl; tauto))).
  clear Ht Hreq.
  assert (Hc : is_nullish ca = false).
  { destruct (get_prop "commitHash" a); simpl in Hca; try discriminate.
    injection Hca as <-. reflexivity. }
  assert (Hf : is_nullish fa = false).
  { destruct (get_prop "fileHash" a); simpl in Hfa; try discriminate.
    injection Hfa as <-. reflexivity. }
  assert (Hpath : is_nullish (VStr p) = false) by reflexivity.
  clear Hca Hfa Hla.
  unfold built_record.
  destruct (truthy (get_prop "htmlUrl" a)) eqn:Hh;
  destruct (truthy (get_prop "repoPath" a)) eqn:Hp;
  destruct (is_nullish la) eqn:Hl.
  all: try apply truthy_not_nullish in Hh; try apply truthy_not_nullish in Hp.
  all: revert Hb Ho Hr Hs Hh Hp.
  all: generalize (get_prop "branch" a) (get_prop "owner" a) (get_prop "repo" a)
         (get_prop "source" a) (get_prop "htmlUrl" a) (get_prop "repoPath" a).
  all: intros vb vo vr vs vh vp Hb Ho Hr Hs Hh Hp.
  all: rewrite remove_nullish_filter by (simpl; repeat constructor; simpl; intuition discriminate).
  all: cbn [obj_assign obj_set String.eqb Ascii.eqb Bool.eqb].
  all: filter_steps.
  all: cbn [List.filter].
  all: unfold shape, field_order.
  all: cbn [map get_prop obj_get String.eqb Ascii.eqb Bool.eqb].
  all: filter_steps.
  all: reflexivity.
Qed.

(** C3. Two raw records whose normalized forms have the same value for
    every property have the same canonical string, and [generateIdentifier]
    returns the same result (identifier and short included) for both under
    the same options. *)
Theorem canonical_determinism (a b na nb : value) (options : props) :
  normalizeMetadata toISOString a = Ok na ->
  normalizeMetadata toISOString b = Ok nb ->
  (forall key, get_prop key na = get_prop key nb) ->
  canonicalizeMetadata na = canonicalizeMetadata nb
  /\ generateIdentifier toISOString digest a options
     = generateIdentifier toISOString digest b options.
Proof.
  intros Ha Hb Hfields.
  assert (Heq : na = nb).
  { rewrite (normalized_is_shape _ _ Ha), (normalized_is_shape _ _ Hb).
    f_equal. apply shape_ext. assumption. }
  subst nb. split; [reflexivity|].
  unfold generateIdentifier. rewrite Ha, Hb. reflexivity.
Qed.

End Determinism.

Lemma canonical_determinism_witness :
  canonicalizeMetadata (sample_normalized "src/a.js")
  = canonicalizeMetadata (sample_normalized "src/a.js")
  /\ generateIdentifier sample_toISOString sample_digest sample_meta_windows
       [("truncate", VNum 12)]
     = generateIdentifier sample_toISOString sample_digest (sample_meta "src/a.js")
         [("truncate", VNum 12)].
Proof.
  apply (canonical_determinism sample_toISOString sample_digest
           sample_meta_windows (sample_meta "src/a.js")
           (sample_normalized "src/a.js") (sample_normalized "src/a.js")
           [("truncate", VNum 12)]).
  - vm_compute. reflexivity.
  - vm_compute. reflexivity.
  - intros key. reflexivity.
Defined.

(** ** Re-normalization *)

(** C6 fails on the code: normalizing twice is not normalizing once. A path
    with two leading "./" loses one of them at each pass, and a path that
    normalizes to the empty string is rejected by the second pass. *)
Theorem normalizeMetadata_not_idempotent (toISOString : value -> option string) :
  (normalizeMetadata toISOString (sample_meta_plain "././a.js")
   = Ok (sample_normalized_plain "./a.js")
   /\ normalizeMetadata toISOString (sample_normalized_plain "./a.js")
      = Ok (sample_normalized_plain "a.js")
   /\ sample_normalized_plain "./a.js" <> sample_normalized_plain "a.js")
  /\ (normalizeMetadata toISOString (sample_meta_plain "./")
      = Ok (sample_normalized_plain "")
      /\ normalizeMetadata toISOString (sample_normalized_plain "")
         = Err (Error "Missing required field: filePath")).
Proof.
  repeat split; try (vm_compute; reflexivity). discriminate.
Qed.

(** ** Canonical key order (normalizer.mjs, [sortObjectKeys]) *)

Lemma ascii_compare_refl (a : ascii) : Ascii.compare a a = Eq.
Proof. unfold Ascii.compare. apply N.compare_refl. Qed.

Lemma string_compare_trans (s t u : string) (c : comparison) :
  String.compare s t = c -> String.compare t u = c -> String.compare s u = c.
Proof.
  revert t u c. induction s as [|a s IH]; intros [|b t] [|d u] c; simpl;
    try congruence.
  unfold Ascii.compare.
  destruct (N_of_ascii a ?= N_of_ascii b)%N eqn:Hab;
  destruct (N_of_ascii b ?= N_of_ascii d)%N eqn:Hbd;
    intros H1 H2; try congruence.
  - apply N.compare_eq_iff in Hab. rewrite Hab, Hbd. eauto.
  - apply N.compare_eq_iff in Hab. rewrite Hab, Hbd. assumption.
  - apply N.compare_eq_iff in Hab. rewrite Hab, Hbd. assumption.
  - apply N.compare_eq_iff in Hbd. rewrite <- Hbd, Hab. assumption.
  - apply N.compare_lt_iff in Hab. apply N.compare_lt_iff in Hbd.
    replace (N_of_ascii a ?= N_of_ascii d)%N with Lt; [assumption|].
    symmetry. apply N.compare_lt_iff. eapply N.lt_trans; eassumption.
  - apply N.compare_eq_iff in Hbd. rewrite <- Hbd, Hab. assumption.
  - apply N.compare_gt_iff in Hab. apply N.compare_gt_iff in Hbd.
    replace (N_of_ascii a ?= N_of_ascii d)%N with Gt; [assumption|].
    symmetry. apply N.compare_gt_iff. eapply N.lt_trans; eassumption.
Qed.

Lemma string_compare_eq (s t : string) : String.compare s t = Eq -> s = t.
Proof. apply String.compare_eq_iff. Qed.

#[global] Instance key_le_trans : Transitive key_le.
Proof.
  intros s t u. unfold key_le, String.leb.
  destruct (String.compare s t) eqn:Hst; try discriminate;
  destruct (String.compare t u) eqn:Htu; try discriminate; intros _ _.
  - rewrite (string_compare_trans s t u Eq); auto.
  - apply string_compare_eq in Hst. subst. rewrite Htu. reflexivity.
  - apply string_compare_eq in Htu. subst. rewrite Hst. reflexivity.
  - rewrite (string_compare_trans s t u Lt); auto.
Qed.

#[global] Instance key_le_antisym : AntiSymm (=) key_le.
Proof. intros s t. unfold key_le. apply String.leb_antisym. Qed.

#[global] Instance key_le_total : Total key_le.
Proof. intros s t. unfold key_le. apply String.leb_total. Qed.

(** Sorting does not depend on the order the keys come in. *)
Lemma sort_keys_Permutation (ks1 ks2 : list string) :
  ks1 ≡ₚ ks2 -> sort_keys ks1 = sort_keys ks2.
Proof.
  intros Hp. unfold sort_keys.
  apply (Sorted_unique key_le); try apply Sorted_merge_sort; try apply _.
  rewrite !merge_sort_Permutation. assumption.
Qed.

Lemma fold_left_ext_eq {A B} (f g : A -> B -> A) (l : list B) (a : A) :
  (forall a x, f a x = g a x) -> fold_left f l a = fold_left g l a.
Proof.
  intros H. revert a. induction l as [|x l IH]; intros a; simpl; [reflexivity|].
  rewrite H. apply IH.
Qed.

Lemma sort_child_eq (v : value) : sort_child v = sortObjectKeys v.
Proof. destruct v; reflexivity. Qed.

Lemma obj_get_map_values (f : value -> value) (k : string) (o : props) :
  f VUndefined = VUndefined ->
  obj_get k (map (fun kv => (fst kv, f (snd kv))) o) = f (obj_get k o).
Proof.
  intros Hf. induction o as [|[k' v] o IH]; simpl; [auto|].
  destruct (String.eqb k' k); auto.
Qed.

(** The equation of the source: each key of the sorted list receives the
    sorted value of that key. *)
Lemma sortObjectKeys_object (o : props) :
  sortObjectKeys (VObj o)
  = VObj (fold_left
            (fun sorted key => obj_assign key (sortObjectKeys (obj_get key o)) sorted)
            (sort_keys (obj_keys o)) []).
Proof.
  assert (Hc : (fix go (o0 : props) : props :=
                  match o0 with
                  | [] => []
                  | (k, v) :: o' =>
                      (k, if is_plain_object v then sortObjectKeys v else v) :: go o'
                  end) o
               = map (fun kv => (fst kv, sort_child (snd kv))) o).
  { clear. induction o as [|[k v] o IH]; [reflexivity|].
    rewrite IH. reflexivity. }
  simpl. rewrite Hc. f_equal. apply fold_left_ext_eq. intros sorted key.
  rewrite obj_get_map_values by reflexivity.
  rewrite sort_child_eq. reflexivity.
Qed.

(** Objects equal up to key order, arrays being equal, are sorted to the
    same object. *)
Lemma sortObjectKeys_key_equiv (a b : value) :
  key_equiv false a b -> sortObjectKeys a = sortObjectKeys b.
Proof.
  induction 1 as [v|l1 l2 Hdeep _|o1 o2 Hnd1 Hnd2 Hkeys _ IH].
  - reflexivity.
  - discriminate.
  - rewrite !sortObjectKeys_object.
    rewrite (sort_keys_Permutation (obj_keys o1) (obj_keys o2)).
    + f_equal. apply fold_left_ext_eq. intros sorted key. rewrite IH. reflexivity.
    + apply NoDup_Permutation; try (apply NoDup_ListNoDup; assumption).
      intros k. rewrite !list_elem_of_In. apply Hkeys.
Qed.

Ltac nodup_keys := simpl; repeat constructor; simpl; intuition discriminate.

Ltac by_key k :=
  cbn [obj_get];
  repeat match goal with
         | |- context [String.eqb ?s k] =>
             destruct (String.eqb_spec s k); [subst k; simpl|]
         end.

Ltac key_equiv_tac :=
  first
    [ apply key_equiv_refl
    | apply key_equiv_arr;
      [ reflexivity
      | repeat (first [apply List.Forall2_nil | apply List.Forall2_cons; [key_equiv_tac|]]) ]
    | apply key_equiv_obj;
      [ nodup_keys | nodup_keys | intros k; simpl; tauto
      | let k := fresh "k" in intros k; by_key k; key_equiv_tac ] ].

Lemma record_ab_equiv_ba : key_equiv false record_ab record_ba.
Proof. unfold record_ab, record_ba, nested_xy, nested_yx. key_equiv_tac. Qed.

(** C4 fails on the code as it is written: an object inside an array keeps
    its insertion order, so two records that differ only in the key order
    of such an object have different canonical strings. *)
Lemma canonicalizeMetadata_array_counterexample :
  key_equiv true record_in_array_xy record_in_array_yx
  /\ canonicalizeMetadata record_in_array_xy
     <> canonicalizeMetadata record_in_array_yx.
Proof.
  split.
  - unfold record_in_array_xy, record_in_array_yx, nested_xy, nested_yx.
    key_equiv_tac.
  - vm_compute. discriminate.
Qed.

(** ** Change report (change-detection.mjs, [generateChangeReport]) *)

(** The loop appends to each list the results of its category, in order,
    and records every path it classifies. *)
Lemma select_cons (previous : Manifest) (c : category) (r : BatchItemResult)
    (current : list BatchItemResult) :
  select previous c (r :: current)
  = if valid_path r && category_eqb (code_category previous r) c
    then r :: select previous c current
    else select previous c current.
Proof. reflexivity. Qed.

Lemma report_fold (previous : Manifest) (current : list BatchItemResult)
    (report : ChangeReport) (seen : gset string) :
  fold_left (report_step previous) current (report, seen)
  = ({| added := added report ++ map path_of (select previous Added current);
        modified := modified report ++ map path_of (select previous Modified current);
        unchanged := unchanged report ++ map path_of (select previous Unchanged current);
        removed := removed report;
        errors := errors report
          ++ map (fun r => (path_of r, error r)) (select previous Errored current) |},
     list_to_set (map path_of (List.filter valid_path current)) ∪ seen).
Proof.
  revert report seen. induction current as [|r current IH]; intros report seen.
  - simpl. rewrite !app_nil_r. destruct report. simpl.
    f_equal. set_solver.
  - simpl fold_left.
    change (truthy_str (filePath r)) with (valid_path r).
    change (default "" (filePath r)) with (path_of r).
    rewrite !select_cons. unfold code_category.
    cbn [List.filter].
    destruct (valid_path r) eqn:Hv; cbn [negb andb].
    + destruct (String.eqb (status r) "error") eqn:He.
      * rewrite IH. cbn. rewrite <- !app_assoc. cbn.
        f_equal. set_solver.
      * destruct (truthy_looked_up (manifest_lookup (path_of r) previous)) eqn:Ht;
          cbn [negb].
        -- destruct (strict_neq (item_identifier r) (manifest_lookup (path_of r) previous))
             eqn:Hs.
           ++ rewrite IH. cbn. rewrite <- !app_assoc. cbn. f_equal. set_solver.
           ++ rewrite IH. cbn. rewrite <- !app_assoc. cbn. f_equal. set_solver.
        -- rewrite IH. cbn. rewrite <- !app_assoc. cbn. f_equal. set_solver.
    + rewrite IH. reflexivity.
Qed.

Lemma generateChangeReport_lists (current : list BatchItemResult) (previous : Manifest) :
  generateChangeReport current previous
  = {| added := map path_of (select previous Added current);
       modified := map path_of (select previous Modified current);
       unchanged := map path_of (select previous Unchanged current);
       removed :=
         List.filter
           (fun k => negb (bool_decide
              (k ∈ (list_to_set (map path_of (List.filter valid_path current))
                    : gset string))))
           (manifest_keys previous);
       errors := map (fun r => (path_of r, error r)) (select previous Errored current) |}.
Proof.
  unfold generateChangeReport. rewrite report_fold. simpl.
  f_equal. apply filter_ext. intros k. do 2 f_equal.
  apply bool_decide_ext. set_solver.
Qed.

Lemma category_eqb_eq (a b : category) : category_eqb a b = true <-> a = b.
Proof. destruct a, b; simpl; split; congruence. Qed.

(** A path is listed under a category exactly when some result with that
    path took the branch of that category. *)
Lemma listed_iff (current : list BatchItemResult) (previous : Manifest)
    (c : category) (p : string) :
  In p (listed (generateChangeReport current previous) c)
  <-> exists r, In r current /\ valid_path r = true /\ path_of r = p
                /\ code_category previous r = c.
Proof.
  rewrite generateChangeReport_lists.
  assert (Hsel : forall c', In p (map path_of (select previous c' current))
     <-> exists r, In r current /\ valid_path r = true /\ path_of r = p
                   /\ code_category previous r = c').
  { intros c'. rewrite in_map_iff. unfold select. split.
    - intros (r & Hp & Hin). apply filter_In in Hin as (Hin & Hb).
      apply andb_true_iff in Hb as (Hv & Hc). apply category_eqb_eq in Hc.
      exists r. auto.
    - intros (r & Hin & Hv & Hp & Hc). exists r. split; [assumption|].
      apply filter_In. split; [assumption|].
      rewrite Hv. apply category_eqb_eq in Hc. rewrite Hc. reflexivity. }
  destruct c; simpl; try apply Hsel.
  rewrite map_map. simpl. apply Hsel.
Qed.

Lemma manifest_get_In (path id : string) (previous : Manifest) :
  manifest_get path previous = Some id -> In (path, id) previous.
Proof.
  induction previous as [|[k v] previous IH]; simpl; [discriminate|].
  destruct (String.eqb_spec k path) as [->|Hne].
  - intros [= ->]. auto.
  - auto.
Qed.

(** On a stored manifest, and for a path that is not the name of an
    inherited member, the branches of the loop are the categories of the
    specification. *)
Lemma code_category_spec (previous : Manifest) (r : BatchItemResult) :
  valid_manifest previous ->
  (manifest_get (path_of r) previous = None ->
   ~ In (path_of r) object_prototype_names) ->
  code_category previous r = spec_category previous r.
Proof.
  intros Hvalid Hown. unfold code_category, spec_category, manifest_lookup.
  destruct (String.eqb (status r) "error"); [reflexivity|].
  destruct (manifest_get (path_of r) previous) as [id|] eqn:Hget.
  - simpl. apply manifest_get_In in Hget. apply Hvalid in Hget.
    destruct (String.eqb_spec id "") as [|_]; [contradiction|]. simpl.
    destruct (item_identifier r) as [x|]; simpl; [|reflexivity].
    destruct (String.eqb x id); reflexivity.
  - destruct (existsb (String.eqb (path_of r)) object_prototype_names) eqn:Hex;
      [|reflexivity].
    exfalso. apply (Hown eq_refl).
    apply existsb_exists in Hex as (x & Hx & Heq).
    apply String.eqb_eq in Heq. subst. assumption.
Qed.

Lemma NoDup_map_unique {A B} (f : A -> B) (l : list A) (x y : A) :
  List.NoDup (map f l) -> In x l -> In y l -> f x = f y -> x = y.
Proof.
  induction l as [|a l IH]; simpl; [tauto|].
  intros Hnd Hx Hy Hf. inversion Hnd as [|? ? Hnot Hnd']; subst.
  destruct Hx as [->|Hx], Hy as [->|Hy]; auto.
  - exfalso. apply Hnot. rewrite Hf. apply in_map. assumption.
  - exfalso. apply Hnot. rewrite <- Hf. apply in_map. assumption.
Qed.

Lemma filter_all {A} (f : A -> bool) (l : list A) :
  (forall x, In x l -> f x = true) -> List.filter f l = l.
Proof.
  induction l as [|a l IH]; simpl; intros H; [reflexivity|].
  rewrite (H a) by auto. rewrite IH by auto. reflexivity.
Qed.

(** C7, as the code has it. When the current results carry pairwise
    distinct (truthy) file paths, the manifest stores non-empty identifiers,
    and no current path absent from the manifest is the name of a member
    inherited from [Object.prototype], every current path is listed under
    exactly one of added, modified, unchanged and errors, the one the
    specification names; and a manifest key is listed as removed exactly
    when no current result has its path. *)
Theorem generateChangeReport_partition (current : list BatchItemResult)
    (previous : Manifest) :
  (forall r, In r current -> valid_path r = true) ->
  List.NoDup (map path_of current) ->
  valid_manifest previous ->
  no_inherited_path current previous ->
  (forall r c, In r current ->
     (In (path_of r) (listed (generateChangeReport current previous) c)
      <-> c = spec_category previous r))
  /\ (forall k, In k (removed (generateChangeReport current previous))
        <-> In k (manifest_keys previous) /\ ~ In k (map path_of current)).
Proof.
  intros Hpaths Hnd Hvalid Hown. split.
  - intros r c Hin. rewrite listed_iff. split.
    + intros (r' & Hin' & _ & Hp & Hc).
      rewrite (NoDup_map_unique path_of current r' r Hnd Hin' Hin Hp) in Hc.
      rewrite <- Hc. apply code_category_spec; auto.
    + intros ->. exists r. repeat split; auto.
      apply code_category_spec; auto.
  - intros k. rewrite generateChangeReport_lists. simpl.
    rewrite filter_In. rewrite (filter_all valid_path current Hpaths).
    rewrite negb_true_iff, bool_decide_eq_false.
    rewrite elem_of_list_to_set, list_elem_of_In. reflexivity.
Qed.

(** The "diff partition" example of the specification, with one failing
    item. *)
Lemma generateChangeReport_partition_witness :
  (forall r c,
     In r [ok_item "a" "sha256:1"; ok_item "c" "sha256:3"; error_item "d" "boom"] ->
     (In (path_of r)
         (listed (generateChangeReport
                    [ok_item "a" "sha256:1"; ok_item "c" "sha256:3"; error_item "d" "boom"]
                    [("a", "sha256:1"); ("b", "sha256:2")]) c)
      <-> c = spec_category [("a", "sha256:1"); ("b", "sha256:2")] r))
  /\ (forall k,
        In k (removed (generateChangeReport
                         [ok_item "a" "sha256:1"; ok_item "c" "sha256:3"; error_item "d" "boom"]
                         [("a", "sha256:1"); ("b", "sha256:2")]))
        <-> In k (manifest_keys [("a", "sha256:1"); ("b", "sha256:2")])
            /\ ~ In k (map path_of
                         [ok_item "a" "sha256:1"; ok_item "c" "sha256:3"; error_item "d" "boom"])).
Proof.
  apply (generateChangeReport_partition
           [ok_item "a" "sha256:1"; ok_item "c" "sha256:3"; error_item "d" "boom"]
           [("a", "sha256:1"); ("b", "sha256:2")]).
  - simpl. intros r [<-|[<-|[<-|[]]]]; reflexivity.
  - simpl. repeat constructor; simpl; intuition discriminate.
  - intros k v. simpl. intros [[= <- <-]|[[= <- <-]|[]]]; discriminate.
  - intros r. simpl. intros [<-|[<-|[<-|[]]]] _; simpl; intuition discriminate.
Defined.

(** C7 fails on the code as it is written. A path that occurs in two
    results, one failing and one succeeding, is listed under errors and
    under added. And a new file named like a member of [Object.prototype]
    is listed under modified, not added: [previous[path]] finds the
    inherited member. *)
Lemma generateChangeReport_counterexample :
  ((forall r, In r twice_current -> valid_path r = true)
   /\ valid_manifest []
   /\ In "a" (listed (generateChangeReport twice_current []) Added)
   /\ In "a" (listed (generateChangeReport twice_current []) Errored)
   /\ ~ (forall r c, In r twice_current ->
           (In (path_of r) (listed (generateChangeReport twice_current []) c)
            <-> c = spec_category [] r)))
  /\ (spec_category [] (ok_item "constructor" "sha256:1") = Added
      /\ generateChangeReport [ok_item "constructor" "sha256:1"] []
         = {| added := []; modified := ["constructor"]; unchanged := [];
              removed := []; errors := [] |}).
Proof.
  assert (Ha : In "a" (listed (generateChangeReport twice_current []) Added)).
  { vm_compute. auto. }
  assert (He : In "a" (listed (generateChangeReport twice_current []) Errored)).
  { vm_compute. auto. }
  split; [repeat split; auto|].
  - simpl. intros r [<-|[<-|[]]]; reflexivity.
  - intros k v [].
  - intros H. specialize (H (error_item "a" "boom") Added).
    assert (Hin : In (error_item "a" "boom") twice_current) by (simpl; auto).
    apply H in Hin. apply Hin in Ha. discriminate.
  - split; vm_compute; reflexivity.
Qed.

(** ** Manifest round trip (change-detection.mjs, [saveManifest] and
    [loadManifest]) *)

Lemma append_cons (c : ascii) (s t : string) : String c s ++ t = String c (s ++ t).
Proof. reflexivity. Qed.

Lemma append_empty_l (t : string) : "" ++ t = t.
Proof. reflexivity. Qed.

Lemma append_assoc (s t u : string) : (s ++ t) ++ u = s ++ t ++ u.
Proof.
  induction s as [|c s IH]; [reflexivity|].
  rewrite !append_cons, IH. reflexivity.
Qed.

Lemma append_length (s t : string) :
  String.length (s ++ t) = (String.length s + String.length t)%nat.
Proof.
  induction s as [|c s IH]; [reflexivity|].
  rewrite append_cons. simpl. rewrite IH. reflexivity.
Qed.

(** Reading back one quoted code unit. *)
Lemma parse_quote_char (c : ascii) (X : string) :
  parse_string_chars (quote_char c ++ X)
  = match parse_string_chars X with
    | Some (str, rest) => Some (String c str, rest)
    | None => None
    end.
Proof.
  destruct c as [[] [] [] [] [] [] [] []]; reflexivity.
Qed.

Lemma parse_quote_chars (s rest : string) :
  parse_string_chars (quote_chars s ++ String dquote rest) = Some (s, rest).
Proof.
  induction s as [|c s IH]; [reflexivity|].
  simpl quote_chars. rewrite append_assoc, parse_quote_char, IH. reflexivity.
Qed.

Lemma QuoteJSONString_app (s rest : string) :
  QuoteJSONString s ++ rest = String dquote (quote_chars s ++ String dquote rest).
Proof.
  unfold QuoteJSONString. rewrite append_cons, append_assoc. reflexivity.
Qed.

Lemma skip_ws_app (w s : string) :
  all_chars is_ws w = true -> skip_ws (w ++ s) = skip_ws s.
Proof.
  induction w as [|c w IH]; [reflexivity|].
  intros H. simpl in H. apply andb_true_iff in H as [Hc Hw].
  rewrite append_cons. simpl skip_ws. rewrite Hc. auto.
Qed.

Lemma parse_value_skip_ws (fuel : nat) (w s : string) :
  all_chars is_ws w = true ->
  parse_value (S fuel) (w ++ s) = parse_value (S fuel) s.
Proof. intros Hw. simpl parse_value. rewrite skip_ws_app by assumption. reflexivity. Qed.

Lemma parse_value_quoted (fuel : nat) (str X : string) :
  parse_value (S fuel) (QuoteJSONString str ++ X) = Some (VStr str, X).
Proof.
  rewrite QuoteJSONString_app.
  transitivity (match parse_string_chars (quote_chars str ++ String dquote X) with
                | Some (str0, rest) => Some (VStr str0, rest)
                | None => None
                end); [reflexivity|].
  rewrite parse_quote_chars. reflexivity.
Qed.

Lemma parse_member_skip_ws (pv : string -> option (value * string)) (w s : string) :
  all_chars is_ws w = true -> parse_member pv (w ++ s) = parse_member pv s.
Proof. intros Hw. unfold parse_member. rewrite skip_ws_app by assumption. reflexivity. Qed.

Lemma parse_member_quoted (pv : string -> option (value * string)) (key X : string) :
  parse_member pv (QuoteJSONString key ++ ":" ++ X)
  = match pv X with
    | Some (v, rest) => Some (key, v, rest)
    | None => None
    end.
Proof.
  rewrite QuoteJSONString_app.
  transitivity
    (match parse_string_chars (quote_chars key ++ String dquote (":" ++ X)) with
     | Some (key, rest) =>
         match skip_ws rest with
         | String d rest' =>
             if Ascii.eqb d ":"%char then
               match pv rest' with
               | Some (v, rest'') => Some (key, v, rest'')
               | None => None
               end
             else None
         | EmptyString => None
         end
     | None => None
     end); [reflexivity|].
  rewrite parse_quote_chars. reflexivity.
Qed.

Section ManifestText.

(** The whitespace after an opening brace or a comma, after a colon, and
    before the closing brace. *)
Variables w1 w2 w3 : string.
Hypothesis w1_ws : all_chars is_ws w1 = true.
Hypothesis w2_ws : all_chars is_ws w2 = true.
Hypothesis w3_ws : all_chars is_ws w3 = true.

Lemma parse_member_text (fuel : nat) (kv : string * string) (X : string) :
  parse_member (parse_value (S fuel)) (w1 ++ member_text w2 kv ++ X)
  = Some (fst kv, VStr (snd kv), X).
Proof.
  rewrite parse_member_skip_ws by assumption.
  unfold member_text. rewrite !append_assoc.
  rewrite parse_member_quoted.
  rewrite parse_value_skip_ws by assumption.
  rewrite parse_value_quoted. reflexivity.
Qed.

Lemma parse_members_tail (fuel : nat) (ms : Manifest) (rest : string) :
  forall (n : nat) (acc : props),
    (length ms < n)%nat ->
    parse_members (parse_value (S fuel)) n acc (members_tail w1 w2 w3 ms rest)
    = Some (VObj (define_members ms acc), rest).
Proof.
  induction ms as [|kv ms IH]; intros n acc Hn.
  - destruct n as [|n]; [simpl in Hn; lia|].
    unfold members_tail. simpl fold_right. simpl parse_members.
    rewrite skip_ws_app by assumption. reflexivity.
  - destruct n as [|n]; [simpl in Hn; lia|].
    unfold members_tail. simpl fold_right. fold (members_tail w1 w2 w3 ms rest).
    transitivity
      (match parse_member (parse_value (S fuel))
               (w1 ++ member_text w2 kv ++ members_tail w1 w2 w3 ms rest) with
       | Some (key, v, rest0) =>
           parse_members (parse_value (S fuel)) n (obj_set key v acc) rest0
       | None => None
       end); [reflexivity|].
    rewrite parse_member_text. rewrite IH by (simpl in Hn; lia). reflexivity.
Qed.

Lemma members_tail_length (ms : Manifest) (rest : string) :
  (length ms < String.length (members_tail w1 w2 w3 ms rest))%nat.
Proof.
  induction ms as [|kv ms IH]; unfold members_tail; simpl fold_right.
  - rewrite !append_length. simpl. lia.
  - fold (members_tail w1 w2 w3 ms rest). rewrite !append_length. simpl. lia.
Qed.

Lemma join_members_tail (kv : string * string) (ms : Manifest) (rest : string) :
  array_join ("," ++ w1) (map (member_text w2) (kv :: ms)) ++ w3 ++ "}" ++ rest
  = member_text w2 kv ++ members_tail w1 w2 w3 ms rest.
Proof.
  revert kv. induction ms as [|kv' ms IH]; intros kv.
  - reflexivity.
  - change (array_join ("," ++ w1) (map (member_text w2) (kv :: kv' :: ms)))
      with (member_text w2 kv ++ ("," ++ w1)
            ++ array_join ("," ++ w1) (map (member_text w2) (kv' :: ms))).
    rewrite !append_assoc. rewrite IH. reflexivity.
Qed.

Lemma parse_value_object (f : nat) (r r' : string) (d : ascii) :
  skip_ws r = String d r' ->
  Ascii.eqb d "}"%char = false ->
  parse_value (S f) (String "{" r)
  = match parse_member (parse_value f) r with
    | Some (key, v, rest) =>
        parse_members (parse_value f) (String.length rest) [(key, v)] rest
    | None => None
    end.
Proof.
  intros Hr Hd.
  transitivity
    (match skip_ws r with
     | String d r' =>
         if Ascii.eqb d "}"%char then Some (VObj [], r')
         else
           match parse_member (parse_value f) r with
           | Some (key, v, rest) =>
               parse_members (parse_value f) (String.length rest) [(key, v)] rest
           | None => None
           end
     | EmptyString => None
     end); [reflexivity|].
  rewrite Hr, Hd. reflexivity.
Qed.

(** Reading the text of a manifest with at least one member. *)
Lemma parse_manifest_text (f : nat) (kv : string * string) (ms : Manifest) :
  parse_value (S (S f))
    (String "{" (w1 ++ member_text w2 kv ++ members_tail w1 w2 w3 ms ""))
  = Some (VObj (define_members ms [(fst kv, VStr (snd kv))]), "").
Proof.
  rewrite (parse_value_object (S f) _
             (quote_chars (fst kv)
              ++ String dquote (":" ++ w2 ++ QuoteJSONString (snd kv)
                                ++ members_tail w1 w2 w3 ms "")) dquote).
  - rewrite parse_member_text.
    apply parse_members_tail. apply members_tail_length.
  - rewrite skip_ws_app by assumption.
    unfold member_text. rewrite !append_assoc. rewrite QuoteJSONString_app.
    reflexivity.
  - reflexivity.
Qed.

End ManifestText.

Lemma obj_set_fresh (key : string) (v : value) (o : props) :
  ~ In key (obj_keys o) -> obj_set key v o = (o ++ [(key, v)])%list.
Proof.
  induction o as [|[k w] o IH]; simpl; intros Hnot; [reflexivity|].
  destruct (String.eqb_spec k key) as [->|Hne]; [tauto|].
  rewrite IH by tauto. reflexivity.
Qed.

(** Members with pairwise distinct keys are defined in the order they are
    read. *)
Lemma define_members_fresh (ms : Manifest) (acc : props) :
  List.NoDup (obj_keys acc ++ manifest_keys ms)%list ->
  define_members ms acc = (acc ++ map (fun kv => (fst kv, VStr (snd kv))) ms)%list.
Proof.
  revert acc. induction ms as [|[k v] ms IH]; intros acc Hnd; simpl.
  - rewrite app_nil_r. reflexivity.
  - unfold define_members in *. simpl.
    assert (Hk : ~ In k (obj_keys acc)).
    { apply NoDup_remove_2 in Hnd. intros Hin. apply Hnd.
      apply in_or_app. auto. }
    rewrite obj_set_fresh by assumption.
    rewrite IH.
    + rewrite <- app_assoc. reflexivity.
    + unfold obj_keys. rewrite map_app. simpl. rewrite <- app_assoc. exact Hnd.
Qed.

Lemma serialize_manifest (gap : string) (m : Manifest) :
  SerializeJSONProperty gap "" (manifest_value m)
  = Some (wrap_partial "{" "}" gap "" gap
            (map (member_text (if is_empty gap then "" else " ")) m)).
Proof.
  unfold manifest_value. simpl. do 2 f_equal.
  induction m as [|[k v] m IH]; simpl; [reflexivity|].
  rewrite IH. reflexivity.
Qed.

(** Both layouts of a manifest read back as the manifest. *)
Lemma parse_wrapped_manifest (gap : string) (m : Manifest) :
  gap = "" \/ gap = "  " ->
  List.NoDup (manifest_keys m) ->
  JSON_parse (wrap_partial "{" "}" gap "" gap
                (map (member_text (if is_empty gap then "" else " ")) m))
  = Some (manifest_value m).
Proof.
  intros Hgap Hnd. destruct m as [|kv ms]; [destruct Hgap; subst; reflexivity|].
  assert (Hdef : define_members ms [(fst kv, VStr (snd kv))]
                 = map (fun kv => (fst kv, VStr (snd kv))) (kv :: ms)).
  { rewrite define_members_fresh by exact Hnd. reflexivity. }
  unfold JSON_parse.
  destruct Hgap; subst gap.
  - assert (Htext :
      wrap_partial "{" "}" "" "" ""
        (map (member_text (if is_empty "" then "" else " ")) (kv :: ms))
      = String "{" ("" ++ member_text "" kv ++ members_tail "" "" "" ms "")).
    { rewrite <- join_members_tail. reflexivity. }
    rewrite Htext. simpl String.length.
    rewrite parse_manifest_text by reflexivity.
    rewrite Hdef. reflexivity.
  - assert (Htext :
      wrap_partial "{" "}" "  " "" "  "
        (map (member_text (if is_empty "  " then "" else " ")) (kv :: ms))
      = String "{" (String newline "  " ++ member_text " " kv
                    ++ members_tail (String newline "  ") " " (String newline "") ms "")).
    { rewrite <- join_members_tail. reflexivity. }
    rewrite Htext. simpl String.length.
    rewrite parse_manifest_text by reflexivity.
    rewrite Hdef. reflexivity.
Qed.

(** C8. A manifest (file paths, pairwise distinct, to identifier strings)
    saved by [saveManifest], pretty-printed or not, is read back by
    [loadManifest] as the same manifest. *)
Theorem manifest_round_trip (m : Manifest) (pretty : bool) :
  List.NoDup (manifest_keys m) ->
  exists json,
    saveManifest (manifest_value m) pretty = Ok json
    /\ loadManifest json = Ok (manifest_value m).
Proof.
  intros Hnd.
  exists (default ""
            (if pretty then JSON_stringify_pretty (manifest_value m)
             else JSON_stringify (manifest_value m))).
  split; [reflexivity|].
  unfold loadManifest, JSON_stringify_pretty, JSON_stringify.
  destruct pretty; rewrite serialize_manifest; cbn [default from_option id].
  - rewrite (parse_wrapped_manifest "  " m); auto.
  - rewrite (parse_wrapped_manifest "" m); auto.
Qed.

Lemma manifest_round_trip_witness :
  exists json,
    saveManifest (manifest_value [("src/a.js", "sha256:1"); ("b", "sha1:2")]) true
    = Ok json
    /\ loadManifest json
       = Ok (manifest_value [("src/a.js", "sha256:1"); ("b", "sha1:2")]).
Proof.
  apply (manifest_round_trip [("src/a.js", "sha256:1"); ("b", "sha1:2")] true).
  simpl. repeat constructor; simpl; intuition discriminate.
Defined.

(** ** Batch orchestrator (batch.mjs, [generateBatchIdentifiers]) *)

Example batch_of_two_default_concurrency :
  option_map (fun st => (st_pc st, length (results st)))
    (sample_run 10 ["a.js"; "b.js"] [Tick; Tick; Tick; Settle 1; Settle 0; Tick])
  = Some (Done, 2%nat).
Proof. vm_compute. reflexivity. Qed.

Example batch_of_one_concurrency_one :
  option_map (fun st => (st_pc st, length (results st), map filePath (results st)))
    (sample_run 1 ["a.js"] [Tick; Settle 0; Tick; Tick; Tick])
  = Some (Done, 2%nat, [Some "a.js"; Some "a.js"]).
Proof. vm_compute. reflexivity. Qed.

Example batch_of_three_concurrency_one :
  option_map (fun st => (st_pc st, active st))
    (sample_run 1 ["a.js"; "b.js"; "c.js"] [Tick; Settle 0; Tick; Tick; Tick; Tick])
  = Some (AwaitRace 2 (Some 0%nat), 2%nat).
Proof. vm_compute. reflexivity. Qed.

Lemma if_Some_inv {A} (b : bool) (x y z : A) :
  (if b then Some x else Some y) = Some z -> (if b then x else y) = z.
Proof. destruct b; congruence. Qed.

Lemma indexOf_result_among_promises (w : nat) (ids : list nat) :
  indexOf (RResult w) (map RPromise ids) = None.
Proof.
  induction ids as [|i ids IH]; simpl; [reflexivity|]. rewrite IH. reflexivity.
Qed.

Section BatchRun.

Variable toISOString : value -> option string.
Variable digest : string -> string -> string -> string.
Variable getGitHubMetadata : string -> string -> string -> string -> result value.
Variable getLocalMetadata : string -> string -> result value.
Variable inputs : list BatchInput.
Variable options : BatchOptions.

(** Errors are caught: [continueOnError] is left at its default. *)
Hypothesis continue : continueOnError options = true.

Local Abbreviation result_at' :=
  (result_at toISOString digest getGitHubMetadata getLocalMetadata inputs options).
Local Abbreviation item_result' :=
  (item_result toISOString digest getGitHubMetadata getLocalMetadata options).
Local Abbreviation inv :=
  (batch_inv toISOString digest getGitHubMetadata getLocalMetadata inputs options).
Local Abbreviation races' := (races options).
Local Abbreviation step' :=
  (step toISOString digest getGitHubMetadata getLocalMetadata inputs options).
Local Abbreviation exec' :=
  (exec toISOString digest getGitHubMetadata getLocalMetadata inputs options).

Lemma on_error_item_result (input : BatchInput) (e : exn) :
  validate_input input = Err e ->
  on_error options input e = Fulfilled (item_result' input).
Proof.
  intros Hv. unfold on_error, item_result, pipeline. rewrite continue, Hv.
  reflexivity.
Qed.

Lemma after_adapter_item_result (input : BatchInput) (call : adapter_call) :
  validate_input input = Ok call ->
  after_adapter toISOString digest options input
    (run_adapter getGitHubMetadata getLocalMetadata call)
  = Fulfilled (item_result' input).
Proof.
  intros Hv. unfold after_adapter, item_result, pipeline, on_error.
  rewrite continue, Hv. simpl.
  destruct (run_adapter getGitHubMetadata getLocalMetadata call) as [metadata|e];
    simpl; [|reflexivity].
  destruct (generateIdentifier toISOString digest metadata (identifierOptions options));
    reflexivity.
Qed.

Lemma races_S (i : nat) :
  races' (S i)
  = (races' i + if Z.of_nat (S i) >=? concurrency options then 1 else 0)%nat.
Proof.
  unfold races. rewrite seq_S. simpl.
  rewrite List.filter_app, length_app. simpl.
  destruct (Z.of_nat (S i) >=? concurrency options); reflexivity.
Qed.

Lemma first_settled_Some (array : list ref) (ps : list promise_state) (j : nat) :
  first_settled array ps = Some j ->
  exists p, ps !! j = Some p /\ is_settled p = true.
Proof.
  unfold first_settled.
  destruct (List.find (promise_settled ps) array) as [[id|id]|] eqn:Hfind;
    try discriminate.
  intros [= <-]. apply find_some in Hfind as [_ Hs].
  unfold promise_settled in Hs. destruct (ps !! id) as [p|]; [eauto|discriminate].
Qed.

Lemma inv_settled_lookup (st : state) (j : nat) (p : promise_state) :
  inv st -> promises st !! j = Some p -> is_settled p = true ->
  p = Fulfilled (result_at' j).
Proof.
  intros (_ & Hps & _) Hj Hs. destruct (Hps j p Hj) as [-> | ->];
    [discriminate|reflexivity].
Qed.

Lemma inv_init : inv (init inputs).
Proof.
  unfold batch_inv, init. simpl. repeat split.
  - intros j p Hj. rewrite lookup_nil in Hj. discriminate.
  - lia.
  - exists []. destruct inputs; simpl; auto.
Qed.

(** The state after [processOne(inputs[i])] was called and its promise
    pushed: the loop either waits on the race or goes on. *)
Lemma inv_started (st st1 : state) (i : nat) (input : BatchInput)
    (p : promise_state) :
  inv st -> st_pc st = Loop i -> inputs !! i = Some input ->
  p = Pending \/ p = Fulfilled (result_at' i) ->
  processing st1 = (processing st ++ [RPromise i])%list ->
  promises st1 = (promises st ++ [p])%list ->
  results st1 = results st ->
  inv (if Z.of_nat (length (processing st1)) >=? concurrency options
       then set_pc (AwaitRace i (first_settled (processing st1) (promises st1))) st1
       else set_pc (Loop (S i)) st1).
Proof.
  intros (Hproc & Hps & Hlen & winners & Hpc) Hloop Hinput Hp Hproc1 Hps1 Hres1.
  rewrite Hloop in Hpc. destruct Hpc as (Hi & Hres & Hw).
  assert (Hlen1 : length (promises st1) = S i).
  { rewrite Hps1, length_app. simpl. lia. }
  assert (Hproc1' : processing st1 = map RPromise (seq 0 (length (promises st1)))).
  { rewrite Hproc1, Hlen1, Hproc, Hi, seq_S, map_app. reflexivity. }
  assert (Hps1' : forall j q, promises st1 !! j = Some q ->
                    q = Pending \/ q = Fulfilled (result_at' j)).
  { intros j q. rewrite Hps1. intros Hj.
    apply lookup_app_Some in Hj as [Hj|[Hge Hj]]; [eauto|].
    rewrite Hi in *. destruct (j - i)%nat as [|n] eqn:Hd; simpl in Hj; [|discriminate].
    replace j with i by lia. congruence. }
  assert (Hle1 : (length (promises st1) <= length inputs)%nat).
  { rewrite Hlen1. apply lookup_lt_Some in Hinput. lia. }
  assert (Hplen : length (processing st1) = S i).
  { rewrite Hproc1', length_map, length_seq. assumption. }
  rewrite Hplen.
  destruct (Z.of_nat (S i) >=? concurrency options) eqn:Hc.
  - unfold batch_inv. simpl.
    split; [assumption|]. split; [assumption|]. split; [assumption|].
    exists winners. rewrite Hres1.
    split; [assumption|]. split; [apply Z.geb_le in Hc; lia|].
    split; [assumption|]. split; [assumption|].
    destruct (first_settled (processing st1) (promises st1)) as [j|] eqn:Hfs; [|exact I].
    apply first_settled_Some in Hfs as (q & Hq & Hs).
    destruct (Hps1' j q Hq) as [-> | ->]; [discriminate|assumption].
  - unfold batch_inv. simpl.
    split; [assumption|]. split; [assumption|]. split; [assumption|].
    exists winners. rewrite Hres1.
    split; [assumption|]. split; [assumption|].
    rewrite races_S, Hc. lia.
Qed.

Lemma inv_tick (st st' : state) :
  inv st ->
  tick inputs options st
  = Some st' ->
  inv st'.
Proof.
  intros Hinv. pose proof Hinv as (Hproc & Hps & Hlen & winners & Hpc).
  unfold tick. destruct (st_pc st) as [i|i [w|]| | |e] eqn:Hloop.
  - destruct (inputs !! i) as [input|] eqn:Hinput.
    + destruct (validate_input input) as [call|e] eqn:Hv.
      * intros H.
        apply if_Some_inv in H. rewrite <- H.
        apply (inv_started st _ i input Pending); auto.
      * intros H.
        apply if_Some_inv in H. rewrite <- H.
        apply (inv_started st _ i input (on_error options input e)); auto.
        right. rewrite (on_error_item_result input e Hv).
        unfold result_at. rewrite Hinput. reflexivity.
    + intros [= <-]. destruct Hpc as (Hi & Hres & Hw).
      apply lookup_ge_None in Hinput.
      assert (Hn : length (promises st) = length inputs) by lia.
      unfold batch_inv. simpl.
      split; [assumption|]. split; [assumption|]. split; [assumption|].
      exists winners. rewrite <- Hi, Hn in Hw. auto.
  - destruct Hpc as (Hi & Hc & Hres & Hw & Hsettled). rewrite Hsettled.
    intros [= <-]. unfold batch_inv. simpl.
    rewrite Hproc at 1. rewrite indexOf_result_among_promises.
    split; [assumption|]. split; [assumption|]. split; [assumption|].
    exists (winners ++ [w])%list.
    split; [assumption|]. split.
    + rewrite Hres, map_app. reflexivity.
    + rewrite length_app, races_S. simpl.
      replace (Z.of_nat (S i) >=? concurrency options) with true; [lia|].
      symmetry. apply Z.geb_le. lia.
  - discriminate.
  - destruct (forallb (promise_settled (promises st)) (processing st)) eqn:Hall;
      [|discriminate].
    intros [= <-]. destruct Hpc as (Hn & Hres & Hw).
    unfold batch_inv. simpl.
    split; [assumption|]. split; [assumption|]. split; [assumption|].
    exists winners. split; [|assumption].
    rewrite map_app, Hres. f_equal.
    rewrite Hproc, Hn, map_map. apply map_ext_in. intros j Hj.
    rewrite forallb_forall in Hall.
    assert (Hs : promise_settled (promises st) (RPromise j) = true).
    { apply Hall. rewrite Hproc, Hn. apply in_map. assumption. }
    simpl in *. destruct (promises st !! j) as [p|] eqn:Hp; [|discriminate].
    rewrite (inv_settled_lookup st j p Hinv Hp Hs). reflexivity.
  - discriminate.
  - discriminate.
Qed.

(** When errors are caught, the promise of a pending item is fulfilled
    with the result of the item. *)
Lemma settle_pending (j : nat) (st : state) (input : BatchInput)
    (call : adapter_call) :
  promises st !! j = Some Pending ->
  inputs !! j = Some input ->
  validate_input input = Ok call ->
  settle toISOString digest getGitHubMetadata getLocalMetadata inputs options j st
  = let st' :=
      finally_ inputs options
        {| st_pc := st_pc st; processing := processing st; results := results st;
           promises := <[ j := Fulfilled (item_result' input) ]> (promises st);
           completed := completed st; progress := progress st |} in
    match st_pc st' with
    | AwaitRace i None =>
        if existsb (ref_eqb (RPromise j)) (processing st')
        then Some (set_pc (AwaitRace i (Some j)) st')
        else Some st'
    | _ => Some st'
    end.
Proof.
  intros Hj Hinput Hv. unfold settle.
  rewrite Hj, Hinput, Hv, (after_adapter_item_result input call Hv). reflexivity.
Qed.

Lemma inv_settle (j : nat) (st st' : state) :
  inv st ->
  settle toISOString digest getGitHubMetadata getLocalMetadata inputs options j st
  = Some st' ->
  inv st'.
Proof.
  intros Hinv. pose proof Hinv as (Hproc & Hps & Hlen & winners & Hpc).
  unfold settle.
  destruct (promises st !! j) as [[| |]|] eqn:Hj; try discriminate.
  destruct (inputs !! j) as [input|] eqn:Hinput; [|discriminate].
  destruct (validate_input input) as [call|] eqn:Hv; [|discriminate].
  rewrite (after_adapter_item_result input call Hv).
  assert (Hr : item_result' input = result_at' j).
  { unfold result_at. rewrite Hinput. reflexivity. }
  rewrite Hr. clear Hr.
  assert (Hjlt : (j < length (promises st))%nat) by (eapply lookup_lt_Some; eauto).
  set (ps := <[j:=Fulfilled (result_at' j)]> (promises st)).
  assert (Hlen' : length ps = length (promises st)) by apply length_insert.
  assert (Hps' : forall k p, ps !! k = Some p ->
                   p = Pending \/ p = Fulfilled (result_at' k)).
  { intros k p. unfold ps. destruct (decide (k = j)) as [->|Hne].
    - rewrite list_lookup_insert_eq by assumption. intros [= <-]. auto.
    - rewrite list_lookup_insert_ne by congruence. apply Hps. }
  assert (Hkeep : forall k, promises st !! k = Some (Fulfilled (result_at' k)) ->
                    ps !! k = Some (Fulfilled (result_at' k))).
  { intros k Hk. unfold ps. destruct (decide (k = j)) as [->|Hne].
    - congruence.
    - rewrite list_lookup_insert_ne by congruence. assumption. }
  assert (Hbase : forall p' : pc,
            match p' with
            | Loop i =>
                length ps = i /\ results st = map result_at' winners
                /\ length winners = races' i
            | AwaitRace i w =>
                length ps = S i /\ Z.of_nat (S i) >= concurrency options
                /\ results st = map result_at' winners
                /\ length winners = races' i
                /\ match w with
                   | Some k => ps !! k = Some (Fulfilled (result_at' k))
                   | None => True
                   end
            | AwaitAll =>
                length ps = length inputs /\ results st = map result_at' winners
                /\ length winners = races' (length inputs)
            | Done =>
                results st = map result_at' (winners ++ seq 0 (length inputs))
                /\ length winners = races' (length inputs)
            | Failed _ => False
            end ->
            inv {| st_pc := p'; processing := processing st; results := results st;
                   promises := ps; completed := S (completed st);
                   progress := if progressCallback options
                               then (progress st ++ [(S (completed st), total inputs)])%list
                               else progress st |}).
  { intros p' Hp'. unfold batch_inv. simpl.
    split; [rewrite Hlen'; assumption|]. split; [assumption|].
    split; [rewrite Hlen'; assumption|]. exists winners. assumption. }
  unfold finally_. simpl.
  destruct (st_pc st) as [i|i [w|]| | |e] eqn:Hloop.
  - intros [= <-]. apply Hbase. rewrite Hlen'. assumption.
  - intros [= <-]. apply Hbase. rewrite Hlen'.
    destruct Hpc as (Hi & Hc & Hres & Hw & Hsettled). auto 10.
  - destruct Hpc as (Hi & Hc & Hres & Hw & _).
    destruct (existsb (ref_eqb (RPromise j)) (processing st)).
    + intros [= <-]. unfold set_pc. simpl. apply Hbase. rewrite Hlen'.
      repeat split; auto. unfold ps. apply list_lookup_insert_eq. assumption.
    + intros [= <-]. apply Hbase. rewrite Hlen'. auto.
  - intros [= <-]. apply Hbase. rewrite Hlen'. assumption.
  - intros [= <-]. apply Hbase. assumption.
  - destruct Hpc.
Qed.

Lemma inv_exec (evs : list event) (st st' : state) :
  inv st -> exec' evs st = Some st' -> inv st'.
Proof.
  revert st. induction evs as [|ev evs IH]; intros st Hinv; simpl.
  - intros [= <-]. assumption.
  - destruct (step' st ev) as [st1|] eqn:Hstep; [|discriminate].
    apply IH. destruct ev as [|j]; simpl in Hstep.
    + eapply inv_tick; eauto.
    + eapply inv_settle; eauto.
Qed.

(** The number of waits among the first [n] iterations: all but the first
    [concurrency - 1]. *)
Lemma races_closed_form (n : nat) :
  races' n = (n - Z.to_nat (concurrency options - 1))%nat.
Proof.
  induction n as [|n IH]; [reflexivity|].
  rewrite races_S, IH.
  destruct (Z.of_nat (S n) >=? concurrency options) eqn:Hc.
  - apply Z.geb_le in Hc. lia.
  - assert (Hlt : Z.of_nat (S n) < concurrency options).
    { destruct (Z.geb_spec (Z.of_nat (S n)) (concurrency options)); [discriminate|lia]. }
    lia.
Qed.

(** C1 fails on the code. With errors caught, a run that returns yields one
    result for every wait on [Promise.race] (the loop never removes a
    promise from [processing], so it waits at every iteration from the
    [concurrency]-th on), followed by one result for every input, in input
    order. For [N] inputs that is [N + (N - (concurrency - 1))] results when
    [concurrency - 1 <= N], not [N]: every input has its result in the
    array, the status of each result is that of its pipeline, and the
    results that won a race are there twice or more. *)
Theorem generateBatchIdentifiers_results (evs : list event) (st : state) :
  exec' evs (init inputs) = Some st ->
  st_pc st = Done ->
  exists winners : list nat,
    results st = map result_at' (winners ++ seq 0 (length inputs))
    /\ length winners = (length inputs - Z.to_nat (concurrency options - 1))%nat
    /\ length (results st)
       = (length inputs - Z.to_nat (concurrency options - 1) + length inputs)%nat.
Proof.
  intros Hexec Hdone.
  pose proof (inv_exec evs _ _ inv_init Hexec) as (_ & _ & _ & winners & Hpc).
  rewrite Hdone in Hpc. destruct Hpc as (Hres & Hw).
  rewrite races_closed_form in Hw.
  exists winners. repeat split; auto.
  rewrite Hres, length_map, length_app, length_seq. lia.
Qed.

(** The status of a result says whether the pipeline of its item threw. *)
Lemma item_result_status (input : BatchInput) :
  status (item_result' input) = "success"
  <-> exists idResult,
        pipeline toISOString digest getGitHubMetadata getLocalMetadata options input
        = Ok idResult.
Proof.
  unfold item_result.
  destruct (pipeline toISOString digest getGitHubMetadata getLocalMetadata options input);
    simpl; split; eauto; try discriminate.
  intros (? & [=]).
Qed.

End BatchRun.

(** One input under [concurrency: 1]: the run returns two results. *)
Lemma generateBatchIdentifiers_results_witness :
  exists winners : list nat,
    results sample_final_state
    = map (result_at sample_toISOString sample_digest sample_getGitHubMetadata
             sample_getLocalMetadata (map local_input ["a.js"])
             (options_with_concurrency 1))
          (winners ++ seq 0 (length (map local_input ["a.js"])))
    /\ length winners
       = (length (map local_input ["a.js"])
          - Z.to_nat (concurrency (options_with_concurrency 1) - 1))%nat
    /\ length (results sample_final_state)
       = (length (map local_input ["a.js"])
          - Z.to_nat (concurrency (options_with_concurrency 1) - 1)
          + length (map local_input ["a.js"]))%nat.
Proof.
  apply (generateBatchIdentifiers_results sample_toISOString sample_digest
           sample_getGitHubMetadata sample_getLocalMetadata
           (map local_input ["a.js"]) (options_with_concurrency 1)
           eq_refl [Tick; Settle 0; Tick; Tick; Tick] sample_final_state).
  - vm_compute. reflexivity.
  - vm_compute. reflexivity.
Defined.

Example sample_final_state_length :
  length (results sample_final_state) = 2%nat
  /\ length (map local_input ["a.js"]) = 1%nat.
Proof. vm_compute. auto. Qed.


(** C2 fails on the code. Three local inputs under [concurrency: 1],
    whatever the adapters answer: once the first item has settled the race
    of every later iteration is won at once by that same settled promise,
    so the second and the third item are both in flight together. *)
Theorem concurrency_bound_exceeded
    (toISOString : value -> option string)
    (digest : string -> string -> string -> string)
    (getGitHubMetadata : string -> string -> string -> string -> result value)
    (getLocalMetadata : string -> string -> result value) :
  exists st,
    exec toISOString digest getGitHubMetadata getLocalMetadata
      (map local_input ["a.js"; "b.js"; "c.js"]) (options_with_concurrency 1)
      [Tick; Settle 0; Tick; Tick; Tick; Tick]
      (init (map local_input ["a.js"; "b.js"; "c.js"])) = Some st
    /\ active st = 2%nat
    /\ Z.of_nat (active st) > concurrency (options_with_concurrency 1).
Proof.
  set (inputs := map local_input ["a.js"; "b.js"; "c.js"]).
  set (opts := options_with_concurrency 1).
  set (started :=
         {| st_pc := AwaitRace 0 None; processing := [RPromise 0]; results := [];
            promises := [Pending]; completed := 0; progress := [] |}).
  assert (Hstart : tick inputs opts (init inputs) = Some started)
    by (vm_compute; reflexivity).
  pose proof (settle_pending toISOString digest getGitHubMetadata getLocalMetadata
                inputs opts eq_refl 0 started (local_input "a.js")
                (CallLocal "/repo" "a.js") eq_refl eq_refl eq_refl) as Hsettle.
  change (exec toISOString digest getGitHubMetadata getLocalMetadata inputs opts
            [Tick; Settle 0; Tick; Tick; Tick; Tick] (init inputs))
    with (match tick inputs opts (init inputs) with
          | Some st1 =>
              match settle toISOString digest getGitHubMetadata getLocalMetadata
                      inputs opts 0 st1 with
              | Some st2 =>
                  exec toISOString digest getGitHubMetadata getLocalMetadata
                    inputs opts [Tick; Tick; Tick; Tick] st2
              | None => None
              end
          | None => None
          end).
  rewrite Hstart, Hsettle. clear Hstart Hsettle.
  generalize (item_result toISOString digest getGitHubMetadata getLocalMetadata
                opts (local_input "a.js")).
  intros r0. eexists. split; [vm_compute; reflexivity|].
  split; [reflexivity|]. vm_compute. reflexivity.
Qed.

Example createManifest_sample :
  createManifest [ok_item "a" "sha256:1"; error_item "b" "boom"; ok_item "a" "sha256:2"]
  = [("a", "sha256:2")].
Proof. reflexivity. Qed.
(** ** Paths in POSIX form *)

Lemma backslashes_to_slashes_none (s : string) :
  contains_char backslash (backslashes_to_slashes s) = false.
Proof.
  induction s as [|c r IH]; [reflexivity|].
  simpl. rewrite IH, orb_false_r.
  destruct (Ascii.eqb_spec c backslash) as [->|Hc]; [reflexivity|].
  now apply Ascii.eqb_neq.
Qed.

Lemma strip_leading_dot_slash_contains (c : ascii) (s : string) :
  contains_char c s = false ->
  contains_char c (strip_leading_dot_slash s) = false.
Proof.
  destruct s as [|a [|b r]]; try (intros H; exact H).
  unfold strip_leading_dot_slash.
  destruct (Ascii.eqb a "." && Ascii.eqb b slash); [|intros H; exact H].
  simpl. intros H. apply orb_false_elim in H as [_ H].
  now apply orb_false_elim in H as [_ H].
Qed.

Lemma strip_trailing_slashes_contains (c : ascii) (s : string) :
  contains_char c s = false ->
  contains_char c (strip_trailing_slashes s) = false.
Proof.
  induction s as [|a r IH]; [intros H; exact H|].
  simpl. intros H. apply orb_false_elim in H as [Ha Hr].
  specialize (IH Hr).
  destruct (strip_trailing_slashes r) as [|b r'].
  - destruct (Ascii.eqb a slash); [reflexivity|]. simpl. now rewrite Ha.
  - change (contains_char c (String a (String b r')))
      with (Ascii.eqb a c || contains_char c (String b r')).
    now rewrite Ha, IH.
Qed.

Lemma collapse_slashes_contains (c : ascii) (s : string) :
  contains_char c s = false ->
  contains_char c (collapse_slashes s) = false.
Proof.
  induction s as [|a r IH]; [intros H; exact H|].
  intros H. simpl in H. apply orb_false_elim in H as [Ha Hr].
  specialize (IH Hr).
  destruct r as [|b r'].
  - simpl. now rewrite Ha.
  - change (collapse_slashes (String a (String b r')))
      with (if Ascii.eqb a slash && Ascii.eqb b slash
            then collapse_slashes (String b r')
            else String a (collapse_slashes (String b r'))).
    destruct (Ascii.eqb a slash && Ascii.eqb b slash); [exact IH|].
    change (Ascii.eqb a c || contains_char c (collapse_slashes (String b r')) = false).
    now rewrite Ha, IH.
Qed.

Lemma collapse_slashes_cons2 (a b : ascii) (r : string) :
  collapse_slashes (String a (String b r))
  = if Ascii.eqb a slash && Ascii.eqb b slash
    then collapse_slashes (String b r)
    else String a (collapse_slashes (String b r)).
Proof. reflexivity. Qed.

(** The first character survives the collapse. *)
Lemma collapse_slashes_head (a : ascii) (r : string) :
  exists r', collapse_slashes (String a r) = String a r'.
Proof.
  revert a. induction r as [|b r IH]; intros a.
  - now exists "".
  - rewrite collapse_slashes_cons2.
    destruct (Ascii.eqb a slash && Ascii.eqb b slash) eqn:E.
    + apply andb_prop in E as [Ea Eb].
      apply Ascii.eqb_eq in Ea, Eb. subst a b. apply IH.
    + eexists. reflexivity.
Qed.

Lemma collapse_slashes_no_double (s : string) :
  has_double_slash (collapse_slashes s) = false.
Proof.
  induction s as [|a r IH]; [reflexivity|].
  destruct r as [|b r']; [reflexivity|].
  rewrite collapse_slashes_cons2.
  destruct (Ascii.eqb a slash && Ascii.eqb b slash) eqn:E; [exact IH|].
  destruct (collapse_slashes_head b r') as [t Ht].
  rewrite Ht in IH |- *.
  change (has_double_slash (String a (String b t)))
    with ((Ascii.eqb a slash && Ascii.eqb b slash) || has_double_slash (String b t)).
  now rewrite E, IH.
Qed.

Lemma last_char_cons (a : ascii) (b : ascii) (r : string) :
  last_char (String a (String b r)) = last_char (String b r).
Proof.
  change (last_char (String a (String b r)))
    with (match last_char (String b r) with Some d => Some d | None => Some a end).
  destruct (last_char (String b r)) eqn:E; [reflexivity|].
  simpl in E. destruct (last_char r); discriminate.
Qed.

Lemma collapse_slashes_last (s : string) :
  last_char (collapse_slashes s) = last_char s.
Proof.
  induction s as [|a r IH]; [reflexivity|].
  destruct r as [|b r']; [reflexivity|].
  rewrite collapse_slashes_cons2, last_char_cons.
  destruct (Ascii.eqb a slash && Ascii.eqb b slash); [exact IH|].
  destruct (collapse_slashes_head b r') as [t Ht].
  rewrite Ht in IH |- *. now rewrite last_char_cons.
Qed.

Lemma strip_trailing_slashes_last (s : string) :
  ends_with_slash (strip_trailing_slashes s) = false.
Proof.
  unfold ends_with_slash.
  induction s as [|a r IH]; [reflexivity|].
  simpl. destruct (strip_trailing_slashes r) as [|b r'] eqn:E.
  - destruct (Ascii.eqb a slash) eqn:Ea; [reflexivity|]. simpl. exact Ea.
  - now rewrite last_char_cons.
Qed.

Lemma normalizeFilePath_str (s : string) :
  normalizeFilePath (VStr s)
  = Ok (collapse_slashes
          (strip_trailing_slashes
             (strip_leading_dot_slash (backslashes_to_slashes s)))).
Proof. reflexivity. Qed.

Lemma normalizeFilePath_ok_inv (v : value) (p : string) :
  normalizeFilePath v = Ok p ->
  exists s, v = VStr s
    /\ p = collapse_slashes
             (strip_trailing_slashes
                (strip_leading_dot_slash (backslashes_to_slashes s))).
Proof.
  destruct v; try discriminate. intros [= <-]. eauto.
Qed.

Lemma normalized_path_clean (v : value) (p : string) :
  normalizeFilePath v = Ok p -> clean_path p = true.
Proof.
  intros H. apply normalizeFilePath_ok_inv in H as (s & -> & ->).
  unfold clean_path.
  rewrite collapse_slashes_contains, collapse_slashes_no_double; cycle 1.
  { apply strip_trailing_slashes_contains, strip_leading_dot_slash_contains,
      backslashes_to_slashes_none. }
  unfold ends_with_slash at 1. rewrite collapse_slashes_last.
  fold (ends_with_slash
          (strip_trailing_slashes (strip_leading_dot_slash (backslashes_to_slashes s)))).
  now rewrite strip_trailing_slashes_last.
Qed.

(** Each rewriting step leaves a path in POSIX form alone. *)
Lemma backslashes_to_slashes_id (s : string) :
  contains_char backslash s = false -> backslashes_to_slashes s = s.
Proof.
  induction s as [|c r IH]; [reflexivity|].
  simpl. intros H. apply orb_false_elim in H as [Hc Hr].
  now rewrite Hc, IH.
Qed.

Lemma strip_leading_dot_slash_id (s : string) :
  starts_with_dot_slash s = false -> strip_leading_dot_slash s = s.
Proof.
  destruct s as [|a [|b r]]; try reflexivity.
  unfold starts_with_dot_slash, strip_leading_dot_slash. now intros ->.
Qed.

Lemma strip_trailing_slashes_id (s : string) :
  ends_with_slash s = false -> strip_trailing_slashes s = s.
Proof.
  unfold ends_with_slash.
  induction s as [|a r IH]; [reflexivity|].
  destruct r as [|b r'].
  - simpl. now intros ->.
  - rewrite last_char_cons. intros H. specialize (IH H).
    change (strip_trailing_slashes (String a (String b r')))
      with (match strip_trailing_slashes (String b r') with
            | EmptyString =>
                if Ascii.eqb a slash then EmptyString else String a EmptyString
            | r'' => String a r''
            end).
    now rewrite IH.
Qed.

Lemma collapse_slashes_id (s : string) :
  has_double_slash s = false -> collapse_slashes s = s.
Proof.
  induction s as [|a r IH]; [reflexivity|].
  destruct r as [|b r']; [reflexivity|].
  change (has_double_slash (String a (String b r')))
    with ((Ascii.eqb a slash && Ascii.eqb b slash) || has_double_slash (String b r')).
  intros H. apply orb_false_elim in H as [E H].
  now rewrite collapse_slashes_cons2, E, IH.
Qed.

Lemma clean_path_fixed (p : string) :
  clean_path p = true -> starts_with_dot_slash p = false ->
  normalizeFilePath (VStr p) = Ok p.
Proof.
  unfold clean_path. intros H Hd.
  apply andb_prop in H as [H He]. apply andb_prop in H as [Hb Hs].
  apply negb_true_iff in Hb, Hs, He.
  rewrite normalizeFilePath_str, backslashes_to_slashes_id by exact Hb.
  rewrite strip_leading_dot_slash_id by exact Hd.
  rewrite strip_trailing_slashes_id by exact He.
  now rewrite collapse_slashes_id by exact Hs.
Qed.

Lemma backslashes_to_slashes_length (s : string) :
  String.length (backslashes_to_slashes s) = String.length s.
Proof. induction s as [|c r IH]; simpl; congruence. Qed.

Lemma strip_trailing_slashes_length (s : string) :
  (String.length (strip_trailing_slashes s) <= String.length s)%nat.
Proof.
  induction s as [|a r IH]; [simpl; lia|].
  simpl. destruct (strip_trailing_slashes r) as [|b r'].
  - destruct (Ascii.eqb a slash); simpl; lia.
  - simpl in *. lia.
Qed.

Lemma collapse_slashes_length (s : string) :
  (String.length (collapse_slashes s) <= String.length s)%nat.
Proof.
  induction s as [|a r IH]; [simpl; lia|].
  destruct r as [|b r']; [simpl; lia|].
  rewrite collapse_slashes_cons2.
  destruct (Ascii.eqb a slash && Ascii.eqb b slash).
  - change (String.length (String a (String b r')))
      with (S (String.length (String b r'))). lia.
  - change (String.length (String a (collapse_slashes (String b r'))))
      with (S (String.length (collapse_slashes (String b r')))).
    change (String.length (String a (String b r')))
      with (S (String.length (String b r'))). lia.
Qed.

(** X1. What [normalizeFilePath] returns is in POSIX form: it holds no
    backslash, no two slashes in a row and no trailing slash. *)
Theorem normalizeFilePath_clean (filePath : value) (p : string) :
  normalizeFilePath filePath = Ok p ->
  contains_char backslash p = false
  /\ has_double_slash p = false
  /\ ends_with_slash p = false.
Proof.
  intros H. apply normalized_path_clean in H.
  unfold clean_path in H.
  apply andb_prop in H as [H He]. apply andb_prop in H as [Hb Hs].
  now apply negb_true_iff in Hb, Hs, He.
Qed.

Lemma normalizeFilePath_clean_witness :
  contains_char backslash "src/lib/a.js" = false
  /\ has_double_slash "src/lib/a.js" = false
  /\ ends_with_slash "src/lib/a.js" = false.
Proof.
  apply (normalizeFilePath_clean (VStr ("src" ++ String backslash "lib//a.js/"))).
  reflexivity.
Defined.

(** X2. The paths [normalizeFilePath] leaves as they are, are exactly the
    paths in POSIX form that do not begin with "./". *)
Theorem normalizeFilePath_fixed_points (p : string) :
  normalizeFilePath (VStr p) = Ok p
  <-> clean_path p = true /\ starts_with_dot_slash p = false.
Proof.
  split.
  - intros H. split; [now apply (normalized_path_clean (VStr p))|].
    destruct (starts_with_dot_slash p) eqn:E; [exfalso|reflexivity].
    rewrite normalizeFilePath_str in H. injection H as H.
    apply (f_equal String.length) in H.
    pose proof (collapse_slashes_length
                  (strip_trailing_slashes
                     (strip_leading_dot_slash (backslashes_to_slashes p)))) as H1.
    pose proof (strip_trailing_slashes_length
                  (strip_leading_dot_slash (backslashes_to_slashes p))) as H2.
    assert (H3 : (S (S (String.length
                         (strip_leading_dot_slash (backslashes_to_slashes p))))
                  = String.length p)%nat).
    { destruct p as [|a [|b r]]; try discriminate.
      unfold starts_with_dot_slash in E. apply andb_prop in E as [Ea Eb].
      apply Ascii.eqb_eq in Ea, Eb. subst a b.
      simpl. now rewrite backslashes_to_slashes_length. }
    lia.
  - intros [Hc Hd]. now apply clean_path_fixed.
Qed.

Lemma normalizeFilePath_fixed_points_witness :
  clean_path "src/lib/a.js" = true /\ starts_with_dot_slash "src/lib/a.js" = false.
Proof.
  apply (proj1 (normalizeFilePath_fixed_points "src/lib/a.js")). reflexivity.
Defined.
(** ** The normalized record, property by property *)

Lemma is_hex_digit_lower (c : ascii) : is_hex_digit (lower_char c) = is_hex_digit c.
Proof. destruct c as [[] [] [] [] [] [] [] []]; reflexivity. Qed.

Lemma lower_char_idem (c : ascii) : lower_char (lower_char c) = lower_char c.
Proof. destruct c as [[] [] [] [] [] [] [] []]; reflexivity. Qed.

Lemma toLowerCase_idem (s : string) : toLowerCase (toLowerCase s) = toLowerCase s.
Proof. induction s as [|c r IH]; simpl; [|rewrite lower_char_idem, IH]; reflexivity. Qed.

Lemma toLowerCase_length (s : string) :
  String.length (toLowerCase s) = String.length s.
Proof. induction s as [|c r IH]; simpl; congruence. Qed.

Lemma isValidGitHash_lower (s : string) :
  isValidGitHash (VStr (toLowerCase s)) = isValidGitHash (VStr s).
Proof.
  unfold isValidGitHash. rewrite toLowerCase_length. f_equal.
  induction s as [|c r IH]; [reflexivity|].
  simpl. now rewrite is_hex_digit_lower, IH.
Qed.

Lemma isValidGitHash_string (v : value) :
  isValidGitHash v = true -> exists s, v = VStr s.
Proof. destruct v; try discriminate. eauto. Qed.

Lemma validateGitHash_ok (v : value) (name : string) :
  isValidGitHash v = true -> validateGitHash v name = Ok tt.
Proof. unfold validateGitHash. now intros ->. Qed.

Lemma obj_get_absent (k : string) (o : props) :
  ~ In k (obj_keys o) -> obj_get k o = VUndefined.
Proof.
  induction o as [|[k0 v0] o IH]; [reflexivity|].
  simpl. intros H. destruct (String.eqb_spec k0 k) as [->|Hne]; [tauto|].
  apply IH. tauto.
Qed.

Lemma obj_get_filter_defined (k : string) (o : props) :
  List.NoDup (obj_keys o) ->
  obj_get k (List.filter (fun kv => negb (is_undefined (snd kv))) o) = obj_get k o.
Proof.
  induction o as [|[k0 v0] o IH]; [reflexivity|].
  intros Hnd. inversion Hnd as [|? ? Hnotin Hnd']; subst.
  cbn [List.filter snd]. destruct (is_undefined v0) eqn:E; cbn [negb obj_get].
  - destruct (String.eqb_spec k0 k) as [->|Hne]; [|now apply IH].
    destruct v0; try discriminate.
    apply obj_get_absent. intros Hin. apply Hnotin.
    now apply filter_keys_sublist in Hin.
  - destruct (String.eqb k0 k); [reflexivity|now apply IH].
Qed.

Lemma obj_get_tabulate (f : string -> value) (k : string) (ks : list string) :
  obj_get k (map (fun k => (k, f k)) ks)
  = if existsb (String.eqb k) ks then f k else VUndefined.
Proof.
  induction ks as [|k0 ks IH]; [reflexivity|].
  cbn [map obj_get existsb]. rewrite String.eqb_sym.
  destruct (String.eqb_spec k k0) as [->|Hne]; [reflexivity|exact IH].
Qed.

Lemma get_prop_shape (f : string -> value) (k : string) :
  get_prop k (VObj (shape f))
  = if existsb (String.eqb k) field_order then f k else VUndefined.
Proof.
  unfold shape. cbn [get_prop]. rewrite obj_get_filter_defined.
  - apply obj_get_tabulate.
  - unfold obj_keys. rewrite map_map. cbn [fst]. rewrite map_id.
    unfold field_order. repeat constructor; simpl; intuition discriminate.
Qed.

Lemma check_required_object (m : value) :
  check_required m requiredFields = Ok tt -> exists o, m = VObj o.
Proof.
  intros H. pose proof (check_required_ok _ _ H "source" ltac:(simpl; tauto)) as Ht.
  destruct m; try discriminate. eauto.
Qed.

Section NormalizedFields.

Variable toISOString : value -> option string.

Lemma normalize_timestamp_cases (v la : value) :
  normalize_timestamp toISOString v = Ok la ->
  (truthy v = false /\ la = v)
  \/ (truthy v = true /\ exists iso, toISOString v = Some iso /\ la = VStr iso).
Proof.
  unfold normalize_timestamp. destruct (truthy v).
  - destruct (toISOString v) as [iso|]; [|discriminate].
    intros [= <-]. right. eauto.
  - intros [= <-]. now left.
Qed.

(** The record built and pruned is the record of the expected fields. *)
Lemma built_record_shape (rawMeta la : value) (c f s : string) :
  check_required rawMeta requiredFields = Ok tt ->
  get_prop "commitHash" rawMeta = VStr c ->
  get_prop "fileHash" rawMeta = VStr f ->
  get_prop "filePath" rawMeta = VStr s ->
  normalize_timestamp toISOString (get_prop "lastModified" rawMeta) = Ok la ->
  forall p, normalizeFilePath (VStr s) = Ok p ->
  remove_nullish
    (built_record rawMeta (VStr (toLowerCase c)) (VStr (toLowerCase f)) p la)
  = shape (expected_field toISOString rawMeta).
Proof.
  intros Hreq Hc Hf Hs Hla p Hp.
  pose proof (check_required_ok _ _ Hreq) as Ht.
  assert (Hb := truthy_not_nullish _ (Ht "branch" ltac:(simpl; tauto))).
  assert (Ho := truthy_not_nullish _ (Ht "owner" ltac:(simpl; tauto))).
  assert (Hr := truthy_not_nullish _ (Ht "repo" ltac:(simpl; tauto))).
  assert (Hsrc := truthy_not_nullish _ (Ht "source" ltac:(simpl; tauto))).
  clear Ht Hreq.
  unfold shape, field_order. cbn [map].
  unfold expected_field.
  cbn [String.eqb Ascii.eqb Bool.eqb orb existsb].
  rewrite Hc, Hf, Hs, Hp, Hla.
  unfold built_record.
  assert (Hd : is_nullish la = false -> drop_nullish la = la)
    by (unfold drop_nullish; now intros ->).
  assert (Hd' : is_nullish la = true -> drop_nullish la = VUndefined)
    by (unfold drop_nullish; now intros ->).
  destruct (truthy (get_prop "htmlUrl" rawMeta)) eqn:Hh;
  destruct (truthy (get_prop "repoPath" rawMeta)) eqn:Hrp;
  destruct (is_nullish la) eqn:Hl.
  all: try rewrite (Hd eq_refl); try rewrite (Hd' eq_refl); clear Hd Hd'.
  all: try apply truthy_not_nullish in Hh; try apply truthy_not_nullish in Hrp.
  all: clear Hc Hf Hs Hla.
  all: revert Hb Ho Hr Hsrc Hh Hrp.
  all: generalize (get_prop "branch" rawMeta) (get_prop "owner" rawMeta)
         (get_prop "repo" rawMeta) (get_prop "source" rawMeta)
         (get_prop "htmlUrl" rawMeta) (get_prop "repoPath" rawMeta).
  all: intros vb vo vr vs vh vp Hb Ho Hr Hsrc Hh Hrp.
  all: assert (Hcl : is_nullish (VStr (toLowerCase c)) = false) by reflexivity.
  all: assert (Hfl : is_nullish (VStr (toLowerCase f)) = false) by reflexivity.
  all: assert (Hpl : is_nullish (VStr p) = false) by reflexivity.
  all: rewrite remove_nullish_filter
         by (simpl; repeat constructor; simpl; intuition discriminate).
  all: cbn [obj_assign obj_set String.eqb Ascii.eqb Bool.eqb].
  all: filter_steps.
  all: cbn [List.filter].
  all: reflexivity.
Qed.

(** When [normalizeMetadata] returns, and what. *)
Lemma normalizeMetadata_fields (rawMeta normalized : value) :
  normalizeMetadata toISOString rawMeta = Ok normalized
  <-> check_required rawMeta requiredFields = Ok tt
      /\ isValidGitHash (get_prop "commitHash" rawMeta) = true
      /\ isValidGitHash (get_prop "fileHash" rawMeta) = true
      /\ (exists s, get_prop "filePath" rawMeta = VStr s)
      /\ (exists la, normalize_timestamp toISOString
                       (get_prop "lastModified" rawMeta) = Ok la)
      /\ normalized = VObj (shape (expected_field toISOString rawMeta)).
Proof.
  split.
  - intros H. apply normalizeMetadata_ok_inv in H
      as (p & la & ca & fa & Hreq & Hvc & Hvf & Hp & Hla & Hca & Hfa & ->).
    destruct (isValidGitHash_string _ Hvc) as [c Hc].
    destruct (isValidGitHash_string _ Hvf) as [f Hf].
    destruct (normalizeFilePath_ok_inv _ _ Hp) as (s & Hs & _).
    rewrite Hc in Hca. rewrite Hf in Hfa. simpl in Hca, Hfa.
    injection Hca as <-. injection Hfa as <-.
    repeat split; eauto.
    f_equal. rewrite Hs in Hp. now apply built_record_shape with (s := s).
  - intros (Hreq & Hvc & Hvf & [s Hs] & [la Hla] & ->).
    destruct (check_required_object _ Hreq) as [o ->].
    destruct (isValidGitHash_string _ Hvc) as [c Hc].
    destruct (isValidGitHash_string _ Hvf) as [f Hf].
    rewrite <- (built_record_shape (VObj o) la c f s Hreq Hc Hf Hs Hla _
                  (normalizeFilePath_str s)).
    unfold normalizeMetadata.
    cbn [truthy typeof String.eqb Ascii.eqb Bool.eqb negb orb].
    rewrite Hreq. cbn [mbind result_bind].
    rewrite (validateGitHash_ok _ _ Hvc), (validateGitHash_ok _ _ Hvf).
    cbn [mbind result_bind].
    rewrite Hs, normalizeFilePath_str. cbn [mbind result_bind].
    rewrite Hla. cbn [mbind result_bind].
    rewrite Hc. cbn [mbind result_bind call_toLowerCase].
    rewrite Hf. cbn [mbind result_bind call_toLowerCase].
    reflexivity.
Qed.

End NormalizedFields.
Lemma check_required_truthy (m : value) (fields : list string) :
  (forall f, In f fields -> truthy (get_prop f m) = true) ->
  check_required m fields = Ok tt.
Proof.
  induction fields as [|f fields IH]; [reflexivity|].
  intros H. simpl. rewrite (H f) by (simpl; tauto). simpl.
  apply IH. intros g Hg. apply H. simpl. tauto.
Qed.

Lemma isValidGitHash_truthy (v : value) :
  isValidGitHash v = true -> truthy v = true.
Proof.
  destruct v as [| | | |s| |]; try discriminate.
  destruct s; [discriminate|reflexivity].
Qed.

Lemma shape_keys (f : string -> value) (k : string) :
  In k (obj_keys (shape f)) -> In k field_order /\ is_undefined (f k) = false.
Proof.
  unfold shape, obj_keys. rewrite in_map_iff.
  intros ([k' v] & <- & Hin). apply filter_In in Hin as [Hin Hv].
  apply in_map_iff in Hin as (k0 & [= <- <-] & Hk0).
  split; [exact Hk0|]. now apply negb_true_iff in Hv.
Qed.

Ltac each_field H :=
  repeat (destruct H as [<- | H]; [|try contradiction]); try contradiction.

Section NormalizerProperties.

Variable toISOString : value -> option string.

Lemma expected_field_not_null (rawMeta : value) (k : string) :
  check_required rawMeta requiredFields = Ok tt ->
  is_undefined (expected_field toISOString rawMeta k) = false ->
  is_nullish (expected_field toISOString rawMeta k) = false.
Proof.
  intros Hreq. pose proof (check_required_ok _ _ Hreq) as Ht.
  unfold expected_field.
  destruct (String.eqb k "commitHash" || String.eqb k "fileHash").
  { destruct (get_prop k rawMeta); auto. }
  destruct (String.eqb k "filePath").
  { destruct (normalizeFilePath (get_prop k rawMeta)); auto. }
  destruct (String.eqb k "lastModified").
  { destruct (normalize_timestamp toISOString (get_prop k rawMeta)) as [v|]; auto.
    unfold drop_nullish. destruct (is_nullish v) eqn:E; auto. }
  destruct (String.eqb k "htmlUrl" || String.eqb k "repoPath").
  { destruct (truthy (get_prop k rawMeta)) eqn:E; auto.
    intros _. now apply truthy_not_nullish. }
  destruct (existsb _ _) eqn:E; [|auto].
  apply existsb_exists in E as (k' & Hin & Heq).
  apply String.eqb_eq in Heq. subst k'. intros _.
  apply truthy_not_nullish, Ht. simpl in *. tauto.
Qed.

(** X3. A record returned by [normalizeMetadata] has valid, lower-case
    hashes and a file path in POSIX form; it has no property outside the ten
    of the schema, and no property that is null or undefined. *)
Theorem normalizeMetadata_postconditions (rawMeta normalized : value) :
  normalizeMetadata toISOString rawMeta = Ok normalized ->
  exists c f p,
    get_prop "commitHash" normalized = VStr c
    /\ isValidGitHash (VStr c) = true /\ toLowerCase c = c
    /\ get_prop "fileHash" normalized = VStr f
    /\ isValidGitHash (VStr f) = true /\ toLowerCase f = f
    /\ get_prop "filePath" normalized = VStr p /\ clean_path p = true
    /\ forall k, In k (obj_keys (get_props normalized)) ->
         In k field_order /\ is_nullish (get_prop k normalized) = false.
Proof.
  intros H. apply normalizeMetadata_fields in H
    as (Hreq & Hvc & Hvf & [s Hs] & [la Hla] & ->).
  destruct (isValidGitHash_string _ Hvc) as [c Hc].
  destruct (isValidGitHash_string _ Hvf) as [f Hf].
  exists (toLowerCase c), (toLowerCase f).
  destruct (normalizeFilePath (VStr s)) as [p|] eqn:Hp; [|discriminate].
  exists p.
  rewrite !get_prop_shape. cbn [existsb field_order String.eqb Ascii.eqb Bool.eqb orb].
  unfold expected_field at 1 2 3.
  cbn [String.eqb Ascii.eqb Bool.eqb orb].
  rewrite Hc, Hf, Hs, Hp, !isValidGitHash_lower, !toLowerCase_idem, <- Hc, <- Hf.
  repeat split; auto.
  - now apply (normalized_path_clean (VStr s)).
  - now apply shape_keys in H.
  - apply shape_keys in H as [Hk Hu].
    rewrite get_prop_shape.
    assert (E : existsb (String.eqb k) field_order = true).
    { apply existsb_exists. exists k. split; [exact Hk|apply String.eqb_refl]. }
    rewrite E. now apply expected_field_not_null.
Qed.

Lemma expected_field_ext (a b : value) :
  (forall k, In k field_order ->
     expected_field toISOString a k = expected_field toISOString b k) ->
  shape (expected_field toISOString a) = shape (expected_field toISOString b).
Proof.
  intros H. unfold shape. f_equal. apply map_ext_in. intros k Hk.
  now rewrite H.
Qed.

Lemma backslashes_to_slashes_empty (s t : string) :
  backslashes_to_slashes s = backslashes_to_slashes t ->
  truthy (VStr s) = truthy (VStr t).
Proof. destruct s, t; try discriminate; reflexivity. Qed.

Lemma same_record_fields (a b : value) :
  same_record a b ->
  forall k, In k field_order ->
    expected_field toISOString a k = expected_field toISOString b k.
Proof.
  intros ((c1 & c2 & Hc1 & Hc2 & Hc) & (f1 & f2 & Hf1 & Hf2 & Hf)
          & (s1 & s2 & Hs1 & Hs2 & Hs) & Hrest) k Hk.
  assert (H1 := Hrest "branch" ltac:(simpl; tauto)).
  assert (H2 := Hrest "lastModified" ltac:(simpl; tauto)).
  assert (H3 := Hrest "owner" ltac:(simpl; tauto)).
  assert (H4 := Hrest "repo" ltac:(simpl; tauto)).
  assert (H5 := Hrest "source" ltac:(simpl; tauto)).
  assert (H6 := Hrest "htmlUrl" ltac:(simpl; tauto)).
  assert (H7 := Hrest "repoPath" ltac:(simpl; tauto)).
  unfold field_order in Hk. simpl in Hk.
  each_field Hk; unfold expected_field;
    cbn [String.eqb Ascii.eqb Bool.eqb orb existsb].
  all: try (rewrite ?H1, ?H2, ?H3, ?H4, ?H5, ?H6, ?H7; reflexivity).
  - now rewrite Hc1, Hc2, Hc.
  - now rewrite Hf1, Hf2, Hf.
  - now rewrite Hs1, Hs2, !normalizeFilePath_str, Hs.
Qed.

Lemma same_record_normalized (a b normalized : value) :
  normalizeMetadata toISOString a = Ok normalized ->
  same_record a b ->
  normalizeMetadata toISOString b = Ok normalized.
Proof.
  intros H Hsame. pose proof (same_record_fields a b Hsame) as Hfields.
  apply normalizeMetadata_fields in H
    as (Hreq & Hvc & Hvf & [s Hs] & [la Hla] & ->).
  destruct Hsame as ((c1 & c2 & Hc1 & Hc2 & Hc) & (f1 & f2 & Hf1 & Hf2 & Hf)
          & (s1 & s2 & Hs1 & Hs2 & Hs') & Hrest).
  assert (Hvc' : isValidGitHash (get_prop "commitHash" b) = true).
  { rewrite Hc2, <- isValidGitHash_lower, <- Hc, isValidGitHash_lower, <- Hc1.
    exact Hvc. }
  assert (Hvf' : isValidGitHash (get_prop "fileHash" b) = true).
  { rewrite Hf2, <- isValidGitHash_lower, <- Hf, isValidGitHash_lower, <- Hf1.
    exact Hvf. }
  pose proof (check_required_ok _ _ Hreq) as Ht.
  apply normalizeMetadata_fields. repeat split.
  - apply check_required_truthy. intros k Hk.
    unfold requiredFields in Hk. simpl in Hk. each_field Hk.
    all: try (rewrite <- Hrest by (simpl; tauto); apply Ht; simpl; tauto).
    + now apply isValidGitHash_truthy.
    + rewrite Hs2, <- (backslashes_to_slashes_empty _ _ Hs'), <- Hs1.
      apply Ht. simpl. tauto.
    + now apply isValidGitHash_truthy.
  - exact Hvc'.
  - exact Hvf'.
  - eauto.
  - exists la. now rewrite <- (Hrest "lastModified") by (simpl; tauto).
  - f_equal. now apply expected_field_ext.
Qed.

(** X4. Two raw records that agree on the ten properties the normalizer
    reads, up to the case of the two hashes and the separator of the path
    (the order of their keys and any further property being free), have the
    same normalized record and the same identifier under the same
    options. *)
Theorem normalizeMetadata_same_record
    (digest : string -> string -> string -> string)
    (a b normalized : value) (options : props) :
  normalizeMetadata toISOString a = Ok normalized ->
  same_record a b ->
  normalizeMetadata toISOString b = Ok normalized
  /\ generateIdentifier toISOString digest a options
     = generateIdentifier toISOString digest b options.
Proof.
  intros H Hsame. pose proof (same_record_normalized a b _ H Hsame) as H'.
  split; [exact H'|].
  unfold generateIdentifier. now rewrite H, H'.
Qed.

Lemma drop_nullish_falsy (v : value) :
  truthy v = false -> truthy (drop_nullish v) = false.
Proof. destruct v; auto. Qed.

Lemma drop_nullish_idem (v : value) : drop_nullish (drop_nullish v) = drop_nullish v.
Proof. destruct v; auto. Qed.

Lemma field_order_existsb (k : string) :
  In k field_order -> existsb (String.eqb k) field_order = true.
Proof.
  intros Hk. apply existsb_exists. exists k. split; [exact Hk|apply String.eqb_refl].
Qed.

(** X5. Normalizing a normalized record gives the record back when its
    path is not empty and does not begin with "./", and the date conversion
    leaves its own result alone. *)
Theorem normalizeMetadata_idempotent (rawMeta normalized : value) (p : string) :
  normalizeMetadata toISOString rawMeta = Ok normalized ->
  get_prop "filePath" normalized = VStr p ->
  p <> "" ->
  starts_with_dot_slash p = false ->
  stable_timestamp toISOString (get_prop "lastModified" normalized) ->
  normalizeMetadata toISOString normalized = Ok normalized.
Proof.
  intros H Hp Hne Hdot Hstable.
  apply normalizeMetadata_fields in H
    as (Hreq & Hvc & Hvf & [s Hs] & [la Hla] & ->).
  destruct (isValidGitHash_string _ Hvc) as [c Hc].
  destruct (isValidGitHash_string _ Hvf) as [f Hf].
  pose proof (check_required_ok _ _ Hreq) as Ht.
  set (n := VObj (shape (expected_field toISOString rawMeta))) in *.
  assert (Hget : forall k, In k field_order ->
            get_prop k n = expected_field toISOString rawMeta k).
  { intros k Hk. unfold n. now rewrite get_prop_shape, field_order_existsb. }
  assert (Hnc : get_prop "commitHash" n = VStr (toLowerCase c)).
  { rewrite Hget by (simpl; tauto). unfold expected_field.
    cbn [String.eqb Ascii.eqb Bool.eqb orb]. now rewrite Hc. }
  assert (Hnf : get_prop "fileHash" n = VStr (toLowerCase f)).
  { rewrite Hget by (simpl; tauto). unfold expected_field.
    cbn [String.eqb Ascii.eqb Bool.eqb orb]. now rewrite Hf. }
  assert (Hpath : normalizeFilePath (VStr s) = Ok p).
  { rewrite Hget in Hp by (simpl; tauto). unfold expected_field in Hp.
    cbn [String.eqb Ascii.eqb Bool.eqb orb] in Hp. rewrite Hs in Hp.
    destruct (normalizeFilePath (VStr s)); congruence. }
  assert (Hfixed : normalizeFilePath (VStr p) = Ok p).
  { apply clean_path_fixed; [|exact Hdot].
    now apply (normalized_path_clean (VStr s)). }
  assert (Hnl : get_prop "lastModified" n = drop_nullish la).
  { rewrite Hget by (simpl; tauto). unfold expected_field.
    cbn [String.eqb Ascii.eqb Bool.eqb orb]. now rewrite Hla. }
  assert (Hts : normalize_timestamp toISOString (get_prop "lastModified" n)
                = Ok (get_prop "lastModified" n)).
  { unfold normalize_timestamp.
    destruct (truthy (get_prop "lastModified" n)) eqn:E; [|reflexivity].
    apply normalize_timestamp_cases in Hla as [[Hfalsy ->]|[_ (iso & _ & ->)]].
    - rewrite Hnl in E. now rewrite drop_nullish_falsy in E.
    - rewrite Hnl in *. cbn [drop_nullish is_nullish] in *.
      rewrite (Hstable iso eq_refl); [reflexivity|].
      intros ->. discriminate. }
  assert (Hsimple : forall k, In k ["branch"; "owner"; "repo"; "source"] ->
            get_prop k n = get_prop k rawMeta).
  { intros k Hk. rewrite Hget by (unfold field_order; simpl in *; tauto).
    simpl in Hk. each_field Hk; reflexivity. }
  assert (Hopt : forall k, In k ["htmlUrl"; "repoPath"] ->
            get_prop k n
            = if truthy (get_prop k rawMeta) then get_prop k rawMeta else VUndefined).
  { intros k Hk. rewrite Hget by (unfold field_order; simpl in *; tauto).
    simpl in Hk. each_field Hk; reflexivity. }
  apply normalizeMetadata_fields. repeat split.
  - apply check_required_truthy. intros k Hk.
    unfold requiredFields in Hk. simpl in Hk. each_field Hk.
    all: try (rewrite Hsimple by (simpl; tauto); apply Ht; simpl; tauto).
    + rewrite Hnc. apply isValidGitHash_truthy.
      now rewrite isValidGitHash_lower, <- Hc.
    + rewrite Hp. destruct p; [congruence|reflexivity].
    + rewrite Hnf. apply isValidGitHash_truthy.
      now rewrite isValidGitHash_lower, <- Hf.
  - now rewrite Hnc, isValidGitHash_lower, <- Hc.
  - now rewrite Hnf, isValidGitHash_lower, <- Hf.
  - eauto.
  - eauto.
  - fold n. unfold n at 1. f_equal. apply expected_field_ext.
    intros k Hk. unfold field_order in Hk. simpl in Hk.
    each_field Hk; unfold expected_field;
      cbn [String.eqb Ascii.eqb Bool.eqb orb existsb].
    + now rewrite Hsimple by (simpl; tauto).
    + now rewrite Hnc, Hc, toLowerCase_idem.
    + now rewrite Hnf, Hf, toLowerCase_idem.
    + now rewrite Hp, Hfixed, Hs, Hpath.
    + now rewrite Hts, Hla, Hnl, drop_nullish_idem.
    + now rewrite Hsimple by (simpl; tauto).
    + now rewrite Hsimple by (simpl; tauto).
    + now rewrite Hsimple by (simpl; tauto).
    + rewrite Hopt by (simpl; tauto).
      destruct (truthy (get_prop "htmlUrl" rawMeta)) eqn:E; [now rewrite E|reflexivity].
    + rewrite Hopt by (simpl; tauto).
      destruct (truthy (get_prop "repoPath" rawMeta)) eqn:E; [now rewrite E|reflexivity].
Qed.

End NormalizerProperties.

Lemma normalizeMetadata_postconditions_witness :
  exists c f p,
    get_prop "commitHash" (sample_normalized "src/a.js") = VStr c
    /\ isValidGitHash (VStr c) = true /\ toLowerCase c = c
    /\ get_prop "fileHash" (sample_normalized "src/a.js") = VStr f
    /\ isValidGitHash (VStr f) = true /\ toLowerCase f = f
    /\ get_prop "filePath" (sample_normalized "src/a.js") = VStr p
    /\ clean_path p = true
    /\ forall k, In k (obj_keys (get_props (sample_normalized "src/a.js"))) ->
         In k field_order
         /\ is_nullish (get_prop k (sample_normalized "src/a.js")) = false.
Proof.
  apply (normalizeMetadata_postconditions sample_toISOString sample_meta_windows).
  reflexivity.
Defined.

Lemma normalizeMetadata_same_record_witness :
  normalizeMetadata sample_toISOString sample_meta_windows
  = Ok (sample_normalized "src/a.js")
  /\ generateIdentifier sample_toISOString sample_digest (sample_meta "src/a.js") []
     = generateIdentifier sample_toISOString sample_digest sample_meta_windows [].
Proof.
  apply (normalizeMetadata_same_record sample_toISOString sample_digest
           (sample_meta "src/a.js") sample_meta_windows).
  - reflexivity.
  - repeat split.
    + do 2 eexists. repeat split; reflexivity.
    + do 2 eexists. repeat split; reflexivity.
    + do 2 eexists. repeat split; reflexivity.
    + intros k Hk. simpl in Hk. each_field Hk; reflexivity.
Defined.

Lemma normalizeMetadata_idempotent_witness :
  normalizeMetadata sample_toISOString (sample_normalized "src/a.js")
  = Ok (sample_normalized "src/a.js").
Proof.
  apply (normalizeMetadata_idempotent sample_toISOString sample_meta_windows
           (sample_normalized "src/a.js") "src/a.js").
  - reflexivity.
  - reflexivity.
  - discriminate.
  - reflexivity.
  - intros s [= <-] _. reflexivity.
Defined.
(** ** Sorted keys *)

Lemma obj_set_keys_present (key : string) (v : value) (o : props) :
  In key (obj_keys o) -> obj_keys (obj_set key v o) = obj_keys o.
Proof.
  induction o as [|[k w] o IH]; [contradiction|].
  simpl. destruct (String.eqb_spec k key) as [->|Hne]; [reflexivity|].
  intros [H|H]; [contradiction|]. simpl. f_equal. now apply IH.
Qed.

Lemma obj_get_assign (key k : string) (v : value) (o : props) :
  obj_get k (obj_assign key v o)
  = if String.eqb key "__proto__" then obj_get k o
    else if String.eqb key k then v else obj_get k o.
Proof.
  unfold obj_assign. destruct (String.eqb key "__proto__"); [reflexivity|].
  destruct (String.eqb_spec key k) as [->|Hne].
  - apply obj_get_set_eq.
  - apply obj_get_set_ne. congruence.
Qed.

Section AssignLoop.

(** The loop [for (const key of keys) sorted[key] = g(key)]. *)
Variable g : string -> value.

Local Abbreviation loop :=
  (fold_left (fun sorted key => obj_assign key (g key) sorted)).

Lemma assign_loop_get (keys : list string) (sorted : props) (k : string) :
  k <> "__proto__" ->
  obj_get k (loop keys sorted)
  = if existsb (String.eqb k) keys then g k else obj_get k sorted.
Proof.
  intros Hk. revert sorted. induction keys as [|k0 keys IH]; intros sorted.
  - reflexivity.
  - cbn [fold_left existsb]. rewrite IH, obj_get_assign.
    rewrite (String.eqb_sym k k0).
    destruct (existsb (String.eqb k) keys); [now rewrite orb_true_r|].
    rewrite orb_false_r.
    destruct (String.eqb_spec k0 k) as [->|Hne].
    + apply String.eqb_neq in Hk. now rewrite Hk.
    + now destruct (String.eqb k0 "__proto__").
Qed.

Lemma assign_loop_keys (keys : list string) (sorted : props) (k : string) :
  In k (obj_keys (loop keys sorted))
  <-> In k (obj_keys sorted) \/ (In k keys /\ k <> "__proto__").
Proof.
  revert sorted. induction keys as [|k0 keys IH]; intros sorted.
  - simpl. tauto.
  - cbn [fold_left]. rewrite IH. unfold obj_assign.
    destruct (String.eqb_spec k0 "__proto__") as [->|Hp].
    + simpl. intuition congruence.
    + destruct (in_dec string_dec k0 (obj_keys sorted)) as [Hin|Hnot].
      * rewrite obj_set_keys_present by exact Hin. simpl.
        intuition (subst; auto).
      * rewrite obj_set_fresh by exact Hnot. unfold obj_keys.
        rewrite map_app, in_app_iff. simpl. intuition (subst; auto).
Qed.

Lemma StronglySorted_snoc (l : list string) (k : string) :
  StronglySorted key_lt l -> (forall a, In a l -> key_lt a k) ->
  StronglySorted key_lt (l ++ [k]).
Proof.
  induction 1 as [|a l Hs IH Ha]; intros Hk.
  - repeat constructor.
  - simpl. constructor.
    + apply IH. intros b Hb. apply Hk. now right.
    + apply List.Forall_app. split; [exact Ha|].
      constructor; [|constructor]. apply Hk. now left.
Qed.

Lemma assign_loop_sorted (keys : list string) (sorted : props) :
  StronglySorted key_le keys ->
  StronglySorted key_lt (obj_keys sorted) ->
  (forall a k, In a (obj_keys sorted) -> In k keys -> key_le a k) ->
  StronglySorted key_lt (obj_keys (loop keys sorted)).
Proof.
  intros Hks. revert sorted.
  induction Hks as [|k0 keys Hks IH Hk0]; intros sorted Hs Hle.
  - exact Hs.
  - cbn [fold_left]. unfold obj_assign.
    destruct (String.eqb "__proto__" k0) eqn:Ep.
    { apply String.eqb_eq in Ep. subst k0. cbn [String.eqb Ascii.eqb Bool.eqb].
      apply IH; [exact Hs|]. intros a k Ha Hk. apply Hle; [exact Ha|now right]. }
    rewrite String.eqb_sym, Ep.
    destruct (in_dec string_dec k0 (obj_keys sorted)) as [Hin|Hnot].
    + apply IH; rewrite obj_set_keys_present by exact Hin; [exact Hs|].
      intros a k Ha Hk. apply Hle; [exact Ha|now right].
    + apply IH; rewrite obj_set_fresh by exact Hnot; unfold obj_keys;
        rewrite map_app; simpl.
      * apply StronglySorted_snoc; [exact Hs|].
        intros a Ha. split; [apply Hle; [exact Ha|now left]|].
        intros ->. contradiction.
      * intros a k Ha Hk. apply in_app_iff in Ha as [Ha|[<-|[]]].
        -- apply Hle; [exact Ha|now right].
        -- rewrite List.Forall_forall in Hk0. now apply Hk0.
Qed.

End AssignLoop.

Lemma sort_keys_In (k : string) (keys : list string) :
  In k (sort_keys keys) <-> In k keys.
Proof.
  unfold sort_keys. rewrite <- !list_elem_of_In.
  now rewrite merge_sort_Permutation.
Qed.

Lemma sort_keys_StronglySorted (keys : list string) :
  StronglySorted key_le (sort_keys keys).
Proof.
  apply Sorted_StronglySorted; [apply _|].
  unfold sort_keys. apply Sorted_merge_sort. apply _.
Qed.

Lemma key_lt_sorted (l : list string) :
  StronglySorted key_lt l -> Sorted key_le l /\ List.NoDup l.
Proof.
  induction 1 as [|a l Hs [IH1 IH2] Ha]; [split; constructor|].
  split.
  - constructor; [exact IH1|]. destruct l as [|b l]; constructor.
    inversion Ha as [|? ? [Hab _] _]; subst. exact Hab.
  - constructor; [|exact IH2]. intros Hin.
    rewrite List.Forall_forall in Ha. destruct (Ha a Hin) as [_ Hne].
    now apply Hne.
Qed.

Lemma existsb_eqb_In (k : string) (l : list string) :
  existsb (String.eqb k) l = true <-> In k l.
Proof.
  rewrite existsb_exists. split.
  - intros (x & Hx & E). apply String.eqb_eq in E. now subst.
  - intros H. exists k. split; [exact H|apply String.eqb_refl].
Qed.

Lemma sortObjectKeys_lookup (o : props) (k : string) :
  k <> "__proto__" ->
  get_prop k (sortObjectKeys (VObj o)) = sortObjectKeys (obj_get k o).
Proof.
  intros Hk. rewrite sortObjectKeys_object. cbn [get_prop].
  rewrite (assign_loop_get (fun key => sortObjectKeys (obj_get key o))) by exact Hk.
  destruct (existsb (String.eqb k) (sort_keys (obj_keys o))) eqn:E; [reflexivity|].
  rewrite (obj_get_absent k o); [reflexivity|].
  intros Hin. apply sort_keys_In, existsb_eqb_In in Hin. congruence.
Qed.

Lemma sortObjectKeys_keys (o : props) :
  StronglySorted key_lt (obj_keys (get_props (sortObjectKeys (VObj o))))
  /\ forall k, In k (obj_keys (get_props (sortObjectKeys (VObj o))))
       <-> In k (obj_keys o) /\ k <> "__proto__".
Proof.
  rewrite sortObjectKeys_object. cbn [get_props]. split.
  - apply assign_loop_sorted.
    + apply sort_keys_StronglySorted.
    + constructor.
    + intros a k [].
  - intros k.
    rewrite (assign_loop_keys (fun key => sortObjectKeys (obj_get key o))).
    rewrite sort_keys_In. simpl. tauto.
Qed.

(** X6. For an object none of whose keys is written with digits only
    (the engine enumerates array indices first, in numeric order, which the
    property lists do not model), [sortObjectKeys] returns an object whose
    keys are in strictly increasing order; they are the keys of the argument
    without "__proto__", and each holds the value of that key in the
    argument, itself sorted. *)
Theorem sortObjectKeys_sorted (o : props) :
  forallb (fun k => negb (is_index_key k)) (obj_keys o) = true ->
  exists sorted,
    sortObjectKeys (VObj o) = VObj sorted
    /\ Sorted key_le (obj_keys sorted)
    /\ List.NoDup (obj_keys sorted)
    /\ (forall k, In k (obj_keys sorted)
          <-> In k (obj_keys o) /\ k <> "__proto__")
    /\ (forall k, k <> "__proto__" ->
          obj_get k sorted = sortObjectKeys (obj_get k o)).
Proof.
  intros _.
  destruct (sortObjectKeys_keys o) as [Hs Hk].
  pose proof (sortObjectKeys_lookup o) as Hl.
  rewrite sortObjectKeys_object in *. cbn [get_props get_prop] in *.
  eexists. split; [reflexivity|].
  destruct (key_lt_sorted _ Hs) as [H1 H2]. auto.
Qed.

Lemma sortObjectKeys_sorted_witness :
  exists sorted,
    sortObjectKeys record_ba = VObj sorted
    /\ Sorted key_le (obj_keys sorted)
    /\ List.NoDup (obj_keys sorted)
    /\ (forall k, In k (obj_keys sorted)
          <-> In k (obj_keys (get_props record_ba)) /\ k <> "__proto__")
    /\ (forall k, k <> "__proto__" ->
          obj_get k sorted = sortObjectKeys (obj_get k (get_props record_ba))).
Proof.
  apply (sortObjectKeys_sorted (get_props record_ba)). reflexivity.
Defined.
Lemma obj_get_In (k : string) (v : value) (o : props) :
  List.NoDup (obj_keys o) -> In (k, v) o -> obj_get k o = v.
Proof.
  induction o as [|[k0 v0] o IH]; [contradiction|].
  intros Hnd. inversion Hnd as [|? ? Hnot Hnd']; subst.
  intros [[= -> ->]|Hin]; simpl.
  - now rewrite String.eqb_refl.
  - destruct (String.eqb_spec k0 k) as [->|Hne]; [|now apply IH].
    exfalso. apply Hnot. unfold obj_keys. apply in_map_iff.
    now exists (k, v).
Qed.

Lemma fold_left_ext_In {A B} (f g : A -> B -> A) (l : list B) (a : A) :
  (forall a x, In x l -> f a x = g a x) -> fold_left f l a = fold_left g l a.
Proof.
  revert a. induction l as [|x l IH]; intros a H; simpl; [reflexivity|].
  rewrite H by now left. apply IH. intros a' y Hy. apply H. now right.
Qed.

(** Rebuilding an object key by key, in its own key order, gives the
    object. *)
Lemma rebuild_object (suffix : props) :
  forall built : props,
    List.NoDup (obj_keys (built ++ suffix)%list) ->
    ~ In "__proto__" (obj_keys suffix) ->
    fold_left
      (fun sorted key => obj_assign key (obj_get key (built ++ suffix)%list) sorted)
      (obj_keys suffix) built
    = (built ++ suffix)%list.
Proof.
  induction suffix as [|[k v] suffix IH]; intros built Hnd Hp.
  - simpl. now rewrite app_nil_r.
  - cbn [obj_keys map fst fold_left].
    assert (Hk : ~ In k (obj_keys built)).
    { pose proof Hnd as Hd. unfold obj_keys in Hd. rewrite map_app in Hd.
      apply NoDup_ListNoDup in Hd. apply NoDup_app in Hd as (_ & Hd & _).
      intros Hin. apply (Hd k); apply list_elem_of_In; [exact Hin|now left]. }
    assert (Hv : obj_get k (built ++ (k, v) :: suffix)%list = v).
    { apply obj_get_In; [exact Hnd|]. apply in_app_iff. right. now left. }
    rewrite Hv. unfold obj_assign at 2.
    destruct (String.eqb_spec k "__proto__") as [->|Hne].
    { exfalso. apply Hp. now left. }
    rewrite obj_set_fresh by exact Hk.
    replace (built ++ (k, v) :: suffix)%list
      with ((built ++ [(k, v)]) ++ suffix)%list
      by (now rewrite <- app_assoc).
    apply IH.
    + now rewrite <- app_assoc.
    + intros Hin. apply Hp. now right.
Qed.

Lemma sort_keys_sorted_id (keys : list string) :
  Sorted key_le keys -> sort_keys keys = keys.
Proof.
  intros Hs. unfold sort_keys.
  apply (Sorted_unique key_le); try apply _.
  - apply Sorted_merge_sort. apply _.
  - exact Hs.
  - apply merge_sort_Permutation.
Qed.

Lemma obj_get_value_In (k : string) (o : props) :
  In k (obj_keys o) -> In (obj_get k o) (map snd o).
Proof.
  induction o as [|[k0 v0] o IH]; [contradiction|].
  simpl. destruct (String.eqb_spec k0 k) as [->|Hne].
  - intros _. now left.
  - intros [H|H]; [contradiction|]. right. now apply IH.
Qed.

(** An object whose values are left alone by [sortObjectKeys] and whose
    keys are in strictly increasing order is left alone. *)
Lemma sortObjectKeys_fixed (o : props) :
  StronglySorted key_lt (obj_keys o) ->
  ~ In "__proto__" (obj_keys o) ->
  (forall v, In v (map snd o) -> sortObjectKeys v = v) ->
  sortObjectKeys (VObj o) = VObj o.
Proof.
  intros Hs Hp Hv. destruct (key_lt_sorted _ Hs) as [Hsorted Hnd].
  rewrite sortObjectKeys_object, sort_keys_sorted_id by exact Hsorted.
  f_equal.
  rewrite (fold_left_ext_In _
             (fun sorted key => obj_assign key (obj_get key ([] ++ o)%list) sorted)).
  - now apply (rebuild_object o []).
  - intros a k Hk. simpl. f_equal. apply Hv. now apply obj_get_value_In.
Qed.

(** X7. [sortObjectKeys] is idempotent: sorting a sorted value changes
    nothing. *)
Theorem sortObjectKeys_idempotent (v : value) :
  sortObjectKeys (sortObjectKeys v) = sortObjectKeys v.
Proof.
  revert v. fix IH 1. intros [| | | | | |o]; try reflexivity.
  assert (Hall : forall w, In w (map snd o) ->
            sortObjectKeys (sortObjectKeys w) = sortObjectKeys w).
  { induction o as [|[k w] o IHo]; [contradiction|].
    intros w' [<-|Hin]; [apply IH|now apply IHo]. }
  destruct (sortObjectKeys_keys o) as [Hs Hk].
  pose proof (sortObjectKeys_lookup o) as Hl.
  rewrite sortObjectKeys_object in *. cbn [get_props get_prop] in *.
  set (sorted := fold_left _ _ _) in *.
  apply sortObjectKeys_fixed.
  - exact Hs.
  - intros Hin. apply Hk in Hin. tauto.
  - intros w Hw. apply in_map_iff in Hw as ([k w'] & <- & Hin). cbn [snd].
    assert (Hkin : In k (obj_keys sorted)).
    { unfold obj_keys. apply in_map_iff. now exists (k, w'). }
    destruct (key_lt_sorted _ Hs) as [_ Hnd].
    rewrite <- (obj_get_In k w' sorted Hnd Hin).
    apply Hk in Hkin as [Hko Hne].
    rewrite Hl by exact Hne. apply Hall. now apply obj_get_value_In.
Qed.

(** ** Records of strings *)

Lemma string_record_get (fields : list (string * string)) (k : string) :
  get_prop k (string_record fields)
  = match manifest_get k fields with
    | Some s => VStr s
    | None => VUndefined
    end.
Proof.
  unfold string_record. cbn [get_prop].
  induction fields as [|[k0 s0] fields IH]; [reflexivity|].
  simpl. destruct (String.eqb k0 k); [reflexivity|exact IH].
Qed.

Lemma string_record_keys (fields : list (string * string)) :
  obj_keys (get_props (string_record fields)) = manifest_keys fields.
Proof.
  unfold string_record, obj_keys, manifest_keys. cbn [get_props].
  rewrite map_map. reflexivity.
Qed.

Lemma manifest_get_None (k : string) (fields : list (string * string)) :
  manifest_get k fields = None <-> ~ In k (manifest_keys fields).
Proof.
  induction fields as [|[k0 s0] fields IH]; [simpl; tauto|].
  simpl. destruct (String.eqb_spec k0 k) as [->|Hne].
  - split; [discriminate|tauto].
  - rewrite IH. tauto.
Qed.

(** Sorting a record of strings gives a record of strings with the same
    lookups and pairwise distinct keys. *)
Lemma sortObjectKeys_string_record (fields : list (string * string)) :
  exists sorted,
    sortObjectKeys (string_record fields) = string_record sorted
    /\ List.NoDup (manifest_keys sorted)
    /\ forall k, k <> "__proto__" ->
         get_prop k (string_record sorted) = get_prop k (string_record fields).
Proof.
  unfold string_record at 1.
  set (o := map (fun kv => (fst kv, VStr (snd kv))) fields).
  destruct (sortObjectKeys_keys o) as [Hs Hk].
  pose proof (sortObjectKeys_lookup o) as Hl.
  rewrite sortObjectKeys_object in *. cbn [get_props get_prop] in *.
  set (sorted := fold_left _ _ _) in *.
  destruct (key_lt_sorted _ Hs) as [_ Hnd].
  assert (Hval : forall k, k <> "__proto__" -> obj_get k sorted = obj_get k o).
  { intros k Hne. rewrite Hl by exact Hne.
    change (obj_get k o) with (get_prop k (string_record fields)).
    rewrite string_record_get. now destruct (manifest_get k fields). }
  assert (Hstr : map (fun kv => (fst kv, VStr (string_of (snd kv)))) sorted = sorted).
  { rewrite <- (map_id sorted) at 2. apply map_ext_in. intros [k v] Hin.
    cbn [fst snd]. f_equal.
    assert (Hkin : In k (obj_keys sorted)).
    { unfold obj_keys. apply in_map_iff. now exists (k, v). }
    apply Hk in Hkin as [Hko Hne].
    rewrite <- (obj_get_In k v sorted Hnd Hin), Hval by exact Hne.
    change (obj_get k o) with (get_prop k (string_record fields)).
    rewrite string_record_get.
    destruct (manifest_get k fields) eqn:E; [reflexivity|].
    apply manifest_get_None in E. exfalso. apply E.
    now rewrite <- string_record_keys. }
  exists (map (fun kv => (fst kv, string_of (snd kv))) sorted).
  assert (Hrec : string_record (map (fun kv => (fst kv, string_of (snd kv))) sorted)
                 = VObj sorted).
  { unfold string_record. rewrite map_map. cbn [fst snd]. now rewrite Hstr. }
  split; [now rewrite Hrec|]. split.
  - unfold manifest_keys. rewrite map_map. cbn [fst]. exact Hnd.
  - intros k Hne. rewrite Hrec. cbn [get_prop]. now apply Hval.
Qed.

(** X8. Two records of strings with the same canonical string have the
    same value under every key (other than "__proto__", which
    [sortObjectKeys] does not copy): an identifier is shared by two such
    records only through the digest. *)
Theorem canonicalizeMetadata_injective (a b : list (string * string)) :
  canonicalizeMetadata (string_record a) = canonicalizeMetadata (string_record b) ->
  forall k, k <> "__proto__" ->
    get_prop k (string_record a) = get_prop k (string_record b).
Proof.
  intros H k Hk.
  destruct (sortObjectKeys_string_record a) as (a' & Ha & Hnda & Hga).
  destruct (sortObjectKeys_string_record b) as (b' & Hb & Hndb & Hgb).
  unfold canonicalizeMetadata, JSON_stringify in H. rewrite Ha, Hb in H.
  change (string_record a') with (manifest_value a') in H.
  change (string_record b') with (manifest_value b') in H.
  rewrite !serialize_manifest in H. injection H as H.
  apply (f_equal JSON_parse) in H.
  rewrite !parse_wrapped_manifest in H by auto.
  injection H as H.
  rewrite <- Hga, <- Hgb by exact Hk.
  unfold string_record. now rewrite H.
Qed.

Lemma canonicalizeMetadata_injective_witness :
  get_prop "owner" (string_record [("owner", "octo"); ("repo", "demo")])
  = get_prop "owner" (string_record [("repo", "demo"); ("owner", "octo")]).
Proof.
  apply (canonicalizeMetadata_injective
           [("owner", "octo"); ("repo", "demo")]
           [("repo", "demo"); ("owner", "octo")]).
  - reflexivity.
  - discriminate.
Defined.
(** ** Options of the identifier *)

Lemma substring_whole (s : string) (e : Z) :
  Z.of_nat (String.length s) <= e -> substring s 0 e = s.
Proof.
  intros He. rewrite substring_from_0. unfold clamp_index.
  replace (Z.to_nat (Z.min (Z.max e 0) (Z.of_nat (String.length s))))
    with (String.length s) by lia.
  clear He. induction s as [|c r IH]; [reflexivity|].
  simpl. now rewrite IH.
Qed.

Section IdentifierOptions.

Variable toISOString : value -> option string.
Variable digest : string -> string -> string -> string.

(** X9. A [truncate] option that is 0, that is not a number (true, or a
    string such as "8"), or that is at least the length of the digest,
    leaves the identifier whole: the algorithm name, a colon and the full
    digest. *)
Theorem generateIdentifier_truncate_ignored (meta normalized : value)
    (options : props) (alg enc canonical : string) :
  option_algorithm options = Some alg ->
  option_encoding options = Some enc ->
  normalizeMetadata toISOString meta = Ok normalized ->
  canonicalizeMetadata normalized = Some canonical ->
  match obj_get "truncate" options with
  | VNum n => n = 0 \/ Z.of_nat (String.length (digest alg enc canonical)) <= n
  | _ => True
  end ->
  exists r,
    generateIdentifier toISOString digest meta options = Ok r
    /\ identifier r = alg ++ ":" ++ digest alg enc canonical.
Proof.
  intros Ha He Hn Hc Ht.
  rewrite (generateIdentifier_ok _ _ _ _ _ _ _ _ Ha He Hn Hc).
  eexists. split; [reflexivity|]. cbn [identifier].
  destruct (obj_get "truncate" options) as [| |b|n|s|l|o]; try reflexivity.
  - now destruct b.
  - cbn [with_default truthy typeof number_of].
    destruct Ht as [->|Hlen]; [reflexivity|].
    destruct (n =? 0); [reflexivity|]. cbn [negb andb String.eqb Ascii.eqb Bool.eqb].
    now rewrite substring_whole.
  - cbn [with_default truthy typeof].
    now rewrite andb_false_r.
Qed.

Lemma generateIdentifiers_cons (meta : value) (rest : list value) (options : props) :
  generateIdentifiers toISOString digest (meta :: rest) options
  = (r ← generateIdentifier toISOString digest meta options;
     rs ← generateIdentifiers toISOString digest rest options;
     Ok (r :: rs)).
Proof. reflexivity. Qed.

(** X10. [generateIdentifiers] is all or nothing: it returns a list exactly
    when [generateIdentifier] returns for every record, the results being
    in the order of the records; otherwise it throws what the first
    failing record makes [generateIdentifier] throw. *)
Theorem generateIdentifiers_all_or_nothing (metadataArray : list value)
    (options : props) :
  (forall rs,
     generateIdentifiers toISOString digest metadataArray options = Ok rs
     <-> Forall2 (fun meta r =>
                    generateIdentifier toISOString digest meta options = Ok r)
           metadataArray rs)
  /\ (forall before meta after e,
        metadataArray = (before ++ meta :: after)%list ->
        (forall m, In m before ->
           exists r, generateIdentifier toISOString digest m options = Ok r) ->
        generateIdentifier toISOString digest meta options = Err e ->
        generateIdentifiers toISOString digest metadataArray options = Err e).
Proof.
  split.
  - induction metadataArray as [|meta rest IH]; intros rs.
    + simpl. split.
      * intros [= <-]. constructor.
      * intros H. inversion H. reflexivity.
    + rewrite generateIdentifiers_cons. split.
      * intros H. apply bind_ok in H as (r & Hr & H).
        apply bind_ok in H as (rs' & Hrs & [= <-]).
        constructor; [exact Hr|now apply IH].
      * intros H. inversion H as [|? r ? rs' Hr Hrs]; subst.
        apply IH in Hrs. now rewrite Hr, Hrs.
  - intros before meta after e -> Hbefore Hmeta.
    induction before as [|m before IH].
    + simpl. now rewrite Hmeta.
    + change ((m :: before) ++ meta :: after)%list
        with (m :: (before ++ meta :: after))%list.
      rewrite generateIdentifiers_cons.
      destruct (Hbefore m ltac:(now left)) as [r ->].
      cbn [mbind result_bind]. rewrite IH; [reflexivity|].
      intros m' Hm'. apply Hbefore. now right.
Qed.

End IdentifierOptions.

Lemma generateIdentifier_truncate_ignored_witness :
  exists r,
    generateIdentifier sample_toISOString sample_digest (sample_meta "a.js")
      [("truncate", VNum 64)] = Ok r
    /\ identifier r
       = "sha256" ++ ":"
         ++ sample_digest "sha256" "hex"
              (default "" (canonicalizeMetadata (sample_normalized "a.js"))).
Proof.
  apply (generateIdentifier_truncate_ignored sample_toISOString sample_digest
           (sample_meta "a.js") (sample_normalized "a.js")
           [("truncate", VNum 64)] "sha256" "hex").
  - reflexivity.
  - reflexivity.
  - reflexivity.
  - reflexivity.
  - right. vm_compute. discriminate.
Defined.

Lemma generateIdentifiers_all_or_nothing_witness :
  generateIdentifiers sample_toISOString sample_digest
    [sample_meta "a.js"; VNull; sample_meta "b.js"] []
  = Err (TypeError "Metadata must be an object").
Proof.
  apply (proj2 (generateIdentifiers_all_or_nothing sample_toISOString sample_digest
                  [sample_meta "a.js"; VNull; sample_meta "b.js"] [])
           [sample_meta "a.js"] VNull [sample_meta "b.js"]).
  - reflexivity.
  - intros m [<-|[]]. eexists. reflexivity.
  - reflexivity.
Defined.
(** ** Comparing records and identifiers *)

Lemma strict_equal_sym (a b : value) : strict_equal a b = strict_equal b a.
Proof.
  destruct a, b; try reflexivity; simpl; f_equal.
  - now destruct b, b0.
  - apply Z.eqb_sym.
  - apply String.eqb_sym.
Qed.

Lemma strict_equal_refl (a : value) :
  strict_equal a a = Some true \/ strict_equal a a = None.
Proof.
  destruct a; simpl; auto.
  - left. now destruct b.
  - left. now rewrite Z.eqb_refl.
  - left. now rewrite String.eqb_refl.
Qed.

(** X11. [hasFileChanged] does not depend on the order of its arguments;
    and a record is reported as changed against itself exactly when it is
    falsy or carries neither a file hash nor a commit hash. *)
Theorem hasFileChanged_symmetric (meta1 meta2 : value) :
  hasFileChanged meta1 meta2 = hasFileChanged meta2 meta1
  /\ (hasFileChanged meta1 meta1 = Some true
      <-> truthy meta1 = false
          \/ (truthy (get_prop "fileHash" meta1) = false
              /\ truthy (get_prop "commitHash" meta1) = false)).
Proof.
  split.
  - unfold hasFileChanged, strict_not_equal.
    rewrite (orb_comm (negb (truthy meta1))).
    rewrite (andb_comm (truthy (get_prop "fileHash" meta1))).
    rewrite (andb_comm (truthy (get_prop "commitHash" meta1))).
    now rewrite (strict_equal_sym (get_prop "fileHash" meta1)),
      (strict_equal_sym (get_prop "commitHash" meta1)).
  - unfold hasFileChanged, strict_not_equal.
    destruct (truthy meta1); cbn [negb orb]; [|tauto].
    destruct (truthy (get_prop "fileHash" meta1)); cbn [andb].
    + destruct (strict_equal_refl (get_prop "fileHash" meta1)) as [-> | ->];
        simpl; split; try discriminate; intros [|[]]; discriminate.
    + destruct (truthy (get_prop "commitHash" meta1)); cbn [andb]; [|tauto].
      destruct (strict_equal_refl (get_prop "commitHash" meta1)) as [-> | ->];
        simpl; split; try discriminate; intros [|[]]; discriminate.
Qed.

Lemma hasFileChanged_symmetric_witness :
  truthy VNull = false
  \/ (truthy (get_prop "fileHash" VNull) = false
      /\ truthy (get_prop "commitHash" VNull) = false).
Proof.
  apply (proj1 (proj2 (hasFileChanged_symmetric VNull VNull))). reflexivity.
Defined.

Section ChangedNormalized.

Variable toISOString : value -> option string.

(** X12. For two records returned by [normalizeMetadata] the file hash
    alone decides [hasFileChanged], the case of its letters in the raw
    records being ignored; the commit hash is not consulted. *)
Theorem hasFileChanged_normalized (a b na nb : value) :
  normalizeMetadata toISOString a = Ok na ->
  normalizeMetadata toISOString b = Ok nb ->
  exists fa fb,
    get_prop "fileHash" a = VStr fa
    /\ get_prop "fileHash" b = VStr fb
    /\ hasFileChanged na nb
       = Some (negb (String.eqb (toLowerCase fa) (toLowerCase fb))).
Proof.
  intros Ha Hb.
  apply normalizeMetadata_fields in Ha as (_ & _ & Hva & _ & _ & ->).
  apply normalizeMetadata_fields in Hb as (_ & _ & Hvb & _ & _ & ->).
  destruct (isValidGitHash_string _ Hva) as [fa Hfa].
  destruct (isValidGitHash_string _ Hvb) as [fb Hfb].
  exists fa, fb. repeat split; auto.
  unfold hasFileChanged. cbn [truthy negb orb].
  rewrite !get_prop_shape.
  cbn [existsb field_order String.eqb Ascii.eqb Bool.eqb orb].
  unfold expected_field. cbn [String.eqb Ascii.eqb Bool.eqb orb].
  rewrite Hfa, Hfb.
  assert (Ht : forall s, isValidGitHash (VStr s) = true ->
                 truthy (VStr (toLowerCase s)) = true).
  { intros s Hs. apply isValidGitHash_truthy. now rewrite isValidGitHash_lower. }
  rewrite !Ht by congruence. reflexivity.
Qed.

End ChangedNormalized.

Lemma hasFileChanged_normalized_witness :
  exists fa fb,
    get_prop "fileHash" (sample_meta "src/a.js") = VStr fa
    /\ get_prop "fileHash" sample_meta_windows = VStr fb
    /\ hasFileChanged (sample_normalized "src/a.js") (sample_normalized "src/a.js")
       = Some (negb (String.eqb (toLowerCase fa) (toLowerCase fb))).
Proof.
  apply (hasFileChanged_normalized sample_toISOString); reflexivity.
Defined.

(** X13. [generateChangeReport] lists a path as unchanged exactly when
    some current result with that path and a status other than "error" has
    an identifier that [compareIdentifier] accepts against the identifier
    stored under the path. *)
Theorem unchanged_iff_compareIdentifier (current : list BatchItemResult)
    (previous : Manifest) (p : string) :
  In p (unchanged (generateChangeReport current previous))
  <-> exists r id,
        In r current /\ valid_path r = true /\ path_of r = p
        /\ is_error r = false
        /\ manifest_get p previous = Some id
        /\ compareIdentifier (nullable (item_identifier r)) (VStr id) = Some true.
Proof.
  rewrite (listed_iff current previous Unchanged p).
  split.
  - intros (r & Hin & Hv & Hp & Hc). exists r.
    unfold code_category, manifest_lookup in Hc. rewrite Hp in Hc.
    unfold is_error.
    destruct (String.eqb (status r) "error"); [discriminate|].
    destruct (manifest_get p previous) as [id|].
    + exists id. repeat split; auto.
      cbn [truthy_looked_up] in Hc.
      destruct (String.eqb id "") eqn:Eid; [discriminate|]. cbn [negb] in Hc.
      unfold strict_neq in Hc. destruct (item_identifier r) as [x|]; [|discriminate].
      destruct (String.eqb x id) eqn:Ex; [|discriminate].
      apply String.eqb_eq in Ex. subst x.
      unfold compareIdentifier. cbn [nullable truthy strict_equal].
      now rewrite Eid, String.eqb_refl.
    + destruct (existsb (String.eqb p) object_prototype_names);
        cbn [truthy_looked_up negb strict_neq] in Hc;
        [destruct (item_identifier r)|]; discriminate.
  - intros (r & id & Hin & Hv & Hp & He & Hid & Hc). exists r.
    repeat split; auto.
    unfold code_category, manifest_lookup. rewrite Hp, Hid.
    unfold is_error in He. rewrite He.
    unfold compareIdentifier in Hc.
    destruct (item_identifier r) as [x|]; [|discriminate].
    cbn [nullable truthy strict_equal truthy_looked_up strict_neq] in *.
    destruct (String.eqb x ""); [discriminate|].
    destruct (String.eqb id ""); [discriminate|]. cbn [negb orb] in *.
    injection Hc as Hc. now rewrite Hc.
Qed.

Lemma unchanged_iff_compareIdentifier_witness :
  exists r id,
    In r [ok_item "a" "sha256:1"; ok_item "c" "sha256:3"]
    /\ valid_path r = true /\ path_of r = "a"
    /\ is_error r = false
    /\ manifest_get "a" [("a", "sha256:1"); ("b", "sha256:2")] = Some id
    /\ compareIdentifier (nullable (item_identifier r)) (VStr id) = Some true.
Proof.
  apply (proj1 (unchanged_iff_compareIdentifier
                  [ok_item "a" "sha256:1"; ok_item "c" "sha256:3"]
                  [("a", "sha256:1"); ("b", "sha256:2")] "a")).
  vm_compute. auto.
Defined.
(** ** Manifests made by [createManifest] *)

Lemma manifest_set_keys (path id : string) (m : Manifest) :
  manifest_keys (manifest_set path id m)
  = if existsb (String.eqb path) (manifest_keys m) then manifest_keys m
    else (manifest_keys m ++ [path])%list.
Proof.
  induction m as [|[k w] m IH]; [reflexivity|].
  cbn [manifest_set manifest_keys map fst existsb].
  rewrite (String.eqb_sym path k).
  destruct (String.eqb k path); [reflexivity|].
  cbn [manifest_keys map fst orb]. fold (manifest_keys (manifest_set path id m)).
  rewrite IH. fold (manifest_keys m).
  now destruct (existsb (String.eqb path) (manifest_keys m)).
Qed.

Lemma manifest_set_NoDup (path id : string) (m : Manifest) :
  List.NoDup (manifest_keys m) -> List.NoDup (manifest_keys (manifest_set path id m)).
Proof.
  intros Hnd. rewrite manifest_set_keys.
  destruct (existsb (String.eqb path) (manifest_keys m)) eqn:E; [exact Hnd|].
  apply NoDup_ListNoDup, NoDup_app. repeat split.
  - now apply NoDup_ListNoDup.
  - intros x Hx Hx'. apply list_elem_of_In in Hx, Hx'.
    destruct Hx' as [<-|[]].
    apply existsb_eqb_In in Hx. congruence.
  - apply NoDup_ListNoDup. repeat constructor. intros [].
Qed.

Lemma manifest_get_set (path id p : string) (m : Manifest) :
  manifest_get p (manifest_set path id m)
  = if String.eqb path p then Some id else manifest_get p m.
Proof.
  induction m as [|[k w] m IH].
  - reflexivity.
  - cbn [manifest_set]. destruct (String.eqb_spec k path) as [->|Hne].
    + cbn [manifest_get]. now destruct (String.eqb path p).
    + cbn [manifest_get]. rewrite IH.
      destruct (String.eqb_spec k p) as [->|Hne']; [|reflexivity].
      apply String.eqb_neq in Hne. rewrite String.eqb_sym in Hne. now rewrite Hne.
Qed.

Lemma createManifest_snoc (results : list BatchItemResult) (r : BatchItemResult) :
  createManifest (results ++ [r])
  = if is_stored r
    then manifest_assign (path_of r) (default "" (item_identifier r))
           (createManifest results)
    else createManifest results.
Proof. unfold createManifest. now rewrite fold_left_app. Qed.

Lemma createManifest_NoDup (results : list BatchItemResult) :
  List.NoDup (manifest_keys (createManifest results)).
Proof.
  induction results as [|r results IH] using rev_ind; [constructor|].
  rewrite createManifest_snoc. destruct (is_stored r); [|exact IH].
  unfold manifest_assign. destruct (String.eqb (path_of r) "__proto__"); [exact IH|].
  now apply manifest_set_NoDup.
Qed.

Lemma createManifest_get (results : list BatchItemResult) (p : string) :
  manifest_get p (createManifest results)
  = if String.eqb p "__proto__" then None else last_stored p results.
Proof.
  induction results as [|r results IH] using rev_ind.
  - unfold last_stored. simpl. now destruct (String.eqb p "__proto__").
  - rewrite createManifest_snoc. unfold last_stored. rewrite rev_unit.
    cbn [List.find]. fold (last_stored p results).
    destruct (is_stored r) eqn:Es; cbn [andb]; [|exact IH].
    unfold manifest_assign.
    destruct (String.eqb_spec (path_of r) "__proto__") as [Hp|Hp].
    + rewrite IH. destruct (String.eqb_spec (path_of r) p) as [<-|Hne]; [|reflexivity].
      rewrite Hp. reflexivity.
    + rewrite manifest_get_set, IH.
      destruct (String.eqb_spec (path_of r) p) as [<-|Hne]; [|reflexivity].
      apply String.eqb_neq in Hp. rewrite Hp.
      unfold is_stored in Es. apply andb_prop in Es as [_ Es].
      destruct (item_identifier r); [reflexivity|discriminate].
Qed.

Lemma last_stored_Some (p id : string) (results : list BatchItemResult) :
  last_stored p results = Some id ->
  exists r, In r results /\ is_stored r = true /\ path_of r = p
            /\ item_identifier r = Some id.
Proof.
  unfold last_stored.
  destruct (List.find _ (rev results)) as [r|] eqn:E; [|discriminate].
  apply find_some in E as [Hin Hr]. apply andb_prop in Hr as [Hs Hp].
  apply String.eqb_eq in Hp. intros H. exists r.
  rewrite <- in_rev in Hin. auto.
Qed.

(** X14. The manifest made by [createManifest] has pairwise distinct keys;
    under a path it holds the identifier of the last result with that path
    that has the status "success" and a non-empty path and identifier, and
    nothing when there is no such result; a result whose path is
    "__proto__" is not stored. *)
Theorem createManifest_last_stored (results : list BatchItemResult) :
  List.NoDup (manifest_keys (createManifest results))
  /\ (forall p, p <> "__proto__" ->
        manifest_get p (createManifest results) = last_stored p results)
  /\ manifest_get "__proto__" (createManifest results) = None.
Proof.
  split; [apply createManifest_NoDup|]. split.
  - intros p Hp. rewrite createManifest_get.
    apply String.eqb_neq in Hp. now rewrite Hp.
  - now rewrite createManifest_get.
Qed.

(** X15. A manifest made by [createManifest] is always read back by
    [loadManifest] from what [saveManifest] wrote, pretty-printed or not. *)
Theorem createManifest_round_trip (results : list BatchItemResult) (pretty : bool) :
  exists json,
    saveManifest (manifest_value (createManifest results)) pretty = Ok json
    /\ loadManifest json = Ok (manifest_value (createManifest results)).
Proof.
  pose proof (createManifest_NoDup results) as Hnd.
  set (m := createManifest results) in *.
  exists (default ""
            (if pretty then JSON_stringify_pretty (manifest_value m)
             else JSON_stringify (manifest_value m))).
  split; [reflexivity|].
  unfold loadManifest, JSON_stringify_pretty, JSON_stringify.
  destruct pretty; rewrite serialize_manifest; cbn [default from_option id].
  - rewrite (parse_wrapped_manifest "  " m); auto.
  - rewrite (parse_wrapped_manifest "" m); auto.
Qed.

(** ** Reports *)

Lemma filter_none {A} (f : A -> bool) (l : list A) :
  (forall x, In x l -> f x = false) -> List.filter f l = [].
Proof.
  induction l as [|x l IH]; [reflexivity|].
  intros H. simpl. rewrite (H x) by now left.
  apply IH. intros y Hy. apply H. now right.
Qed.

Lemma select_nil (previous : Manifest) (c : category) (current : list BatchItemResult) :
  (forall r, In r current -> valid_path r = true -> code_category previous r <> c) ->
  select previous c current = [].
Proof.
  intros H. induction current as [|r current IH]; [reflexivity|].
  rewrite select_cons.
  destruct (valid_path r) eqn:Ev; cbn [andb].
  - destruct (category_eqb (code_category previous r) c) eqn:Ec.
    + apply category_eqb_eq in Ec. exfalso. apply (H r); auto. now left.
    + apply IH. intros r' Hr'. apply H. now right.
  - apply IH. intros r' Hr'. apply H. now right.
Qed.

Lemma select_filter (previous : Manifest) (c : category) (f : BatchItemResult -> bool)
    (current : list BatchItemResult) :
  (forall r, In r current ->
     valid_path r && category_eqb (code_category previous r) c = f r) ->
  select previous c current = List.filter f current.
Proof.
  intros H. unfold select. induction current as [|r current IH]; [reflexivity|].
  simpl. rewrite (H r) by now left.
  rewrite IH; [reflexivity|]. intros r' Hr'. apply H. now right.
Qed.

Lemma select_lengths (previous : Manifest) (current : list BatchItemResult) :
  (length (select previous Added current)
   + length (select previous Modified current)
   + length (select previous Unchanged current)
   + length (select previous Errored current))%nat
  = length (List.filter valid_path current).
Proof.
  induction current as [|r current IH]; [reflexivity|].
  rewrite !select_cons. cbn [List.filter].
  destruct (valid_path r); cbn [andb]; [|exact IH].
  destruct (code_category previous r); cbn [category_eqb length]; lia.
Qed.

(** X16. Whatever the results and the manifest, every result with a
    non-empty path is counted once across added, modified, unchanged and
    errors, a path that occurs in several results being counted once for
    each; and removed lists exactly the manifest keys that are the path of
    no current result. *)
Theorem generateChangeReport_counts (current : list BatchItemResult)
    (previous : Manifest) :
  (length (added (generateChangeReport current previous))
   + length (modified (generateChangeReport current previous))
   + length (unchanged (generateChangeReport current previous))
   + length (errors (generateChangeReport current previous)))%nat
  = length (List.filter valid_path current)
  /\ forall k, In k (removed (generateChangeReport current previous))
       <-> In k (manifest_keys previous)
           /\ forall r, In r current -> valid_path r = true -> path_of r <> k.
Proof.
  rewrite generateChangeReport_lists.
  cbn [added modified unchanged errors removed]. split.
  - rewrite !length_map. apply select_lengths.
  - intros k. rewrite filter_In, negb_true_iff, bool_decide_eq_false.
    rewrite elem_of_list_to_set, list_elem_of_In, in_map_iff.
    split.
    + intros [Hk Hnot]. split; [exact Hk|]. intros r Hr Hv Hp.
      apply Hnot. exists r. split; [exact Hp|]. apply filter_In. auto.
    + intros [Hk Hall]. split; [exact Hk|]. intros (r & Hp & Hr).
      apply filter_In in Hr as [Hr Hv]. now apply (Hall r).
Qed.

(** X17. Results compared with the manifest [createManifest] makes of them
    are reported without change: when every result has a non-empty path
    other than "__proto__" and is either an error or a success with a
    non-empty identifier, and the paths are pairwise distinct, every success
    is listed as unchanged, every error as an error, and nothing is added,
    modified or removed. *)
Theorem generateChangeReport_own_manifest (current : list BatchItemResult) :
  (forall r, In r current ->
     valid_path r = true /\ path_of r <> "__proto__"
     /\ (is_error r = true \/ is_stored r = true)) ->
  List.NoDup (map path_of current) ->
  generateChangeReport current (createManifest current)
  = {| added := []; modified := [];
       unchanged := map path_of (List.filter is_stored current);
       removed := [];
       errors := map (fun r => (path_of r, error r)) (List.filter is_error current) |}.
Proof.
  intros Hall Hnd.
  assert (Hcat : forall r, In r current ->
            code_category (createManifest current) r
            = if is_error r then Errored else Unchanged).
  { intros r Hr. destruct (Hall r Hr) as (Hv & Hp & Hs).
    unfold code_category, is_error in *.
    destruct (String.eqb (status r) "error") eqn:Ee; [reflexivity|].
    destruct Hs as [Hs|Hs]; [discriminate|].
    unfold manifest_lookup. rewrite createManifest_get.
    apply String.eqb_neq in Hp. rewrite Hp.
    destruct (last_stored (path_of r) current) as [id|] eqn:El.
    - apply last_stored_Some in El as (r' & Hr' & Hs' & Hp' & Hid).
      assert (r' = r) by (apply (NoDup_map_unique path_of current); auto).
      subst r'. unfold is_stored in Hs. apply andb_prop in Hs as [_ Hs].
      rewrite Hid in *. cbn [truthy_looked_up truthy_str strict_neq] in *.
      now rewrite Hs, String.eqb_refl.
    - exfalso. unfold last_stored in El.
      destruct (List.find _ (rev current)) as [r'|] eqn:Ef.
      + apply find_some in Ef as [_ Hr']. apply andb_prop in Hr' as [Hs' _].
        unfold is_stored in Hs'. apply andb_prop in Hs' as [_ Hs'].
        rewrite El in Hs'. discriminate.
      + pose proof (find_none _ _ Ef r (proj1 (in_rev _ _) Hr)) as Hf.
        cbn beta in Hf. rewrite Hs, String.eqb_refl in Hf. discriminate. }
  rewrite generateChangeReport_lists. f_equal.
  - rewrite select_nil; [reflexivity|]. intros r Hr _. rewrite Hcat by exact Hr.
    now destruct (is_error r).
  - rewrite select_nil; [reflexivity|]. intros r Hr _. rewrite Hcat by exact Hr.
    now destruct (is_error r).
  - f_equal. apply select_filter. intros r Hr. rewrite Hcat by exact Hr.
    destruct (Hall r Hr) as (-> & _ & Hs). cbn [andb].
    destruct (is_error r) eqn:Ee; cbn [category_eqb].
    + unfold is_stored. unfold is_error in Ee. apply String.eqb_eq in Ee.
      now rewrite Ee.
    + destruct Hs as [Hs|Hs]; [discriminate|now rewrite Hs].
  - apply filter_none. intros k Hk.
    apply negb_false_iff, bool_decide_eq_true.
    rewrite elem_of_list_to_set, list_elem_of_In, in_map_iff.
    destruct (manifest_get k (createManifest current)) as [id|] eqn:Eg.
    + rewrite createManifest_get in Eg.
      destruct (String.eqb k "__proto__"); [discriminate|].
      apply last_stored_Some in Eg as (r & Hr & Hs & Hp & _).
      exists r. split; [exact Hp|]. apply filter_In. split; [exact Hr|].
      now destruct (Hall r Hr).
    + apply manifest_get_None in Eg. contradiction.
  - f_equal. apply select_filter. intros r Hr. rewrite Hcat by exact Hr.
    destruct (Hall r Hr) as (-> & _ & _). cbn [andb].
    now destruct (is_error r).
Qed.

Lemma generateChangeReport_own_manifest_witness :
  generateChangeReport
    [ok_item "a" "sha256:1"; error_item "d" "boom"; ok_item "c" "sha256:3"]
    (createManifest
       [ok_item "a" "sha256:1"; error_item "d" "boom"; ok_item "c" "sha256:3"])
  = {| added := []; modified := [];
       unchanged :=
         map path_of
           (List.filter is_stored
              [ok_item "a" "sha256:1"; error_item "d" "boom"; ok_item "c" "sha256:3"]);
       removed := [];
       errors :=
         map (fun r => (path_of r, error r))
           (List.filter is_error
              [ok_item "a" "sha256:1"; error_item "d" "boom"; ok_item "c" "sha256:3"]) |}.
Proof.
  apply generateChangeReport_own_manifest.
  - intros r [<-|[<-|[<-|[]]]]; vm_compute; intuition discriminate.
  - vm_compute. repeat constructor; simpl; intuition discriminate.
Defined.

Lemma createManifest_last_stored_witness :
  manifest_get "a"
    (createManifest [ok_item "a" "sha256:1"; error_item "a" "boom"; ok_item "a" "sha256:2"])
  = last_stored "a"
      [ok_item "a" "sha256:1"; error_item "a" "boom"; ok_item "a" "sha256:2"].
Proof.
  apply (proj1 (proj2 (createManifest_last_stored
                  [ok_item "a" "sha256:1"; error_item "a" "boom"; ok_item "a" "sha256:2"]))).
  discriminate.
Defined.

Lemma generateChangeReport_counts_witness :
  In "b" (manifest_keys [("a", "sha256:1"); ("b", "sha256:2")])
  /\ forall r, In r twice_current -> valid_path r = true -> path_of r <> "b".
Proof.
  apply (proj2 (generateChangeReport_counts twice_current
                  [("a", "sha256:1"); ("b", "sha256:2")]) "b").
  vm_compute. auto.
Defined.
(** ** Remote URLs *)

Lemma strip_prefix_Some (lit s rest : string) :
  strip_prefix lit s = Some rest -> s = lit ++ rest.
Proof.
  revert s. induction lit as [|a lit IH]; intros s.
  - simpl. now intros [= ->].
  - destruct s as [|b s]; [discriminate|]. simpl.
    destruct (Ascii.eqb_spec a b) as [->|]; [|discriminate].
    intros H. rewrite append_cons. f_equal. now apply IH.
Qed.

Lemma split_at_slash_Some (s owner rest : string) :
  split_at_slash s = Some (owner, rest) ->
  s = owner ++ String slash rest /\ contains_char slash owner = false.
Proof.
  revert owner. induction s as [|c s IH]; intros owner; [discriminate|].
  simpl. destruct (Ascii.eqb_spec c slash) as [->|Hc].
  - intros [= <- <-]. split; reflexivity.
  - destruct (split_at_slash s) as [[o r]|]; [|discriminate].
    intros [= <- <-]. destruct (IH o eq_refl) as [-> Ho]. split.
    + now rewrite append_cons.
    + simpl. rewrite Ho. apply Ascii.eqb_neq in Hc. now rewrite Hc.
Qed.

Lemma split_at_slash_app (owner rest : string) :
  contains_char slash owner = false ->
  split_at_slash (owner ++ String slash rest) = Some (owner, rest).
Proof.
  induction owner as [|c owner IH]; intros H.
  - reflexivity.
  - simpl in H. apply orb_false_elim in H as [Hc Ho].
    rewrite append_cons. simpl. now rewrite Hc, IH.
Qed.

Lemma lazy_repo_suffix (s : string) :
  s <> "" ->
  lazy_repo s <> ""
  /\ (s = lazy_repo s \/ s = lazy_repo s ++ ".git").
Proof.
  induction s as [|c r IH]; [congruence|]. intros _.
  cbn [lazy_repo]. destruct (String.eqb_spec r ".git") as [->|Hne].
  - split; [discriminate|]. right. reflexivity.
  - split; [discriminate|]. destruct r as [|d r'].
    + left. reflexivity.
    + destruct (IH ltac:(discriminate)) as [_ [H|H]].
      * left. now rewrite <- H.
      * right. rewrite append_cons. now rewrite <- H.
Qed.

Lemma lazy_repo_app_git (repo : string) :
  repo <> "" -> lazy_repo (repo ++ ".git") = repo.
Proof.
  induction repo as [|c r IH]; [congruence|]. intros _.
  rewrite append_cons. cbn [lazy_repo]. destruct r as [|d r'].
  - reflexivity.
  - destruct (String.eqb_spec (String d r' ++ ".git") ".git") as [E|_].
    + apply (f_equal String.length) in E. rewrite append_length in E.
      simpl in E. lia.
    + now rewrite IH.
Qed.

Lemma all_chars_app (p : ascii -> bool) (s t : string) :
  all_chars p (s ++ t) = all_chars p s && all_chars p t.
Proof.
  induction s as [|c s IH]; [reflexivity|].
  rewrite append_cons. simpl. now rewrite IH, andb_assoc.
Qed.

Lemma append_empty_r (s : string) : s ++ "" = s.
Proof. induction s as [|c s IH]; [reflexivity|]. now rewrite append_cons, IH. Qed.

Lemma is_empty_false (s : string) : is_empty s = false <-> s <> "".
Proof. unfold is_empty. apply String.eqb_neq. Qed.

Lemma match_groups_Some (s owner repo : string) :
  match_groups s = Some (owner, repo) ->
  owner <> "" /\ contains_char slash owner = false
  /\ repo <> "" /\ no_line_terminator repo = true
  /\ exists suffix, (suffix = "" \/ suffix = ".git")
       /\ s = owner ++ "/" ++ repo ++ suffix.
Proof.
  unfold match_groups.
  destruct (split_at_slash s) as [[o rest]|] eqn:Es; [|discriminate].
  destruct (is_empty o) eqn:Eo; [discriminate|].
  destruct (is_empty rest) eqn:Er; [discriminate|].
  destruct (no_line_terminator rest) eqn:Et; [|discriminate].
  cbn [orb negb]. intros [= <- <-].
  apply split_at_slash_Some in Es as [-> Hs].
  apply is_empty_false in Eo, Er.
  destruct (lazy_repo_suffix rest Er) as [Hne Hsuf].
  repeat split; auto.
  - destruct Hsuf as [H|H]; rewrite H in Et.
    + exact Et.
    + unfold no_line_terminator in *. rewrite all_chars_app in Et.
      now apply andb_prop in Et as [Et _].
  - destruct Hsuf as [H|H].
    + exists "". split; [now left|]. rewrite append_empty_r, <- H. reflexivity.
    + exists ".git". split; [now right|]. rewrite <- H. reflexivity.
Qed.

Lemma match_groups_app_git (owner repo : string) :
  owner <> "" -> contains_char slash owner = false ->
  repo <> "" -> no_line_terminator repo = true ->
  match_groups (owner ++ "/" ++ repo ++ ".git") = Some (owner, repo).
Proof.
  intros Ho Hs Hr Ht. unfold match_groups.
  change ("/" ++ repo ++ ".git") with (String slash (repo ++ ".git")).
  rewrite split_at_slash_app by exact Hs.
  apply is_empty_false in Ho. rewrite Ho.
  assert (E : is_empty (repo ++ ".git") = false).
  { apply is_empty_false. destruct repo; [congruence|discriminate]. }
  rewrite E. unfold no_line_terminator in *. rewrite all_chars_app, Ht.
  cbn [orb negb andb]. change (all_chars _ ".git") with true. cbn [negb].
  now rewrite lazy_repo_app_git.
Qed.

(** What follows a known prefix decides the result. *)
Lemma parseGitHubUrl_prefix (prefix : string) (host : option string) (x : string) :
  In (prefix, host) remote_prefixes ->
  parseGitHubUrl (VStr (prefix ++ x)) = option_map (parsed host) (match_groups x).
Proof.
  intros Hin. unfold remote_prefixes in Hin. simpl in Hin.
  repeat (destruct Hin as [[= <- <-]|Hin]; [|try contradiction]);
    try contradiction.
  all: destruct (match_groups x) as [groups|] eqn:E.
  all: cbv [parseGitHubUrl match_remote strip_prefix String.append is_empty
            String.eqb Ascii.eqb Bool.eqb].
  all: fold String.append; rewrite ?E; reflexivity.
Qed.

Lemma parseGitHubUrl_Some_inv (remoteUrl : value) (p : ParsedUrl) :
  parseGitHubUrl remoteUrl = Some p ->
  exists url prefix,
    remoteUrl = VStr url
    /\ In (prefix, url_host p) remote_prefixes
    /\ match_remote prefix url = Some (url_owner p, url_repo p).
Proof.
  destruct remoteUrl as [| | | |url| |]; try discriminate.
  unfold parseGitHubUrl. destruct (is_empty url); [discriminate|].
  intros H. exists url.
  repeat match type of H with
  | match match_remote ?P url with _ => _ end = _ =>
      destruct (match_remote P url) as [[o r]|] eqn:?;
      [injection H as <-; exists P; repeat split; simpl; tauto|]
  end.
  discriminate.
Qed.

(** X18. What [parseGitHubUrl] accepts: the URL is one of the six known
    prefixes, an owner, a slash, a repository and nothing more or ".git";
    the owner is not empty and holds no slash, the repository is not empty
    and holds no line break, and [host] tells the prefix apart. *)
Theorem parseGitHubUrl_sound (remoteUrl : value) (p : ParsedUrl) :
  parseGitHubUrl remoteUrl = Some p ->
  exists url prefix suffix,
    remoteUrl = VStr url
    /\ In (prefix, url_host p) remote_prefixes
    /\ (suffix = "" \/ suffix = ".git")
    /\ url = prefix ++ url_owner p ++ "/" ++ url_repo p ++ suffix
    /\ url_owner p <> "" /\ contains_char slash (url_owner p) = false
    /\ url_repo p <> "" /\ no_line_terminator (url_repo p) = true.
Proof.
  intros H. apply parseGitHubUrl_Some_inv in H as (url & prefix & -> & Hin & Hm).
  unfold match_remote in Hm.
  destruct (strip_prefix prefix url) as [rest|] eqn:Ep; [|discriminate].
  apply strip_prefix_Some in Ep as ->.
  apply match_groups_Some in Hm as (Ho & Hs & Hr & Ht & suffix & Hsuf & ->).
  exists (prefix ++ url_owner p ++ "/" ++ url_repo p ++ suffix), prefix, suffix.
  repeat split; auto.
Qed.

(** X19. A remote made of a known prefix, an owner without slash, a slash,
    a repository name without line break and the suffix ".git" is parsed
    into that owner and that repository name, whatever the name, with the
    host of the prefix. *)
Theorem parseGitHubUrl_round_trip (prefix : string) (host : option string)
    (owner repo : string) :
  In (prefix, host) remote_prefixes ->
  owner <> "" -> contains_char slash owner = false ->
  repo <> "" -> no_line_terminator repo = true ->
  parseGitHubUrl (VStr (prefix ++ owner ++ "/" ++ repo ++ ".git"))
  = Some {| url_owner := owner; url_repo := repo; url_host := host |}.
Proof.
  intros Hin Ho Hs Hr Ht.
  rewrite (parseGitHubUrl_prefix prefix host) by exact Hin.
  now rewrite match_groups_app_git.
Qed.

Lemma parseGitHubUrl_sound_witness :
  exists url prefix suffix,
    VStr "git@gitlab.com:octo/demo.git" = VStr url
    /\ In (prefix, Some "gitlab") remote_prefixes
    /\ (suffix = "" \/ suffix = ".git")
    /\ url = prefix ++ "octo" ++ "/" ++ "demo" ++ suffix
    /\ "octo" <> "" /\ contains_char slash "octo" = false
    /\ "demo" <> "" /\ no_line_terminator "demo" = true.
Proof.
  apply (parseGitHubUrl_sound (VStr "git@gitlab.com:octo/demo.git")
           {| url_owner := "octo"; url_repo := "demo"; url_host := Some "gitlab" |}).
  reflexivity.
Defined.

Lemma parseGitHubUrl_round_trip_witness :
  parseGitHubUrl (VStr ("https://github.com/" ++ "octo" ++ "/" ++ "demo.git" ++ ".git"))
  = Some {| url_owner := "octo"; url_repo := "demo.git"; url_host := None |}.
Proof.
  apply parseGitHubUrl_round_trip.
  - simpl. tauto.
  - discriminate.
  - reflexivity.
  - discriminate.
  - reflexivity.
Defined.

Lemma strip_leading_slashes_terminators (s : string) :
  no_line_terminator s = true ->
  no_line_terminator (strip_leading_slashes s) = true.
Proof.
  unfold no_line_terminator. induction s as [|c s IH]; [reflexivity|].
  intros H. cbn [strip_leading_slashes]. destruct (Ascii.eqb c slash); [|exact H].
  simpl in H. apply andb_prop in H as [_ H]. now apply IH.
Qed.

Lemma lazy_repo_length (s : string) :
  (String.length s <= String.length (lazy_repo s) + 4)%nat.
Proof.
  destruct s as [|c r]; [simpl; lia|].
  destruct (lazy_repo_suffix (String c r) ltac:(discriminate)) as [_ [H|H]].
  - rewrite <- H. lia.
  - rewrite H at 1. rewrite append_length. simpl. lia.
Qed.

(** X20. A permalink made by [buildGitHubUrl] from an owner without slash
    and a repository, commit and path without line break is accepted by
    [parseGitHubUrl], which returns the owner, but as repository all that
    follows the owner (the name, "/blob/", the commit and the path), never
    the name alone. *)
Theorem parseGitHubUrl_of_permalink (owner repo commitHash filePath : string) :
  owner <> "" -> contains_char slash owner = false ->
  repo <> "" -> commitHash <> "" -> filePath <> "" ->
  no_line_terminator repo = true ->
  no_line_terminator commitHash = true ->
  no_line_terminator filePath = true ->
  exists url,
    buildGitHubUrl (VStr owner) (VStr repo) (VStr commitHash) (VStr filePath)
    = Ok url
    /\ parseGitHubUrl (VStr url)
       = Some {| url_owner := owner;
                 url_repo :=
                   lazy_repo (repo ++ "/blob/" ++ commitHash ++ "/"
                              ++ strip_leading_slashes filePath);
                 url_host := None |}
    /\ lazy_repo (repo ++ "/blob/" ++ commitHash ++ "/"
                  ++ strip_leading_slashes filePath) <> repo.
Proof.
  intros Ho Hs Hr Hc Hp Htr Htc Htp.
  set (rest := repo ++ "/blob/" ++ commitHash ++ "/" ++ strip_leading_slashes filePath).
  exists ("https://github.com/" ++ owner ++ "/" ++ rest).
  split; [|split].
  - unfold buildGitHubUrl. cbn [truthy ToString].
    apply String.eqb_neq in Ho, Hr, Hc, Hp. now rewrite Ho, Hr, Hc, Hp.
  - rewrite (parseGitHubUrl_prefix "https://github.com/" None)
      by (simpl; tauto).
    unfold match_groups.
    change ("/" ++ rest) with (String slash rest).
    rewrite split_at_slash_app by exact Hs.
    apply is_empty_false in Ho. rewrite Ho.
    assert (E : is_empty rest = false).
    { apply is_empty_false. unfold rest. destruct repo; [congruence|discriminate]. }
    assert (Et : no_line_terminator rest = true).
    { pose proof (strip_leading_slashes_terminators filePath Htp) as Hsp.
      unfold rest, no_line_terminator in *.
      rewrite !all_chars_app, Htr, Htc, Hsp. reflexivity. }
    now rewrite E, Et.
  - intros E. pose proof (lazy_repo_length rest) as Hl. rewrite E in Hl.
    unfold rest in Hl. rewrite !append_length in Hl.
    destruct commitHash; [congruence|]. simpl in Hl. lia.
Qed.

Lemma parseGitHubUrl_of_permalink_witness :
  exists url,
    buildGitHubUrl (VStr "octo") (VStr "demo") (VStr "abc123") (VStr "/src/a.js")
    = Ok url
    /\ parseGitHubUrl (VStr url)
       = Some {| url_owner := "octo";
                 url_repo :=
                   lazy_repo ("demo" ++ "/blob/" ++ "abc123" ++ "/"
                              ++ strip_leading_slashes "/src/a.js");
                 url_host := None |}
    /\ lazy_repo ("demo" ++ "/blob/" ++ "abc123" ++ "/"
                  ++ strip_leading_slashes "/src/a.js") <> "demo".
Proof.
  apply parseGitHubUrl_of_permalink;
    first [discriminate | reflexivity].
Defined.
(** ** Runs of the orchestrator, whether errors are caught or not *)

Lemma unsettled_app (ps : list promise_state) (p : promise_state) :
  length (List.filter (fun p => negb (is_settled p)) (ps ++ [p])%list)
  = (length (List.filter (fun p => negb (is_settled p)) ps)
     + if is_settled p then 0 else 1)%nat.
Proof.
  rewrite List.filter_app, length_app. simpl. now destruct (is_settled p).
Qed.

Lemma unsettled_insert (ps : list promise_state) (j : nat) (p : promise_state) :
  ps !! j = Some Pending -> is_settled p = true ->
  S (length (List.filter (fun p => negb (is_settled p)) (<[ j := p ]> ps)))
  = length (List.filter (fun p => negb (is_settled p)) ps).
Proof.
  revert j. induction ps as [|q ps IH]; intros j Hj Hp.
  - rewrite lookup_nil in Hj. discriminate.
  - destruct j as [|j]; simpl in Hj.
    + injection Hj as ->. simpl. now rewrite Hp.
    + simpl. destruct (is_settled q); simpl; rewrite <- (IH j Hj Hp); reflexivity.
Qed.

Lemma unsettled_Pending (ps : list promise_state) (j : nat) :
  ps !! j = Some Pending ->
  (0 < length (List.filter (fun p => negb (is_settled p)) ps))%nat.
Proof.
  intros Hj. apply list_elem_of_lookup_2, list_elem_of_In in Hj.
  assert (H : In Pending (List.filter (fun p => negb (is_settled p)) ps)).
  { apply filter_In. split; [exact Hj|reflexivity]. }
  destruct (List.filter _ ps); [contradiction|simpl; lia].
Qed.

Lemma unsettled_all (ps : list promise_state) :
  length (List.filter (fun p => negb (is_settled p)) ps) = O ->
  forall p, In p ps -> is_settled p = true.
Proof.
  intros H p Hp. destruct (is_settled p) eqn:E; [reflexivity|].
  assert (Hin : In p (List.filter (fun p => negb (is_settled p)) ps)).
  { apply filter_In. split; [exact Hp|now rewrite E]. }
  destruct (List.filter _ ps); [contradiction|discriminate].
Qed.

Section Runs.

Variable toISOString : value -> option string.
Variable digest : string -> string -> string -> string.
Variable getGitHubMetadata : string -> string -> string -> string -> result value.
Variable getLocalMetadata : string -> string -> result value.
Variable inputs : list BatchInput.
Variable options : BatchOptions.

Local Abbreviation outcome' :=
  (outcome toISOString digest getGitHubMetadata getLocalMetadata options).
Local Abbreviation sinv :=
  (sched_inv toISOString digest getGitHubMetadata getLocalMetadata inputs options).
Local Abbreviation settle' :=
  (settle toISOString digest getGitHubMetadata getLocalMetadata inputs options).
Local Abbreviation step' :=
  (step toISOString digest getGitHubMetadata getLocalMetadata inputs options).
Local Abbreviation exec' :=
  (exec toISOString digest getGitHubMetadata getLocalMetadata inputs options).
Local Abbreviation rank' := (rank inputs).

Lemma on_error_settled (input : BatchInput) (e : exn) :
  is_settled (on_error options input e) = true.
Proof. unfold on_error. now destruct (continueOnError options). Qed.

Lemma after_adapter_settled (input : BatchInput) (fetched : result value) :
  is_settled (after_adapter toISOString digest options input fetched) = true.
Proof.
  unfold after_adapter. destruct fetched as [metadata|e].
  - destruct (generateIdentifier _ _ _ _); [reflexivity|apply on_error_settled].
  - apply on_error_settled.
Qed.

(** Every event brings the run nearer to its end. *)
Lemma tick_rank (st st' : state) :
  tick inputs options st = Some st' -> (rank' st' < rank' st)%nat.
Proof.
  unfold tick, rank, active.
  destruct (st_pc st) as [i|i [w|]| | |e] eqn:Hpc; try discriminate.
  - destruct (inputs !! i) as [input|] eqn:Hi.
    + apply lookup_lt_Some in Hi.
      destruct (validate_input input) as [call|e].
      * intros H. apply if_Some_inv in H. subst st'.
        cbn [processing promises].
        destruct (Z.of_nat _ >=? concurrency options);
          cbn [set_pc st_pc promises pc_rank];
          rewrite unsettled_app; cbn [is_settled]; lia.
      * intros H. apply if_Some_inv in H. subst st'.
        unfold finally_. cbn [processing promises].
        destruct (Z.of_nat _ >=? concurrency options);
          cbn [set_pc st_pc promises pc_rank];
          rewrite unsettled_app, on_error_settled; lia.
    + intros [= <-]. cbn [set_pc st_pc promises pc_rank]. lia.
  - destruct (promises st !! w) as [[|settled|e]|]; try discriminate.
    + intros [= <-]. cbn [st_pc promises pc_rank]. lia.
    + intros [= <-]. cbn [set_pc st_pc promises pc_rank]. lia.
  - destruct (forallb _ _); [|discriminate].
    intros [= <-]. cbn [st_pc promises pc_rank]. lia.
Qed.

Lemma settle_rank (j : nat) (st st' : state) :
  settle' j st = Some st' -> (rank' st' < rank' st)%nat.
Proof.
  unfold settle, rank, active.
  destruct (promises st !! j) as [[| |]|] eqn:Hj; try discriminate.
  destruct (inputs !! j) as [input|]; [|discriminate].
  destruct (validate_input input) as [call|]; [|discriminate].
  pose proof (unsettled_insert (promises st) j _ Hj
                (after_adapter_settled input
                   (run_adapter getGitHubMetadata getLocalMetadata call))) as Hu.
  unfold finally_. cbn [st_pc processing].
  destruct (st_pc st) as [i|i [w|]| | |e]; try (intros [= <-]; cbn [st_pc promises]; lia).
  destruct (existsb _ _); intros [= <-]; cbn [set_pc st_pc promises pc_rank]; lia.
Qed.

Lemma exec_rank (evs : list event) (st st' : state) :
  exec' evs st = Some st' -> (length evs + rank' st' <= rank' st)%nat.
Proof.
  revert st. induction evs as [|ev evs IH]; intros st; simpl.
  - intros [= <-]. lia.
  - destruct (step' st ev) as [st1|] eqn:Hstep; [|discriminate].
    intros H. apply IH in H.
    assert ((rank' st1 < rank' st)%nat); [|lia].
    destruct ev as [|j]; simpl in Hstep.
    + now apply tick_rank.
    + now apply (settle_rank j).
Qed.

(** X21. A call of [generateBatchIdentifiers] on [N] inputs goes through
    at most [3 N + 2] events (resumptions of its body and completions of
    item computations), whatever the options and the order in which the
    items complete: no run goes on forever. *)
Theorem generateBatchIdentifiers_bounded (evs : list event) (st : state) :
  exec' evs (init inputs) = Some st ->
  (length evs <= 3 * length inputs + 2)%nat.
Proof.
  intros H. apply exec_rank in H.
  assert ((rank' (init inputs) <= 3 * length inputs + 2)%nat); [|lia].
  unfold rank, active, init. cbn [st_pc promises List.filter length].
  destruct inputs; cbn [pc_rank length]; lia.
Qed.

End Runs.

Lemma generateBatchIdentifiers_bounded_witness :
  (length [Tick; Settle 0; Tick; Tick; Tick] <= 3 * length [local_input "a.js"] + 2)%nat.
Proof.
  apply (generateBatchIdentifiers_bounded sample_toISOString sample_digest
           sample_getGitHubMetadata sample_getLocalMetadata
           [local_input "a.js"] (options_with_concurrency 1)
           [Tick; Settle 0; Tick; Tick; Tick]
           (default (init [local_input "a.js"])
              (exec sample_toISOString sample_digest sample_getGitHubMetadata
                 sample_getLocalMetadata [local_input "a.js"]
                 (options_with_concurrency 1)
                 [Tick; Settle 0; Tick; Tick; Tick] (init [local_input "a.js"])))).
  reflexivity.
Defined.
Lemma progress_log_S (n done : nat) :
  progress_log n (S done) = (progress_log n done ++ [(S done, n)])%list.
Proof. unfold progress_log. now rewrite seq_S, map_app. Qed.

Lemma map_seq_lookup {A B} (f : nat -> B) (g : A -> B) (l : list A) :
  forall k,
    (forall j x, l !! j = Some x -> f (k + j)%nat = g x) ->
    map f (seq k (length l)) = map g l.
Proof.
  induction l as [|a l IH]; intros k H; [reflexivity|].
  simpl. f_equal.
  - rewrite <- (H O a eq_refl). f_equal. lia.
  - apply IH. intros j x Hj. rewrite <- (H (S j) x Hj). f_equal. lia.
Qed.

Lemma all_pending_of_find (n : nat) (ps : list promise_state) :
  length ps = n ->
  List.find (promise_settled ps) (map RPromise (seq 0 n)) = None ->
  forall p, In p ps -> p = Pending.
Proof.
  intros Hn Hf p Hp.
  apply list_elem_of_In, list_elem_of_lookup_1 in Hp as [j Hj].
  assert (Hin : In (RPromise j) (map RPromise (seq 0 n))).
  { apply in_map, in_seq. apply lookup_lt_Some in Hj. lia. }
  pose proof (find_none _ _ Hf (RPromise j) Hin) as H.
  simpl in H. rewrite Hj in H. destruct p; [reflexivity|discriminate..].
Qed.

Lemma first_settled_None (n : nat) (ps : list promise_state) :
  length ps = n ->
  first_settled (map RPromise (seq 0 n)) ps = None ->
  forall p, In p ps -> p = Pending.
Proof.
  unfold first_settled. intros Hn.
  destruct (List.find (promise_settled ps) (map RPromise (seq 0 n)))
    as [[id|id]|] eqn:E; try discriminate.
  - apply find_some in E as [Hin _].
    apply in_map_iff in Hin as (? & [=] & _).
  - intros _. now apply (all_pending_of_find n).
Qed.

Lemma all_settled_unsettled (n : nat) (ps : list promise_state) :
  length ps = n ->
  forallb (promise_settled ps) (map RPromise (seq 0 n)) = true ->
  length (List.filter (fun p => negb (is_settled p)) ps) = O.
Proof.
  intros Hn Hall. rewrite forallb_forall in Hall.
  rewrite filter_none; [reflexivity|]. intros p Hp.
  apply list_elem_of_In, list_elem_of_lookup_1 in Hp as [j Hj].
  assert (Hin : In (RPromise j) (map RPromise (seq 0 n))).
  { apply in_map, in_seq. apply lookup_lt_Some in Hj. lia. }
  specialize (Hall _ Hin). simpl in Hall. rewrite Hj in Hall. now rewrite Hall.
Qed.

Lemma existsb_promise (j n : nat) :
  (j < n)%nat -> existsb (ref_eqb (RPromise j)) (map RPromise (seq 0 n)) = true.
Proof.
  intros H. apply existsb_exists. exists (RPromise j). split.
  - apply in_map, in_seq. lia.
  - simpl. apply Nat.eqb_refl.
Qed.

Section Schedule.

Variable toISOString : value -> option string.
Variable digest : string -> string -> string -> string.
Variable getGitHubMetadata : string -> string -> string -> string -> result value.
Variable getLocalMetadata : string -> string -> result value.
Variable inputs : list BatchInput.
Variable options : BatchOptions.

Local Abbreviation outcome' :=
  (outcome toISOString digest getGitHubMetadata getLocalMetadata options).
Local Abbreviation pipeline' :=
  (pipeline toISOString digest getGitHubMetadata getLocalMetadata options).
Local Abbreviation sinv :=
  (sched_inv toISOString digest getGitHubMetadata getLocalMetadata inputs options).
Local Abbreviation settle' :=
  (settle toISOString digest getGitHubMetadata getLocalMetadata inputs options).
Local Abbreviation step' :=
  (step toISOString digest getGitHubMetadata getLocalMetadata inputs options).
Local Abbreviation exec' :=
  (exec toISOString digest getGitHubMetadata getLocalMetadata inputs options).

Lemma sinv_init : sinv (init inputs).
Proof.
  unfold sched_inv, init, active. cbn [processing promises completed progress
    results st_pc length seq map List.filter].
  split; [reflexivity|]. split.
  { intros j p Hj. rewrite lookup_nil in Hj. discriminate. }
  split; [reflexivity|]. split.
  { now destruct (progressCallback options). }
  destruct inputs; simpl; auto.
Qed.

Lemma sinv_length (st : state) :
  sinv st -> (length (promises st) <= length inputs)%nat.
Proof.
  intros (_ & Hps & _).
  destruct (le_lt_dec (length (promises st)) (length inputs)) as [H|H]; [exact H|].
  destruct (lookup_lt_is_Some_2 (promises st) (length inputs) H) as [p Hp].
  destruct (Hps _ _ Hp) as (input & Hi & _). apply lookup_lt_Some in Hi. lia.
Qed.

(** The state after [processOne(inputs[i])] was called and its promise
    pushed. *)
Lemma sinv_started (st st1 : state) (i : nat) (input : BatchInput)
    (p : promise_state) :
  sinv st -> st_pc st = Loop i -> inputs !! i = Some input ->
  match p with
  | Pending => exists call, validate_input input = Ok call
  | _ => p = outcome' input
  end ->
  completed st1 = (completed st + if is_settled p then 1 else 0)%nat ->
  progress st1
  = (if progressCallback options
     then progress_log (length inputs) (completed st1) else []) ->
  processing st1 = (processing st ++ [RPromise i])%list ->
  promises st1 = (promises st ++ [p])%list ->
  results st1 = results st ->
  sinv (if Z.of_nat (length (processing st1)) >=? concurrency options
        then set_pc (AwaitRace i (first_settled (processing st1) (promises st1))) st1
        else set_pc (Loop (S i)) st1).
Proof.
  intros (Hproc & Hps & Hcount & Hprog & Hpc & Hfew) Hloop Hinput Hp Hc1 Hprog1
    Hproc1 Hps1 Hres1.
  rewrite Hloop in Hpc, Hfew.
  assert (Hlen1 : length (promises st1) = S i).
  { rewrite Hps1, length_app. simpl. lia. }
  assert (Hproc1' : processing st1 = map RPromise (seq 0 (length (promises st1)))).
  { rewrite Hproc1, Hlen1, Hproc, Hpc, seq_S, map_app. reflexivity. }
  assert (Hps1' : forall j q, promises st1 !! j = Some q ->
            exists input, inputs !! j = Some input
              /\ match q with
                 | Pending => exists call, validate_input input = Ok call
                 | _ => q = outcome' input
                 end).
  { intros j q. rewrite Hps1. intros Hj.
    apply lookup_app_Some in Hj as [Hj|[Hge Hj]]; [eauto|].
    rewrite Hpc in *. destruct (j - i)%nat as [|n] eqn:Hd; simpl in Hj; [|discriminate].
    replace j with i by lia. injection Hj as <-. eauto. }
  assert (Hcount1 : (completed st1 + active st1 = length (promises st1))%nat).
  { unfold active in *. rewrite Hps1, unsettled_app, length_app, Hc1. simpl.
    destruct (is_settled p); lia. }
  assert (Hplen : length (processing st1) = S i).
  { rewrite Hproc1', length_map, length_seq. assumption. }
  apply lookup_lt_Some in Hinput.
  rewrite Hplen.
  destruct (Z.of_nat (S i) >=? concurrency options) eqn:Hc.
  - apply Z.geb_le in Hc.
    unfold sched_inv. unfold active in *. cbn [set_pc st_pc processing promises
      completed progress results].
    split; [assumption|]. split; [assumption|]. split; [assumption|].
    split; [assumption|]. split.
    + split; [assumption|]. split; [lia|].
      destruct (first_settled (processing st1) (promises st1)) as [j|] eqn:Hfs.
      * now apply first_settled_Some in Hfs.
      * rewrite Hproc1' in Hfs. now apply (first_settled_None _ _ eq_refl).
    + lia.
  - unfold sched_inv. unfold active in *. cbn [set_pc st_pc processing promises
      completed progress results].
    split; [assumption|]. split; [assumption|]. split; [assumption|].
    split; [assumption|]. split; [assumption|].
    intros Hlt. rewrite Hres1. now apply Hfew.
Qed.

Lemma outcome_invalid (input : BatchInput) (e : exn) :
  validate_input input = Err e -> outcome' input = on_error options input e.
Proof. intros H. unfold outcome. now rewrite H. Qed.

Lemma outcome_valid (input : BatchInput) (call : adapter_call) :
  validate_input input = Ok call ->
  outcome' input
  = after_adapter toISOString digest options input
      (run_adapter getGitHubMetadata getLocalMetadata call).
Proof. intros H. unfold outcome. now rewrite H. Qed.

Lemma settled_cases (p : promise_state) (input : BatchInput) :
  is_settled p = true ->
  match p with
  | Pending => exists call : adapter_call, validate_input input = Ok call
  | _ => p = outcome' input
  end ->
  p = outcome' input.
Proof. destruct p; [discriminate|auto..]. Qed.

Lemma sinv_tick (st st' : state) :
  sinv st -> tick inputs options st = Some st' -> sinv st'.
Proof.
  intros Hinv. pose proof (sinv_length st Hinv) as Hle.
  pose proof Hinv as (Hproc & Hps & Hcount & Hprog & Hpc & Hfew).
  unfold tick. destruct (st_pc st) as [i|i [w|]| | |e] eqn:Hloop.
  - destruct (inputs !! i) as [input|] eqn:Hinput.
    + destruct (validate_input input) as [call|e] eqn:Hv.
      * intros H. apply if_Some_inv in H. rewrite <- H.
        apply (sinv_started st _ i input Pending);
          [assumption|assumption|assumption| | | |reflexivity|reflexivity|reflexivity].
        -- eauto.
        -- simpl. lia.
        -- exact Hprog.
      * intros H. apply if_Some_inv in H. rewrite <- H.
        apply (sinv_started st _ i input (on_error options input e));
          [assumption|assumption|assumption| | | |reflexivity|reflexivity|reflexivity].
        -- pose proof (on_error_settled options input e) as Hs.
           rewrite <- (outcome_invalid input e Hv) in *.
           destruct (outcome' input); [discriminate|reflexivity..].
        -- rewrite on_error_settled. simpl. lia.
        -- unfold finally_. cbn [progress completed]. rewrite Hprog.
           destruct (progressCallback options); [|reflexivity].
           now rewrite progress_log_S.
    + intros [= <-]. apply lookup_ge_None in Hinput.
      unfold sched_inv. unfold active in *.
      cbn [set_pc st_pc processing promises completed progress results].
      split; [assumption|]. split; [assumption|]. split; [assumption|].
      split; [assumption|]. split; [lia|]. assumption.
  - destruct Hpc as (Hi & Hc & [p [Hw Hs]]). rewrite Hw.
    destruct (Hps w p Hw) as (input & Hinput & Hp).
    pose proof (settled_cases p input Hs Hp) as Hout.
    destruct p as [|settled|e]; [discriminate| |].
    + intros [= <-]. unfold sched_inv. unfold active in *.
      cbn [st_pc processing promises completed progress results].
      rewrite Hproc at 1. rewrite indexOf_result_among_promises.
      split; [assumption|]. split; [assumption|]. split; [assumption|].
      split; [assumption|]. split; [assumption|].
      intros Hlt. destruct (Hfew Hlt).
    + intros [= <-]. unfold sched_inv. unfold active in *.
      cbn [set_pc st_pc processing promises completed progress results].
      split; [assumption|]. split; [assumption|]. split; [assumption|].
      split; [assumption|]. split.
      * exists input. split; [|now rewrite <- Hout].
        apply list_elem_of_In. eapply list_elem_of_lookup_2; eauto.
      * intros Hlt. destruct (Hfew Hlt).
  - discriminate.
  - destruct (forallb (promise_settled (promises st)) (processing st)) eqn:Hall;
      [|discriminate].
    intros [= <-]. rewrite Hproc in Hall.
    pose proof (all_settled_unsettled _ _ eq_refl Hall) as Hzero.
    unfold sched_inv. unfold active in *.
    cbn [st_pc processing promises completed progress results].
    split; [assumption|]. split; [assumption|]. split; [assumption|].
    split; [assumption|]. split; [auto|].
    intros Hlt. rewrite (Hfew Hlt). cbn [app].
    rewrite Hproc, map_map, Hpc.
    apply (map_seq_lookup _ _ inputs 0). intros j input Hj.
    cbn [Nat.add settled_value].
    assert (Hjlt : (j < length (promises st))%nat).
    { rewrite Hpc. eapply lookup_lt_Some; eauto. }
    destruct (lookup_lt_is_Some_2 _ _ Hjlt) as [p Hp]. rewrite Hp.
    destruct (Hps j p Hp) as (input' & Hinput' & Hcase).
    assert (input' = input) by congruence. subst input'.
    assert (Hs : is_settled p = true).
    { apply (unsettled_all _ Hzero). apply list_elem_of_In.
      eapply list_elem_of_lookup_2; eauto. }
    rewrite <- (settled_cases p input Hs Hcase).
    destruct p; [discriminate|reflexivity..].
  - discriminate.
  - discriminate.
Qed.

Lemma sinv_settle (j : nat) (st st' : state) :
  sinv st -> settle' j st = Some st' -> sinv st'.
Proof.
  intros Hinv. pose proof Hinv as (Hproc & Hps & Hcount & Hprog & Hpc & Hfew).
  unfold settle.
  destruct (promises st !! j) as [[| |]|] eqn:Hj; try discriminate.
  destruct (inputs !! j) as [input|] eqn:Hinput; [|discriminate].
  destruct (validate_input input) as [call|] eqn:Hv; [|discriminate].
  rewrite <- (outcome_valid input call Hv).
  assert (Hs : is_settled (outcome' input) = true).
  { rewrite (outcome_valid input call Hv). apply after_adapter_settled. }
  assert (Hjlt : (j < length (promises st))%nat) by (eapply lookup_lt_Some; eauto).
  set (ps := <[ j := outcome' input ]> (promises st)).
  assert (Hlen' : length ps = length (promises st)) by apply length_insert.
  assert (Hps' : forall k p, ps !! k = Some p ->
            exists input, inputs !! k = Some input
              /\ match p with
                 | Pending => exists call, validate_input input = Ok call
                 | _ => p = outcome' input
                 end).
  { intros k p. unfold ps. destruct (decide (k = j)) as [->|Hne].
    - rewrite list_lookup_insert_eq by assumption. intros [= <-].
      exists input. split; [assumption|].
      destruct (outcome' input); [discriminate|reflexivity..].
    - rewrite list_lookup_insert_ne by congruence. apply Hps. }
  assert (Hact : S (length (List.filter (fun p => negb (is_settled p)) ps))
                 = length (List.filter (fun p => negb (is_settled p)) (promises st))).
  { unfold ps. now apply unsettled_insert. }
  assert (Hkeep : forall k, (exists p, promises st !! k = Some p /\ is_settled p = true) ->
            exists p, ps !! k = Some p /\ is_settled p = true).
  { intros k (p & Hk & Hsp). unfold ps. destruct (decide (k = j)) as [->|Hne].
    - rewrite list_lookup_insert_eq by assumption. eauto.
    - rewrite list_lookup_insert_ne by congruence. eauto. }
  assert (Hprog' :
    (if progressCallback options
     then (progress st ++ [(S (completed st), total inputs)])%list
     else progress st)
    = (if progressCallback options
       then progress_log (length inputs) (S (completed st)) else [])).
  { rewrite Hprog. destruct (progressCallback options); [|reflexivity].
    now rewrite progress_log_S. }
  assert (Hbase : forall p' : pc,
    match p' with
    | Loop i => length ps = i
    | AwaitRace i w =>
        length ps = S i /\ Z.of_nat (S i) >= concurrency options
        /\ match w with
           | Some k => exists p, ps !! k = Some p /\ is_settled p = true
           | None => forall p, In p ps -> p = Pending
           end
    | AwaitAll => length ps = length inputs
    | Done =>
        length ps = length inputs
        /\ length (List.filter (fun p => negb (is_settled p)) ps) = O
    | Failed e => exists input, In input inputs /\ outcome' input = Rejected e
    end ->
    (Z.of_nat (length inputs) < concurrency options ->
     match p' with
     | Loop _ | AwaitAll => results st = []
     | Done => results st = map (fun input => fallback (outcome' input)) inputs
     | AwaitRace _ _ | Failed _ => False
     end) ->
    sinv {| st_pc := p'; processing := processing st; results := results st;
            promises := ps; completed := S (completed st);
            progress := if progressCallback options
                        then (progress st ++ [(S (completed st), total inputs)])%list
                        else progress st |}).
  { intros p' Hp' Hfew'. unfold sched_inv. unfold active in *.
    cbn [st_pc processing promises completed progress results].
    split; [rewrite Hlen'; assumption|]. split; [assumption|].
    split; [rewrite Hlen'; lia|]. split; [assumption|]. split; assumption. }
  unfold finally_. cbn [st_pc processing promises completed progress results].
  destruct (st_pc st) as [i|i [w|]| | |e] eqn:Hloop.
  - intros [= <-]. apply Hbase; [rewrite Hlen'|]; assumption.
  - intros [= <-]. destruct Hpc as (Hi & Hc & Hw).
    apply Hbase; [rewrite Hlen'; auto|assumption].
  - destruct Hpc as (Hi & Hc & _).
    assert (He : existsb (ref_eqb (RPromise j)) (processing st) = true)
      by (rewrite Hproc; now apply existsb_promise).
    rewrite He. intros [= <-]. unfold set_pc.
    cbn [st_pc processing promises completed progress results].
    apply Hbase; [rewrite Hlen'|assumption].
    split; [assumption|]. split; [assumption|].
    exists (outcome' input). split; [|assumption].
    unfold ps. now apply list_lookup_insert_eq.
  - intros [= <-]. apply Hbase; [rewrite Hlen'|]; assumption.
  - exfalso. destruct Hpc as [_ Hzero]. unfold active in Hzero.
    pose proof (unsettled_Pending _ _ Hj). lia.
  - intros [= <-]. apply Hbase; assumption.
Qed.

Lemma sinv_exec (evs : list event) (st st' : state) :
  sinv st -> exec' evs st = Some st' -> sinv st'.
Proof.
  revert st. induction evs as [|ev evs IH]; intros st Hinv; simpl.
  - intros [= <-]. assumption.
  - destruct (step' st ev) as [st1|] eqn:Hstep; [|discriminate].
    apply IH. destruct ev as [|j]; simpl in Hstep.
    + eapply sinv_tick; eauto.
    + eapply sinv_settle; eauto.
Qed.

End Schedule.
Lemma forallb_false_exists {A} (f : A -> bool) (l : list A) :
  forallb f l = false -> exists x, In x l /\ f x = false.
Proof.
  induction l as [|a l IH]; [discriminate|].
  simpl. destruct (f a) eqn:E.
  - intros H. destruct (IH H) as (x & Hx & Hf). exists x. auto.
  - intros _. exists a. auto.
Qed.

Section Outcomes.

Variable toISOString : value -> option string.
Variable digest : string -> string -> string -> string.
Variable getGitHubMetadata : string -> string -> string -> string -> result value.
Variable getLocalMetadata : string -> string -> result value.
Variable inputs : list BatchInput.
Variable options : BatchOptions.

Local Abbreviation outcome' :=
  (outcome toISOString digest getGitHubMetadata getLocalMetadata options).
Local Abbreviation pipeline' :=
  (pipeline toISOString digest getGitHubMetadata getLocalMetadata options).
Local Abbreviation sinv :=
  (sched_inv toISOString digest getGitHubMetadata getLocalMetadata inputs options).
Local Abbreviation settle' :=
  (settle toISOString digest getGitHubMetadata getLocalMetadata inputs options).
Local Abbreviation step' :=
  (step toISOString digest getGitHubMetadata getLocalMetadata inputs options).
Local Abbreviation exec' :=
  (exec toISOString digest getGitHubMetadata getLocalMetadata inputs options).
Local Abbreviation sinv_exec' :=
  (sinv_exec toISOString digest getGitHubMetadata getLocalMetadata inputs options).
Local Abbreviation sinv_init' :=
  (sinv_init toISOString digest getGitHubMetadata getLocalMetadata inputs options).


Lemma outcome_Rejected (input : BatchInput) (e : exn) :
  outcome' input = Rejected e ->
  continueOnError options = false /\ pipeline' input = Err e.
Proof.
  assert (Hon : forall e0, on_error options input e0 = Rejected e ->
            continueOnError options = false /\ e0 = e).
  { intros e0. unfold on_error. destruct (continueOnError options); [discriminate|].
    now intros [= ->]. }
  unfold pipeline, outcome, after_adapter.
  destruct (validate_input input) as [call|e0]; cbn [mbind result_bind].
  - destruct (run_adapter getGitHubMetadata getLocalMetadata call) as [metadata|e1];
      cbn [mbind result_bind].
    + destruct (generateIdentifier _ _ _ _); [discriminate|].
      intros H. apply Hon in H as [H ->]. auto.
    + intros H. apply Hon in H as [H ->]. auto.
  - intros H. apply Hon in H as [H ->]. auto.
Qed.

(** In a state a run goes through, the body of the function can resume, or
    an item computation in flight can complete, unless the function has
    returned or rejected. *)
Lemma sinv_enabled (st : state) :
  sinv st -> is_final (st_pc st) = false -> exists ev st', step' st ev = Some st'.
Proof.
  intros (Hproc & Hps & Hcount & Hprog & Hpc & Hfew) Hfinal.
  assert (Hsettle : forall j, promises st !! j = Some Pending ->
            ~ (exists i, st_pc st = AwaitRace i None
                 /\ existsb (ref_eqb (RPromise j)) (processing st) = false) ->
            exists st', settle' j st = Some st').
  { intros j Hj Hnot. destruct (Hps j _ Hj) as (input & Hinput & call & Hv).
    unfold settle. rewrite Hj, Hinput, Hv. unfold finally_. cbn [st_pc processing].
    destruct (st_pc st) as [i|i [w|]| | |e]; eauto.
    destruct (existsb _ _); eauto. }
  destruct (st_pc st) as [i|i [w|]| | |e] eqn:Hloop; try discriminate.
  - exists Tick. unfold step, tick. rewrite Hloop.
    destruct (inputs !! i) as [input|]; [|eauto].
    destruct (validate_input input); destruct (Z.of_nat _ >=? _); eauto.
  - exists Tick. unfold step, tick. rewrite Hloop.
    destruct Hpc as (_ & _ & p & -> & Hs). destruct p; [discriminate|eauto..].
  - destruct Hpc as (Hlen & _ & Hall).
    assert (Hi : (i < length (promises st))%nat) by lia.
    destruct (lookup_lt_is_Some_2 _ _ Hi) as [p Hp].
    assert (p = Pending).
    { apply Hall. apply list_elem_of_In. eapply list_elem_of_lookup_2; eauto. }
    subst p. destruct (Hsettle i Hp) as [st' Hst'].
    + intros (i' & _ & Hex). rewrite Hproc, existsb_promise in Hex by exact Hi.
      discriminate.
    + exists (Settle i), st'. exact Hst'.
  - destruct (forallb (promise_settled (promises st)) (processing st)) eqn:Hall.
    + exists Tick. unfold step, tick. rewrite Hloop, Hall. eauto.
    + apply forallb_false_exists in Hall as (r & Hr & Hns).
      rewrite Hproc in Hr. apply in_map_iff in Hr as (j & <- & Hj).
      apply in_seq in Hj. simpl in Hns.
      destruct (lookup_lt_is_Some_2 (promises st) j ltac:(lia)) as [p Hp].
      rewrite Hp in Hns. destruct p; try discriminate.
      destruct (Hsettle j Hp) as [st' Hst'].
      * intros (i' & Hi' & _). discriminate.
      * exists (Settle j), st'. exact Hst'.
Qed.

Lemma sinv_completes (n : nat) :
  forall st, (rank inputs st < n)%nat -> sinv st ->
    exists evs st', exec' evs st = Some st' /\ is_final (st_pc st') = true.
Proof.
  induction n as [|n IH]; intros st Hrank Hinv; [lia|].
  destruct (is_final (st_pc st)) eqn:Hfinal.
  - exists [], st. auto.
  - destruct (sinv_enabled st Hinv Hfinal) as (ev & st1 & Hstep).
    assert (Hlt : (rank inputs st1 < rank inputs st)%nat).
    { destruct ev as [|j]; simpl in Hstep.
      - now apply tick_rank in Hstep.
      - now apply settle_rank in Hstep. }
    assert (Hinv1 : sinv st1).
    { apply (sinv_exec' [ev] st); [exact Hinv|]. simpl. now rewrite Hstep. }
    destruct (IH st1 ltac:(lia) Hinv1) as (evs & st' & Hexec & Hend).
    exists (ev :: evs), st'. split; [|exact Hend]. simpl. now rewrite Hstep.
Qed.

(** X22. A call of [generateBatchIdentifiers] never gets stuck: in every
    state a run goes through, unless the function has returned or rejected,
    its body can resume or an item computation in flight can complete; and
    every run can be continued until the function returns or rejects. *)
Theorem generateBatchIdentifiers_settles (evs : list event) (st : state) :
  exec' evs (init inputs) = Some st ->
  (is_final (st_pc st) = false -> exists ev st', step' st ev = Some st')
  /\ exists evs' st',
       exec' evs' st = Some st' /\ is_final (st_pc st') = true.
Proof.
  intros H. pose proof (sinv_exec' evs _ _ sinv_init' H) as Hinv. split.
  - now apply sinv_enabled.
  - now apply (sinv_completes (S (rank inputs st))); [lia|].
Qed.



End Outcomes.

Lemma generateBatchIdentifiers_settles_witness :
  (is_final (st_pc (strict_run 1 [local_input "a.js"] [Tick])) = false ->
   exists ev st',
     step sample_toISOString sample_digest sample_getGitHubMetadata
       sample_getLocalMetadata [local_input "a.js"] (strict_options 1)
       (strict_run 1 [local_input "a.js"] [Tick]) ev = Some st')
  /\ exists evs' st',
       exec sample_toISOString sample_digest sample_getGitHubMetadata
         sample_getLocalMetadata [local_input "a.js"] (strict_options 1)
         evs' (strict_run 1 [local_input "a.js"] [Tick]) = Some st'
       /\ is_final (st_pc st') = true.
Proof.
  apply (generateBatchIdentifiers_settles sample_toISOString sample_digest
           sample_getGitHubMetadata sample_getLocalMetadata
           [local_input "a.js"] (strict_options 1) [Tick]).
  reflexivity.
Defined.



(** The sample runs end as the theorems say. *)
Example strict_run_rejects :
  st_pc (strict_run 1 [untyped_input] [Tick; Tick])
  = Failed (TypeError "Invalid input type: undefined. Must be 'github' or 'local'").
Proof. reflexivity. Qed.

Example strict_run_below_concurrency :
  st_pc (strict_run 10 [github_input "a.js"; local_input "b.js"]
           [Tick; Tick; Tick; Settle 0; Settle 1; Tick]) = Done
  /\ map (fun r => (filePath r, status r, error r))
       (results (strict_run 10 [github_input "a.js"; local_input "b.js"]
                   [Tick; Tick; Tick; Settle 0; Settle 1; Tick]))
     = [ (None, "error", Some "GitHub API request failed");
         (Some "b.js", "success", None) ]
  /\ progress (strict_run 10 [github_input "a.js"; local_input "b.js"]
                 [Tick; Tick; Tick; Settle 0; Settle 1; Tick])
     = [(1%nat, 2%nat); (2%nat, 2%nat)].
Proof. repeat split; reflexivity. Qed.
(** ** The canonical form: sorted keys, arrays kept, no whitespace *)

Lemma distinct_NoDup (keys : list string) :
  distinct keys = true -> List.NoDup keys.
Proof.
  induction keys as [|k keys IH]; [constructor|].
  simpl. intros H. apply andb_prop in H as [Hk Hd].
  constructor; [|now apply IH].
  intros Hin. apply existsb_eqb_In in Hin. now rewrite Hin in Hk.
Qed.

Lemma plain_keys_obj (o : props) :
  plain_keys (VObj o) = true
  <-> distinct (obj_keys o) = true
      /\ forallb plain_key (obj_keys o) = true
      /\ forall k w, In (k, w) o -> plain_keys w = true.
Proof.
  cbn [plain_keys]. rewrite !andb_true_iff.
  assert (H : (fix go (o0 : props) : bool :=
                 match o0 with
                 | [] => true
                 | (_, w) :: o' => plain_keys w && go o'
                 end) o = true
              <-> forall k w, In (k, w) o -> plain_keys w = true).
  { induction o as [|[k0 w0] o IH].
    - split; [intros _ k w []|reflexivity].
    - rewrite andb_true_iff, IH. split.
      + intros [H0 H1] k w [[= <- <-]|Hin]; eauto.
      + intros H. split; [apply (H k0); now left|].
        intros k w Hin. apply (H k). now right. }
  rewrite H. tauto.
Qed.

Lemma space_free_obj (o : props) :
  space_free (VObj o) = true
  <-> forall k w, In (k, w) o -> no_space k = true /\ space_free w = true.
Proof.
  cbn [space_free]. induction o as [|[k0 w0] o IH].
  - split; [intros _ k w []|reflexivity].
  - rewrite !andb_true_iff, IH. split.
    + intros [[H0 H1] H2] k w [[= <- <-]|Hin]; eauto.
    + intros H. split; [apply (H k0 w0); now left|].
      intros k w Hin. apply H. now right.
Qed.

Lemma space_free_arr (l : list value) :
  space_free (VArr l) = true <-> forall x, In x l -> space_free x = true.
Proof.
  cbn [space_free]. induction l as [|x0 l IH].
  - split; [intros _ x []|reflexivity].
  - rewrite andb_true_iff, IH. split.
    + intros [H0 H1] x [<-|Hin]; eauto.
    + intros H. split; [apply H; now left|]. intros x Hin. apply H. now right.
Qed.

Lemma obj_get_mem (k : string) (o : props) :
  In k (obj_keys o) -> In (k, obj_get k o) o.
Proof.
  induction o as [|[k0 v0] o IH]; [contradiction|].
  simpl. destruct (String.eqb_spec k0 k) as [->|Hne].
  - intros _. now left.
  - intros [H|H]; [contradiction|]. right. now apply IH.
Qed.

Lemma key_in_keys (k : string) (w : value) (o : props) :
  In (k, w) o -> In k (obj_keys o).
Proof. intros H. unfold obj_keys. apply in_map_iff. now exists (k, w). Qed.

(** What [sortObjectKeys] returns has its keys in increasing order, at the
    top and in every object under a key. *)
Lemma sortObjectKeys_keys_sorted : forall v, keys_sorted (sortObjectKeys v).
Proof.
  fix IH 1. intros [| | | | | |o]; try (apply keys_sorted_other; reflexivity).
  assert (Hall : forall w, In w (map snd o) -> keys_sorted (sortObjectKeys w)).
  { induction o as [|[k w] o IHo]; [contradiction|].
    intros w' [<-|Hin]; [apply IH|now apply IHo]. }
  destruct (sortObjectKeys_keys o) as [Hs Hk].
  pose proof (sortObjectKeys_lookup o) as Hl.
  rewrite sortObjectKeys_object in *. cbn [get_props get_prop] in *.
  set (sorted := fold_left _ _ _) in *.
  apply keys_sorted_obj; [exact Hs|].
  intros k w Hin. destruct (key_lt_sorted _ Hs) as [_ Hnd].
  rewrite <- (obj_get_In k w sorted Hnd Hin).
  apply key_in_keys, Hk in Hin as [Hko Hne].
  rewrite Hl by exact Hne. apply Hall. now apply obj_get_value_In.
Qed.

Lemma plain_key_not_proto (k : string) (keys : list string) :
  forallb plain_key keys = true -> In k keys -> k <> "__proto__".
Proof.
  intros H Hin. rewrite forallb_forall in H. specialize (H k Hin).
  unfold plain_key in H. apply andb_prop in H as [_ H].
  apply negb_true_iff in H. now apply String.eqb_neq.
Qed.

(** What [sortObjectKeys] returns differs from its argument in the order
    of keys only, arrays being the same. *)
Lemma sortObjectKeys_key_equiv_self :
  forall v, plain_keys v = true -> key_equiv false v (sortObjectKeys v).
Proof.
  fix IH 1. intros [| | | | | |o] Hp; try apply key_equiv_refl.
  apply plain_keys_obj in Hp as (Hd & Hpk & Hch).
  assert (Hall : forall w, In w (map snd o) -> plain_keys w = true ->
            key_equiv false w (sortObjectKeys w)).
  { clear Hd Hpk Hch. induction o as [|[k w] o IHo]; [contradiction|].
    intros w' [<-|Hin]; [apply IH|now apply IHo]. }
  destruct (sortObjectKeys_keys o) as [Hs Hk].
  pose proof (sortObjectKeys_lookup o) as Hl.
  rewrite sortObjectKeys_object in *. cbn [get_props get_prop] in *.
  set (sorted := fold_left _ _ _) in *.
  destruct (key_lt_sorted _ Hs) as [_ Hnd].
  apply key_equiv_obj.
  - now apply distinct_NoDup.
  - exact Hnd.
  - intros k. rewrite Hk. split; [|tauto].
    intros Hin. split; [exact Hin|]. now apply (plain_key_not_proto k (obj_keys o)).
  - intros k. destruct (in_dec string_dec k (obj_keys o)) as [Hin|Hnot].
    + rewrite Hl by now apply (plain_key_not_proto k (obj_keys o)).
      apply Hall; [now apply obj_get_value_In|].
      apply (Hch k). now apply obj_get_mem.
    + rewrite (obj_get_absent k o Hnot), (obj_get_absent k sorted).
      * apply key_equiv_refl.
      * intros Hin. apply Hk in Hin. tauto.
Qed.

Lemma sortObjectKeys_space_free :
  forall v, space_free v = true -> space_free (sortObjectKeys v) = true.
Proof.
  fix IH 1. intros [| | | | | |o] Hp; try exact Hp.
  assert (Hall : forall w, In w (map snd o) -> space_free w = true ->
            space_free (sortObjectKeys w) = true).
  { clear Hp. induction o as [|[k w] o IHo]; [contradiction|].
    intros w' [<-|Hin]; [apply IH|now apply IHo]. }
  rewrite space_free_obj in Hp.
  destruct (sortObjectKeys_keys o) as [Hs Hk].
  pose proof (sortObjectKeys_lookup o) as Hl.
  rewrite sortObjectKeys_object in *. cbn [get_props get_prop] in *.
  set (sorted := fold_left _ _ _) in *.
  destruct (key_lt_sorted _ Hs) as [_ Hnd].
  apply space_free_obj. intros k w Hin.
  rewrite <- (obj_get_In k w sorted Hnd Hin).
  apply key_in_keys, Hk in Hin as [Hko Hne].
  rewrite Hl by exact Hne.
  destruct (Hp k (obj_get k o) (obj_get_mem k o Hko)) as [H1 H2].
  split; [exact H1|]. apply Hall; [now apply obj_get_value_In|exact H2].
Qed.

(** *** The compact text *)

Lemma no_whitespace_app (s t : string) :
  no_whitespace (s ++ t) = no_whitespace s && no_whitespace t.
Proof. apply all_chars_app. Qed.

Lemma no_whitespace_join (l : list string) :
  (forall s, In s l -> no_whitespace s = true) ->
  no_whitespace (array_join "," l) = true.
Proof.
  induction l as [|x l IH]; [reflexivity|]. intros H.
  destruct l as [|y l]; [apply H; now left|].
  change (array_join "," (x :: y :: l)) with (x ++ "," ++ array_join "," (y :: l)).
  rewrite !no_whitespace_app, (H x) by now left.
  rewrite IH; [reflexivity|]. intros s Hs. apply H. now right.
Qed.

Lemma wrap_compact_no_whitespace (open_ close_ : string) (partial : list string) :
  no_whitespace open_ = true -> no_whitespace close_ = true ->
  (forall s, In s partial -> no_whitespace s = true) ->
  no_whitespace (wrap_partial open_ close_ "" "" "" partial) = true.
Proof.
  intros Ho Hc Hp. unfold wrap_partial. destruct partial as [|x partial].
  - now rewrite no_whitespace_app, Ho, Hc.
  - cbn [is_empty String.eqb].
    now rewrite !no_whitespace_app, Ho, Hc, no_whitespace_join.
Qed.

Lemma quote_char_no_whitespace (c : ascii) :
  Ascii.eqb c " " = false -> no_whitespace (quote_char c) = true.
Proof.
  destruct c as [[] [] [] [] [] [] [] []]; vm_compute; intros H;
    first [reflexivity | discriminate H].
Qed.

Lemma QuoteJSONString_no_whitespace (s : string) :
  no_space s = true -> no_whitespace (QuoteJSONString s) = true.
Proof.
  unfold QuoteJSONString, no_space. intros H. apply negb_true_iff in H.
  change (no_whitespace (String dquote (quote_chars s ++ String dquote "")))
    with (no_whitespace (quote_chars s ++ String dquote "")).
  rewrite no_whitespace_app, andb_true_r.
  induction s as [|c s IH]; [reflexivity|].
  simpl in H. apply orb_false_elim in H as [Hc Hs].
  cbn [quote_chars]. now rewrite no_whitespace_app, quote_char_no_whitespace, IH.
Qed.

Lemma pretty_N_go_no_whitespace (x : N) :
  forall s, no_whitespace s = true -> no_whitespace (pretty_N_go x s) = true.
Proof.
  induction (N.lt_wf_0 x) as [x _ IH]. intros s Hs.
  destruct (decide (x = 0)%N) as [->|Hx].
  - now rewrite pretty_N_go_0.
  - rewrite pretty_N_go_step by lia. apply IH.
    + apply N.div_lt; lia.
    + change (negb (is_ws (pretty_N_char (x `mod` 10)%N)) && no_whitespace s = true).
      rewrite Hs, andb_true_r. unfold pretty_N_char.
      repeat case_match; reflexivity.
Qed.

Lemma pretty_Z_no_whitespace (n : Z) : no_whitespace (pretty n) = true.
Proof.
  assert (Hp : forall p : positive, no_whitespace (pretty p) = true).
  { intros p. unfold pretty, pretty_positive, pretty, pretty_N.
    destruct (decide (N.pos p = 0%N)); [reflexivity|].
    now apply pretty_N_go_no_whitespace. }
  destruct n as [|p|p]; unfold pretty, pretty_Z.
  - reflexivity.
  - apply Hp.
  - rewrite no_whitespace_app. now rewrite Hp.
Qed.

Lemma serialize_compact_arr (l : list value) :
  SerializeJSONProperty "" "" (VArr l)
  = Some (wrap_partial "[" "]" "" "" ""
            (map (fun x => default "null" (SerializeJSONProperty "" "" x)) l)).
Proof.
  reflexivity.
Qed.

Lemma serialize_compact_obj (o : props) :
  SerializeJSONProperty "" "" (VObj o)
  = Some (wrap_partial "{" "}" "" "" ""
            (flat_map
               (fun kv =>
                  match SerializeJSONProperty "" "" (snd kv) with
                  | Some str => [QuoteJSONString (fst kv) ++ ":" ++ str]
                  | None => []
                  end) o)).
Proof.
  cbn [SerializeJSONProperty]. do 2 f_equal.
  induction o as [|[k x] o IH]; [reflexivity|].
  cbn [flat_map fst snd]. rewrite <- IH.
  destruct (SerializeJSONProperty "" "" x) eqn:E;
    change (SerializeJSONProperty "" ("" ++ "") x) with (SerializeJSONProperty "" "" x);
    rewrite E; reflexivity.
Qed.

(** [JSON.stringify] without indentation writes no whitespace of its
    own. *)
Lemma serialize_no_whitespace :
  forall v, space_free v = true ->
    forall text, SerializeJSONProperty "" "" v = Some text ->
      no_whitespace text = true.
Proof.
  fix IH 1. intros [| |b|n|s|l|o] Hp text.
  - discriminate.
  - intros [= <-]. reflexivity.
  - destruct b; intros [= <-]; reflexivity.
  - intros [= <-]. apply pretty_Z_no_whitespace.
  - intros [= <-]. now apply QuoteJSONString_no_whitespace.
  - assert (Hall : forall x, In x l -> space_free x = true ->
              forall t, SerializeJSONProperty "" "" x = Some t ->
                no_whitespace t = true).
    { clear Hp. induction l as [|x l IHl]; [contradiction|].
      intros x' [<-|Hin]; [apply IH|now apply IHl]. }
    rewrite space_free_arr in Hp.
    rewrite serialize_compact_arr. intros [= <-].
    apply wrap_compact_no_whitespace; try reflexivity.
    intros t Ht. apply in_map_iff in Ht as (x & <- & Hx).
    destruct (SerializeJSONProperty "" "" x) as [t|] eqn:E; [|reflexivity].
    apply (Hall x Hx (Hp x Hx) t E).
  - assert (Hall : forall x, In x (map snd o) -> space_free x = true ->
              forall t, SerializeJSONProperty "" "" x = Some t ->
                no_whitespace t = true).
    { clear Hp. induction o as [|[k x] o IHo]; [contradiction|].
      intros x' [<-|Hin]; [apply IH|now apply IHo]. }
    rewrite space_free_obj in Hp.
    rewrite serialize_compact_obj. intros [= <-].
    apply wrap_compact_no_whitespace; try reflexivity.
    intros t Ht. apply in_flat_map in Ht as ([k x] & Hkx & Ht). cbn [fst snd] in Ht.
    destruct (SerializeJSONProperty "" "" x) as [str|] eqn:E; [|contradiction].
    destruct Ht as [<-|[]]. destruct (Hp k x Hkx) as [Hk Hx].
    rewrite !no_whitespace_app, (QuoteJSONString_no_whitespace k Hk).
    cbn [andb]. change (no_whitespace ":") with true. cbn [andb].
    apply (Hall x); [|exact Hx|exact E].
    apply in_map_iff. now exists (k, x).
Qed.
(** C4, as the code has it. Two values equal up to the key order of
    objects that are not inside an array, their arrays being equal, have
    the same canonical string. For a value whose keys, at the top and in
    every object nested under a key, are pairwise distinct and are neither
    written with digits only nor "__proto__", the canonical string is the
    text [JSON.stringify] writes without indentation for a value [sorted]
    that differs from the argument in the order of keys only, and whose
    keys are in strictly increasing order at the top and in every object
    nested under a key; an array under a key is kept as it is, so that the
    objects inside it keep the key order they came with, and an array is
    serialized as it is. The canonical string holds no space, tab or line
    break unless a key or a string of the value holds a space. *)
Theorem canonicalizeMetadata_key_order (a b : value) :
  key_equiv false a b ->
  canonicalizeMetadata a = canonicalizeMetadata b
  /\ (plain_keys a = true ->
      exists sorted,
        canonicalizeMetadata a = JSON_stringify sorted
        /\ keys_sorted sorted
        /\ key_equiv false a sorted
        /\ (forall k l, get_prop k a = VArr l -> get_prop k sorted = VArr l))
  /\ (forall l, canonicalizeMetadata (VArr l) = JSON_stringify (VArr l))
  /\ (space_free a = true ->
      forall canonical,
        canonicalizeMetadata a = Some canonical ->
        no_whitespace canonical = true).
Proof.
  intros H. split; [|split; [|split]].
  - unfold canonicalizeMetadata.
    rewrite (sortObjectKeys_key_equiv a b H). reflexivity.
  - intros Hplain. exists (sortObjectKeys a).
    split; [reflexivity|]. split; [apply sortObjectKeys_keys_sorted|].
    split; [now apply sortObjectKeys_key_equiv_self|].
    intros k l Hk. destruct a as [| | | | | |o]; try discriminate.
    cbn [get_prop] in Hk.
    apply plain_keys_obj in Hplain as (_ & Hpk & _).
    assert (Hin : In k (obj_keys o)).
    { destruct (in_dec string_dec k (obj_keys o)) as [Hin|Hnot]; [exact Hin|].
      rewrite (obj_get_absent k o Hnot) in Hk. discriminate. }
    rewrite sortObjectKeys_lookup
      by now apply (plain_key_not_proto k (obj_keys o)).
    now rewrite Hk.
  - reflexivity.
  - intros Hfree canonical Hc. unfold canonicalizeMetadata, JSON_stringify in Hc.
    apply (serialize_no_whitespace (sortObjectKeys a)); [|exact Hc].
    now apply sortObjectKeys_space_free.
Qed.

Lemma canonicalizeMetadata_key_order_witness :
  canonicalizeMetadata record_ab = canonicalizeMetadata record_ba
  /\ (plain_keys record_ab = true ->
      exists sorted,
        canonicalizeMetadata record_ab = JSON_stringify sorted
        /\ keys_sorted sorted
        /\ key_equiv false record_ab sorted
        /\ (forall k l, get_prop k record_ab = VArr l -> get_prop k sorted = VArr l))
  /\ (forall l, canonicalizeMetadata (VArr l) = JSON_stringify (VArr l))
  /\ (space_free record_ab = true ->
      forall canonical,
        canonicalizeMetadata record_ab = Some canonical ->
        no_whitespace canonical = true).
Proof.
  apply (canonicalizeMetadata_key_order record_ab record_ba).
  exact record_ab_equiv_ba.
Defined.

(** The sample record satisfies the side conditions, and its canonical
    string is the compact text with the keys in order. *)
Example record_ba_canonical :
  plain_keys record_ba = true
  /\ space_free record_ba = true
  /\ canonicalizeMetadata record_ba
     = Some ("{" ++ String dquote "a" ++ String dquote ":{"
             ++ String dquote "x" ++ String dquote ":2,"
             ++ String dquote "y" ++ String dquote ":1},"
             ++ String dquote "b" ++ String dquote ":[1,2]}").
Proof. repeat split; reflexivity. Qed.
(** ** Every way a call rejects *)

Lemma on_error_Rejected (options : BatchOptions) (input : BatchInput) (e0 e : exn) :
  on_error options input e0 = Rejected e ->
  continueOnError options = false /\ e0 = e.
Proof.
  unfold on_error. destruct (continueOnError options); [discriminate|].
  now intros [= ->].
Qed.

(** The steps past the call of [processOne] settle no promise, and reject
    with what a promise was rejected with. *)
Lemma tick_past_loop (options : BatchOptions) (st st' : state) :
  (forall i, st_pc st <> Loop i) ->
  tick [] options st = Some st' ->
  promises st' = promises st
  /\ forall e, st_pc st' = Failed e ->
       exists w, promises st !! w = Some (Rejected e).
Proof.
  intros Hpc. unfold tick.
  destruct (st_pc st) as [i|i [w|]| | |e0] eqn:E; try discriminate.
  - now destruct (Hpc i).
  - destruct (promises st !! w) as [[|settled|e0]|] eqn:Hw; try discriminate.
    + intros [= <-]. split; [reflexivity|]. discriminate.
    + intros [= <-]. split; [reflexivity|].
      cbn [set_pc st_pc]. intros e [= <-]. eauto.
  - destruct (forallb _ _); [|discriminate].
    intros [= <-]. split; [reflexivity|]. discriminate.
Qed.

Section CallRuns.

Variable toISOString : value -> option string.
Variable digest : string -> string -> string -> string.
Variable getGitHubMetadata : string -> string -> string -> string -> result value.
Variable getLocalMetadata : string -> string -> result value.
Variable argument : option (list element).
Variable options : BatchOptions.
Variable throws : nat -> nat -> option exn.

Local Abbreviation cause :=
  (rejection_cause toISOString digest getGitHubMetadata getLocalMetadata
     argument options throws).
Local Abbreviation cinv :=
  (causes_inv toISOString digest getGitHubMetadata getLocalMetadata
     argument options throws).
Local Abbreviation tick_call' := (tick_call argument options throws).
Local Abbreviation settle_call' :=
  (settle_call toISOString digest getGitHubMetadata getLocalMetadata
     argument options throws).
Local Abbreviation step_call' :=
  (step_call toISOString digest getGitHubMetadata getLocalMetadata
     argument options throws).
Local Abbreviation exec_call' :=
  (exec_call toISOString digest getGitHubMetadata getLocalMetadata
     argument options throws).
Local Abbreviation outcome' :=
  (outcome toISOString digest getGitHubMetadata getLocalMetadata options).

Lemma causes_start : cinv (start argument).
Proof.
  split.
  - intros j e Hj. cbn [start promises] in Hj. rewrite lookup_nil in Hj.
    discriminate.
  - intros e. cbn [start st_pc]. destruct argument as [[|el l]|]; try discriminate.
    intros [= <-]. left. auto.
Qed.

(** What the [finally] block leaves of a promise is rejected because the
    callback threw, or because the promise already was. *)
Lemma finally_promise_Rejected (done : nat) (p : promise_state) (e : exn) :
  finally_promise argument options throws done p = Rejected e ->
  (progressCallback options = true
   /\ throws done (length (elements argument)) = Some e)
  \/ p = Rejected e.
Proof.
  unfold finally_promise. destruct (progressCallback options); [|auto].
  destruct (throws done (length (elements argument))) as [e0|] eqn:E; [|auto].
  intros [= <-]. auto.
Qed.

Lemma cause_of_outcome (done : nat) (input : BatchInput) (e : exn) :
  In (EObject input) (elements argument) ->
  finally_promise argument options throws done (outcome' input) = Rejected e ->
  cause e.
Proof.
  intros Hin H. apply finally_promise_Rejected in H as [[Hcb Hthrows]|Hout].
  - right. right. left. eauto.
  - apply outcome_Rejected in Hout as [Hc Hp].
    right. right. right. eauto.
Qed.

(** The invariant holds of a state to which one promise was added. *)
Lemma causes_pushed (st st1 : state) (p : promise_state) (pc' : pc) :
  cinv st ->
  (forall e, p = Rejected e -> cause e) ->
  promises st1 = (promises st ++ [p])%list ->
  (forall e, pc' <> Failed e) ->
  cinv (set_pc pc' st1).
Proof.
  intros [Hps _] Hp Hps1 Hpc. split.
  - intros j e. cbn [set_pc promises]. rewrite Hps1. intros Hj.
    apply lookup_app_Some in Hj as [Hj|[_ Hj]]; [eauto|].
    destruct (j - length (promises st))%nat; [|discriminate].
    injection Hj as ->. now apply Hp.
  - intros e. cbn [set_pc st_pc]. intros He. now destruct (Hpc e).
Qed.

Lemma causes_tick (st st' : state) :
  cinv st -> tick_call' st = Some st' -> cinv st'.
Proof.
  intros Hinv. pose proof Hinv as [Hps Hfailed]. unfold tick_call.
  destruct (st_pc st) as [i|i w| | |e0] eqn:Hpc.
  - destruct (elements argument !! i) as [el|] eqn:Hel.
    + assert (Hin : In el (elements argument)).
      { apply list_elem_of_In. eapply list_elem_of_lookup_2; eauto. }
      intros H. apply if_Some_inv in H. subst st'.
      destruct (read_filePath el) as [input|e0] eqn:Hread.
      * assert (el = EObject input) by (destruct el; simpl in Hread; congruence).
        subst el.
        destruct (validate_input input) as [call|e0] eqn:Hv.
        -- destruct (Z.of_nat _ >=? concurrency options);
             apply (causes_pushed st _ Pending); auto; discriminate.
        -- destruct (Z.of_nat _ >=? concurrency options);
             apply (causes_pushed st _
                      (finally_promise argument options throws (S (completed st))
                         (on_error options input e0)));
             auto; try discriminate.
           all: intros e He; apply (cause_of_outcome (S (completed st)) input);
             [exact Hin|]; rewrite <- He;
             now rewrite (outcome_invalid _ _ _ _ _ _ _ Hv).
      * destruct (Z.of_nat _ >=? concurrency options);
          apply (causes_pushed st _ (Rejected e0)); auto; try discriminate.
        all: intros e [= <-]; right; left; eauto.
    + intros [= <-]. split; [exact Hps|]. discriminate.
  - intros H. apply tick_past_loop in H as [Hsame Hrej]; [|rewrite Hpc; discriminate].
    split.
    + intros j e. rewrite Hsame. apply Hps.
    + intros e He. destruct (Hrej e He) as [w' Hw]. eauto.
  - intros H. apply tick_past_loop in H as [Hsame Hrej]; [|rewrite Hpc; discriminate].
    split.
    + intros j e. rewrite Hsame. apply Hps.
    + intros e He. destruct (Hrej e He) as [w' Hw]. eauto.
  - unfold tick. rewrite Hpc. discriminate.
  - unfold tick. rewrite Hpc. discriminate.
Qed.

Lemma causes_settle (j : nat) (st st' : state) :
  cinv st -> settle_call' j st = Some st' -> cinv st'.
Proof.
  intros [Hps Hfailed]. unfold settle_call.
  destruct (promises st !! j) as [[| |]|] eqn:Hj; try discriminate.
  destruct (elements argument !! j) as [[| |input]|] eqn:Hel; try discriminate.
  destruct (validate_input input) as [call|] eqn:Hv; [|discriminate].
  assert (Hin : In (EObject input) (elements argument)).
  { apply list_elem_of_In. eapply list_elem_of_lookup_2; eauto. }
  rewrite <- (outcome_valid _ _ _ _ _ _ _ Hv).
  set (p := finally_promise argument options throws (S (completed st))
              (outcome' input)).
  assert (Hp : forall e, p = Rejected e -> cause e).
  { intros e He. now apply (cause_of_outcome (S (completed st)) input). }
  assert (Hjlt : (j < length (promises st))%nat) by (eapply lookup_lt_Some; eauto).
  assert (Hps' : forall k e, <[ j := p ]> (promises st) !! k = Some (Rejected e) ->
            cause e).
  { intros k e. destruct (decide (k = j)) as [->|Hne].
    - rewrite list_lookup_insert_eq by assumption. intros [= He]. now apply Hp.
    - rewrite list_lookup_insert_ne by congruence. apply Hps. }
  unfold finally_state. cbn [st_pc processing promises completed progress results].
  destruct (st_pc st) as [i|i [w|]| | |e0] eqn:Hpc;
    try (intros [= <-]; split; [exact Hps'|];
         cbn [st_pc]; intros e He; apply Hfailed; congruence).
  destruct (existsb _ _); intros [= <-]; split; try exact Hps';
    cbn [set_pc st_pc]; discriminate.
Qed.

Lemma causes_exec (evs : list event) (st st' : state) :
  cinv st -> exec_call' evs st = Some st' -> cinv st'.
Proof.
  revert st. induction evs as [|ev evs IH]; intros st Hinv; simpl.
  - intros [= <-]. assumption.
  - destruct (step_call' st ev) as [st1|] eqn:Hstep; [|discriminate].
    apply IH. destruct ev as [|j]; simpl in Hstep.
    + eapply causes_tick; eauto.
    + eapply causes_settle; eauto.
Qed.

(** X24. A call of [generateBatchIdentifiers] rejects in four ways only:
    its first argument is not an array; an element of the array is [null]
    or [undefined], the exception being the TypeError of reading its
    [filePath]; the progress callback throws, the exception being the one
    it threw; or [continueOnError] is false and the pipeline of an element
    throws, the exception being that one. With an array of objects, a
    callback that returns and [continueOnError] true, it does not reject. *)
Theorem generateBatchIdentifiers_rejection (evs : list event) (st : state)
    (e : exn) :
  exec_call' evs (start argument) = Some st ->
  st_pc st = Failed e ->
  cause e
  /\ ((exists objects, argument = Some (map EObject objects)) ->
      (forall done total, throws done total = None) ->
      continueOnError options = true ->
      False).
Proof.
  intros H Hfailed.
  pose proof (causes_exec evs _ _ causes_start H) as [_ Hpc].
  specialize (Hpc e Hfailed). split; [exact Hpc|].
  intros [objects Harg] Hreturns Hcontinue.
  destruct Hpc as [[Hnone _]|[(el & Hin & Hread)|[[_ [done Hthrows]]|[Hstop _]]]].
  - congruence.
  - unfold elements in Hin. rewrite Harg in Hin. cbn [default from_option id] in Hin.
    apply in_map_iff in Hin as (input & <- & _). discriminate.
  - rewrite Hreturns in Hthrows. discriminate.
  - congruence.
Qed.

(** The orchestrator of the previous sections is this one on an array of
    objects with a callback that returns. *)
Lemma start_objects (objects : list BatchInput) :
  start (Some (map EObject objects)) = init objects.
Proof. unfold start, init. now destruct objects. Qed.

End CallRuns.

Lemma tick_call_objects (objects : list BatchInput) (options : BatchOptions)
    (st : state) :
  tick_call (Some (map EObject objects)) options returning_callback st
  = tick objects options st.
Proof.
  unfold tick_call, tick, elements. cbn [default from_option id].
  destruct (st_pc st) as [i|i w| | |e0] eqn:Hpc; try reflexivity.
  change (map EObject objects) with (EObject <$> objects).
  rewrite list_lookup_fmap.
  destruct (objects !! i) as [input|]; [|reflexivity].
  cbn [fmap option_fmap option_map read_filePath].
  destruct (validate_input input) as [call|e0]; [reflexivity|].
  unfold finally_state, finally_, finally_promise, push, total, returning_callback,
    elements.
  cbn [default from_option id st_pc processing results promises completed progress].
  rewrite length_fmap.
  destruct (progressCallback options); reflexivity.
Qed.

Lemma settle_call_objects
    (toISOString : value -> option string)
    (digest : string -> string -> string -> string)
    (getGitHubMetadata : string -> string -> string -> string -> result value)
    (getLocalMetadata : string -> string -> result value)
    (objects : list BatchInput) (options : BatchOptions) (j : nat) (st : state) :
  settle_call toISOString digest getGitHubMetadata getLocalMetadata
    (Some (map EObject objects)) options returning_callback j st
  = settle toISOString digest getGitHubMetadata getLocalMetadata objects options j st.
Proof.
  unfold settle_call, settle, elements. cbn [default from_option id].
  change (map EObject objects) with (EObject <$> objects).
  rewrite list_lookup_fmap.
  destruct (promises st !! j) as [[| |]|]; destruct (objects !! j) as [input|];
    try reflexivity.
  cbn [fmap option_fmap option_map].
  destruct (validate_input input) as [call|e0]; [|reflexivity].
  unfold finally_state, finally_, finally_promise, total, returning_callback,
    elements.
  cbn [default from_option id st_pc processing results promises completed progress].
  rewrite length_fmap.
  destruct (progressCallback options); reflexivity.
Qed.

Lemma generateBatchIdentifiers_rejection_witness :
  rejection_cause sample_toISOString sample_digest sample_getGitHubMetadata
    sample_getLocalMetadata (Some [EObject (local_input "a.js")])
    options_with_callback throwing_callback (Error "callback failed")
  /\ ((exists objects, Some [EObject (local_input "a.js")] = Some (map EObject objects)) ->
      (forall done total, throwing_callback done total = None) ->
      continueOnError options_with_callback = true ->
      False).
Proof.
  apply (generateBatchIdentifiers_rejection sample_toISOString sample_digest
           sample_getGitHubMetadata sample_getLocalMetadata
           (Some [EObject (local_input "a.js")]) options_with_callback
           throwing_callback [Tick; Settle 0; Tick]
           (call_run (Some [EObject (local_input "a.js")]) throwing_callback
              [Tick; Settle 0; Tick])).
  - reflexivity.
  - reflexivity.
Defined.

(** The three ways a call rejects although errors are caught. *)
Example call_rejects_not_an_array :
  st_pc (call_run None returning_callback [])
  = Failed (TypeError "inputs must be an array").
Proof. reflexivity. Qed.

Example call_rejects_null_element :
  st_pc (call_run (Some [ENull]) returning_callback [Tick; Tick])
  = Failed (TypeError "Cannot read properties of null (reading 'filePath')").
Proof. reflexivity. Qed.

Example call_rejects_throwing_callback :
  st_pc (call_run (Some [EObject (local_input "a.js")]) throwing_callback
           [Tick; Settle 0; Tick])
  = Failed (Error "callback failed").
Proof. reflexivity. Qed.
